(** * SoccerGame: players, goalies and a referee over shared memory and semaphores

    A model of [semSharedMemPlayer.c], [semSharedMemGoalie.c] and
    [semSharedMemReferee.c].  Every process is a small sequential program;
    the processes share one memory region ([sh->fSt]), a set of System V
    semaphores and a log file.  Each C function is embedded as a step
    function over the labels of its statements, so that the interleavings
    of the processes can be followed statement by statement. *)

From Stdlib Require Import ZArith List Bool Lia String Ascii.
From stdpp Require Import base option list.

Set Default Proof Using "Type".
Local Open Scope Z_scope.

(** ** C integers *)

Module CInt.

Definition INT_MIN : Z := -2147483648.
Definition INT_MAX : Z := 2147483647.

(** [(unsigned int) x]: reduction modulo 2^32. *)
Definition to_uint (x : Z) : Z := x mod 4294967296.

(** Conversion of an integer value to [int] (two's complement, 32 bits). *)
Definition to_int (x : Z) : Z :=
  let u := x mod 4294967296 in
  if u <? 2147483648 then u else u - 4294967296.

Definition in_int (x : Z) : Prop := INT_MIN <= x <= INT_MAX.

(** [x + y] and [x - y] on [int] operands, wrapping around. *)
Definition add (x y : Z) : Z := to_int (x + y).
Definition sub (x y : Z) : Z := to_int (x - y).

End CInt.

#[global] Arguments CInt.add : simpl never.
#[global] Arguments CInt.sub : simpl never.
#[global] Arguments CInt.to_int : simpl never.
#[global] Arguments CInt.to_uint : simpl never.

(** ** Problem constants and data structures *)

(** [probConst.h] is not among the sources: its population constants are
    taken as parameters.  They are plain integer constants of type [int]. *)
Record probConst := {
  NUMPLAYERS : Z;
  NUMGOALIES : Z;
  NUMTEAMPLAYERS : Z;
  NUMTEAMGOALIES : Z
}.

(** Modelled from the spec: the state symbols of [probConst.h] (section 3,
    shared state): the states of the field actors and those of the referee,
    which share [ENDING_GAME]; all of them are distinct values. *)
Inductive stat :=
  | ARRIVING | LATE | FORMING_TEAM | WAITING_TEAM | PLAYING | ENDING_GAME
  | ARRIVINGR | WAITING_TEAMS | STARTING_GAME | REFEREEING.

#[global] Instance stat_eq_dec : EqDecision stat.
Proof. solve_decision. Defined.

(** Modelled from the spec: [STAT] of [probDataStruct.h] (section 3): one
    slot per player, one per goalie and one for the referee. *)
Record STAT := {
  playerStat : list stat;
  goalieStat : list stat;
  refereeStat : stat
}.

(** Modelled from the spec: [FULL_STAT] of [probDataStruct.h] (section 3),
    the snapshot that [saveState] logs; the counters are [int] fields. *)
Record FULL_STAT := {
  st : STAT;
  playersFree : Z;
  goaliesFree : Z;
  teamId : Z
}.

(** The semaphores of [sharedDataSync.h] that the three programs use;
    [sh->mutex], [sh->playersWaitReferee] and [sh->playersWaitEnd] are
    their indices in the semaphore set [semgid]. *)
Inductive semaphore := mutex | playersWaitReferee | playersWaitEnd.

#[global] Instance semaphore_eq_dec : EqDecision semaphore.
Proof. solve_decision. Defined.

Record semset := {
  val_mutex : nat;
  val_playersWaitReferee : nat;
  val_playersWaitEnd : nat
}.

(** What the processes share: the memory region, the semaphore set and the
    log file (one record per [saveState], oldest first). *)
Record world := {
  fSt : FULL_STAT;
  sems : semset;
  logfile : list FULL_STAT
}.

Definition semval (s : semaphore) (w : world) : nat :=
  match s with
  | mutex => val_mutex (sems w)
  | playersWaitReferee => val_playersWaitReferee (sems w)
  | playersWaitEnd => val_playersWaitEnd (sems w)
  end.

Definition set_semval (s : semaphore) (n : nat) (v : semset) : semset :=
  match s with
  | mutex =>
      {| val_mutex := n; val_playersWaitReferee := val_playersWaitReferee v;
         val_playersWaitEnd := val_playersWaitEnd v |}
  | playersWaitReferee =>
      {| val_mutex := val_mutex v; val_playersWaitReferee := n;
         val_playersWaitEnd := val_playersWaitEnd v |}
  | playersWaitEnd =>
      {| val_mutex := val_mutex v; val_playersWaitReferee := val_playersWaitReferee v;
         val_playersWaitEnd := n |}
  end.

(** Modelled from the spec: [semDown] of [semaphore.c] (section 4.4): a
    wait blocks until the counter is positive and then decrements it.  A
    blocked [semDown] has no step ([None]); the failure of the primitive
    itself, after which the programs exit, is not modelled. *)
Definition semDown (s : semaphore) (w : world) : option world :=
  match semval s w with
  | O => None
  | S n => Some {| fSt := fSt w; sems := set_semval s n (sems w); logfile := logfile w |}
  end.

(** Modelled from the spec: [semUp] of [semaphore.c] (section 4.4): a post
    increments the counter. *)
Definition semUp (s : semaphore) (w : world) : world :=
  {| fSt := fSt w; sems := set_semval s (S (semval s w)) (sems w); logfile := logfile w |}.

(** Modelled from the spec: [saveState] of [logging.c] (section 4.1)
    appends one record, the current snapshot, to the log file. *)
Definition saveState (w : world) : world :=
  {| fSt := fSt w; sems := sems w; logfile := logfile w ++ [fSt w] |}.

Definition with_fSt (f : FULL_STAT) (w : world) : world :=
  {| fSt := f; sems := sems w; logfile := logfile w |}.

(** [a[id] = v] on a C array: defined only inside the bounds of [a]. *)
Definition store (a : list stat) (id : Z) (v : stat) : option (list stat) :=
  if (0 <=? id) && (id <? Z.of_nat (length a))
  then Some (<[Z.to_nat id := v]> a) else None.

(** The two kinds of field actors differ only in the slot array they write. *)
Inductive role := PlayerRole | GoalieRole.

#[global] Instance role_eq_dec : EqDecision role.
Proof. solve_decision. Defined.

Definition slots (r : role) (f : FULL_STAT) : list stat :=
  match r with
  | PlayerRole => playerStat (st f)
  | GoalieRole => goalieStat (st f)
  end.

(** [sh->fSt.st.playerStat[id] = v] or [sh->fSt.st.goalieStat[id] = v]. *)
Definition set_stat (r : role) (id : Z) (v : stat) (w : world) : option world :=
  let f := fSt w in
  match r with
  | PlayerRole =>
      a ← store (playerStat (st f)) id v;
      Some (with_fSt {| st := {| playerStat := a; goalieStat := goalieStat (st f);
                                  refereeStat := refereeStat (st f) |};
                        playersFree := playersFree f; goaliesFree := goaliesFree f;
                        teamId := teamId f |} w)
  | GoalieRole =>
      a ← store (goalieStat (st f)) id v;
      Some (with_fSt {| st := {| playerStat := playerStat (st f); goalieStat := a;
                                  refereeStat := refereeStat (st f) |};
                        playersFree := playersFree f; goaliesFree := goaliesFree f;
                        teamId := teamId f |} w)
  end.

(** [sh->fSt.st.refereeStat = v]. *)
Definition set_refereeStat (v : stat) (w : world) : world :=
  let f := fSt w in
  with_fSt {| st := {| playerStat := playerStat (st f); goalieStat := goalieStat (st f);
                       refereeStat := v |};
              playersFree := playersFree f; goaliesFree := goaliesFree f;
              teamId := teamId f |} w.

Definition set_playersFree (n : Z) (w : world) : world :=
  let f := fSt w in
  with_fSt {| st := st f; playersFree := n; goaliesFree := goaliesFree f;
              teamId := teamId f |} w.

Definition set_goaliesFree (n : Z) (w : world) : world :=
  let f := fSt w in
  with_fSt {| st := st f; playersFree := playersFree f; goaliesFree := n;
              teamId := teamId f |} w.

Definition set_teamId (n : Z) (w : world) : world :=
  let f := fSt w in
  with_fSt {| st := st f; playersFree := playersFree f; goaliesFree := goaliesFree f;
              teamId := n |} w.

(** ** The field actors: [semSharedMemPlayer.c] and [semSharedMemGoalie.c]

    The two files have the same functions; [role] selects the slot array.
    A label names the statement a process executes next; a function step
    gives the next label, or [None] when the function returns. *)

(** The statements of [arrive]: [semDown] on the mutex, the assignment of
    the slot, [saveState], [semUp] on the mutex. *)
Inductive arrive_pc := arrive_down | arrive_set | arrive_save | arrive_up.

(** The statements of [playerConstituteTeam] and [goalieConstituteTeam]:
    [semDown] on the mutex; the test on the free counters; in its first
    branch [team = sh->fSt.teamId++], [playersFree -= NUMTEAMPLAYERS],
    [goaliesFree -= NUMTEAMGOALIES], the slot set to FORMING_TEAM and
    [saveState]; in its second branch the slot set to LATE and [saveState];
    [semUp] on the mutex, after which [team] is returned. *)
Inductive constituteTeam_pc :=
  | ct_down | ct_if
  | ct_team | ct_playersFree | ct_goaliesFree | ct_forming | ct_save_forming
  | ct_late | ct_save_late
  | ct_up.

(** The statements of [waitReferee]: [semDown] on [playersWaitReferee],
    then the critical section that sets the slot to PLAYING. *)
Inductive waitReferee_pc := wr_wait | wr_down | wr_set | wr_save | wr_up.

(** The statements of [playUntilEnd]: [semDown] on [playersWaitEnd], then
    the critical section that sets the slot to ENDING_GAME. *)
Inductive playUntilEnd_pc := pe_wait | pe_down | pe_set | pe_save | pe_up.

Section FieldActor.

Variable K : probConst.
Variable r : role.

(** [arrive (id)]: publish ARRIVING under the mutex; the [usleep] that
    follows touches nothing shared. *)
Definition arrive (id : Z) (l : arrive_pc) (w : world) : option (option arrive_pc * world) :=
  match l with
  | arrive_down => w' ← semDown mutex w; Some (Some arrive_set, w')
  | arrive_set => w' ← set_stat r id ARRIVING w; Some (Some arrive_save, w')
  | arrive_save => Some (Some arrive_up, saveState w)
  | arrive_up => Some (None, semUp mutex w)
  end.

(** The test of [playerConstituteTeam] and [goalieConstituteTeam]. *)
Definition enough_free (f : FULL_STAT) : bool :=
  (NUMTEAMPLAYERS K <=? playersFree f) && (NUMTEAMGOALIES K <=? goaliesFree f).

(** [playerConstituteTeam (id)] and [goalieConstituteTeam (id)]; [team] is
    the local variable that is returned ([ret] in the goalie). *)
Definition constituteTeam (id : Z) (l : constituteTeam_pc) (team : Z) (w : world)
  : option (option constituteTeam_pc * Z * world) :=
  match l with
  | ct_down => w' ← semDown mutex w; Some (Some ct_if, team, w')
  | ct_if =>
      if enough_free (fSt w) then Some (Some ct_team, team, w)
      else Some (Some ct_late, team, w)
  | ct_team =>
      Some (Some ct_playersFree, teamId (fSt w),
            set_teamId (CInt.add (teamId (fSt w)) 1) w)
  | ct_playersFree =>
      Some (Some ct_goaliesFree, team,
            set_playersFree (CInt.sub (playersFree (fSt w)) (NUMTEAMPLAYERS K)) w)
  | ct_goaliesFree =>
      Some (Some ct_forming, team,
            set_goaliesFree (CInt.sub (goaliesFree (fSt w)) (NUMTEAMGOALIES K)) w)
  | ct_forming => w' ← set_stat r id FORMING_TEAM w; Some (Some ct_save_forming, team, w')
  | ct_save_forming => Some (Some ct_up, team, saveState w)
  | ct_late => w' ← set_stat r id LATE w; Some (Some ct_save_late, team, w')
  | ct_save_late => Some (Some ct_up, team, saveState w)
  | ct_up => Some (None, team, semUp mutex w)
  end.

(** [waitReferee (id, team)]. *)
Definition waitReferee (id : Z) (l : waitReferee_pc) (w : world)
  : option (option waitReferee_pc * world) :=
  match l with
  | wr_wait => w' ← semDown playersWaitReferee w; Some (Some wr_down, w')
  | wr_down => w' ← semDown mutex w; Some (Some wr_set, w')
  | wr_set => w' ← set_stat r id PLAYING w; Some (Some wr_save, w')
  | wr_save => Some (Some wr_up, saveState w)
  | wr_up => Some (None, semUp mutex w)
  end.

(** [playUntilEnd (id, team)]. *)
Definition playUntilEnd (id : Z) (l : playUntilEnd_pc) (w : world)
  : option (option playUntilEnd_pc * world) :=
  match l with
  | pe_wait => w' ← semDown playersWaitEnd w; Some (Some pe_down, w')
  | pe_down => w' ← semDown mutex w; Some (Some pe_set, w')
  | pe_set => w' ← set_stat r id ENDING_GAME w; Some (Some pe_save, w')
  | pe_save => Some (Some pe_up, saveState w)
  | pe_up => Some (None, semUp mutex w)
  end.

(** Where a field process is in the life cycle of [main], once its
    arguments are validated and the shared region is attached. *)
Inductive field_pc :=
  | in_arrive (l : arrive_pc)
  | in_constituteTeam (l : constituteTeam_pc)
  | in_waitReferee (l : waitReferee_pc)
  | in_playUntilEnd (l : playUntilEnd_pc)
  | exited.

(** A field process: its position and the value of its variable [team]. *)
Record field_proc := { pc : field_pc; team : Z }.

(** The life cycle of [main]: [arrive (n)], then [team = constituteTeam (n)]
    and, when [team] is not 0, [waitReferee (n, team)] and
    [playUntilEnd (n, team)].  The local [team] of [constituteTeam] is
    initialised to 0 on entry; detaching the shared region at the end
    touches nothing of the model. *)
Definition field_main (id : Z) (p : field_proc) (w : world) : option (field_proc * world) :=
  match pc p with
  | in_arrive l =>
      '(n, w') ← arrive id l w;
      Some (match n with
            | Some l' => {| pc := in_arrive l'; team := team p |}
            | None => {| pc := in_constituteTeam ct_down; team := 0 |}
            end, w')
  | in_constituteTeam l =>
      '(n, t, w') ← constituteTeam id l (team p) w;
      Some (match n with
            | Some l' => {| pc := in_constituteTeam l'; team := t |}
            | None =>
                if t =? 0 then {| pc := exited; team := t |}
                else {| pc := in_waitReferee wr_wait; team := t |}
            end, w')
  | in_waitReferee l =>
      '(n, w') ← waitReferee id l w;
      Some (match n with
            | Some l' => {| pc := in_waitReferee l'; team := team p |}
            | None => {| pc := in_playUntilEnd pe_wait; team := team p |}
            end, w')
  | in_playUntilEnd l =>
      '(n, w') ← playUntilEnd id l w;
      Some (match n with
            | Some l' => {| pc := in_playUntilEnd l'; team := team p |}
            | None => {| pc := exited; team := team p |}
            end, w')
  | exited => None
  end.

End FieldActor.

Definition playerConstituteTeam (K : probConst) := constituteTeam K PlayerRole.
Definition goalieConstituteTeam (K : probConst) := constituteTeam K GoalieRole.

(** ** The referee: [semSharedMemReferee.c] *)

Module Referee.

(** Each function of the referee is a critical section ([semDown] on the
    mutex, the assignment of [refereeStat], [saveState], [semUp]);
    [waitForTeams] then polls [teamId] at [wt_poll], [startGame] and
    [endGame] then post a semaphore at [sg_notify] and [eg_notify]. *)
Inductive arrive_pc := arrive_down | arrive_set | arrive_save | arrive_up.

Inductive waitForTeams_pc := wt_down | wt_set | wt_save | wt_up | wt_poll.

Inductive startGame_pc := sg_down | sg_set | sg_save | sg_up | sg_notify.

Inductive play_pc := pl_down | pl_set | pl_save | pl_up.

Inductive endGame_pc := eg_down | eg_set | eg_save | eg_up | eg_notify.

(** [arrive ()]. *)
Definition arrive (l : arrive_pc) (w : world) : option (option arrive_pc * world) :=
  match l with
  | arrive_down => w' ← semDown mutex w; Some (Some arrive_set, w')
  | arrive_set => Some (Some arrive_save, set_refereeStat ARRIVINGR w)
  | arrive_save => Some (Some arrive_up, saveState w)
  | arrive_up => Some (None, semUp mutex w)
  end.

(** [waitForTeams ()]: after its critical section the referee polls
    [while (sh->fSt.teamId < 3) usleep(1000);]. *)
Definition waitForTeams (l : waitForTeams_pc) (w : world)
  : option (option waitForTeams_pc * world) :=
  match l with
  | wt_down => w' ← semDown mutex w; Some (Some wt_set, w')
  | wt_set => Some (Some wt_save, set_refereeStat WAITING_TEAMS w)
  | wt_save => Some (Some wt_up, saveState w)
  | wt_up => Some (Some wt_poll, semUp mutex w)
  | wt_poll => if teamId (fSt w) <? 3 then Some (Some wt_poll, w) else Some (None, w)
  end.

(** [startGame ()]. *)
Definition startGame (l : startGame_pc) (w : world) : option (option startGame_pc * world) :=
  match l with
  | sg_down => w' ← semDown mutex w; Some (Some sg_set, w')
  | sg_set => Some (Some sg_save, set_refereeStat STARTING_GAME w)
  | sg_save => Some (Some sg_up, saveState w)
  | sg_up => Some (Some sg_notify, semUp mutex w)
  | sg_notify => Some (None, semUp playersWaitReferee w)
  end.

(** [play ()]. *)
Definition play (l : play_pc) (w : world) : option (option play_pc * world) :=
  match l with
  | pl_down => w' ← semDown mutex w; Some (Some pl_set, w')
  | pl_set => Some (Some pl_save, set_refereeStat REFEREEING w)
  | pl_save => Some (Some pl_up, saveState w)
  | pl_up => Some (None, semUp mutex w)
  end.

(** [endGame ()]. *)
Definition endGame (l : endGame_pc) (w : world) : option (option endGame_pc * world) :=
  match l with
  | eg_down => w' ← semDown mutex w; Some (Some eg_set, w')
  | eg_set => Some (Some eg_save, set_refereeStat ENDING_GAME w)
  | eg_save => Some (Some eg_up, saveState w)
  | eg_up => Some (Some eg_notify, semUp mutex w)
  | eg_notify => Some (None, semUp playersWaitEnd w)
  end.

Inductive referee_pc :=
  | in_arrive (l : arrive_pc)
  | in_waitForTeams (l : waitForTeams_pc)
  | in_startGame (l : startGame_pc)
  | in_play (l : play_pc)
  | in_endGame (l : endGame_pc)
  | exited.

(** The life cycle of [main]:
    [arrive(); waitForTeams(); startGame(); play(); endGame();]. *)
Definition referee_main (p : referee_pc) (w : world) : option (referee_pc * world) :=
  match p with
  | in_arrive l =>
      '(n, w') ← arrive l w;
      Some (from_option in_arrive (in_waitForTeams wt_down) n, w')
  | in_waitForTeams l =>
      '(n, w') ← waitForTeams l w;
      Some (from_option in_waitForTeams (in_startGame sg_down) n, w')
  | in_startGame l =>
      '(n, w') ← startGame l w;
      Some (from_option in_startGame (in_play pl_down) n, w')
  | in_play l =>
      '(n, w') ← play l w;
      Some (from_option in_play (in_endGame eg_down) n, w')
  | in_endGame l =>
      '(n, w') ← endGame l w;
      Some (from_option in_endGame exited n, w')
  | exited => None
  end.

End Referee.

(** ** Validation of the command line in [main] *)

Module Args.

Definition EXIT_FAILURE : Z := 1.

(** Where [stderr] points when a message is printed: the stream inherited
    from the parent, or the file of the last [freopen]. *)
Inductive stream := inherited_stderr | file (name : string).

(** What [main] has done when validation is over: it has returned a status
    after printing to a stream, or goes on to attach the shared region and
    run the life cycle with id [n]. *)
Inductive outcome :=
  | exits (status : Z) (to : stream) (message : string)
  | proceeds (n : Z).

(** The command line as [main] looks at it: [argc], and for [argv[1]] the
    value [strtol] returns with what it leaves unparsed at [tinp]. *)
Record cmdline := {
  argc : Z;
  strtol_value : Z;
  strtol_rest : string
}.

(** Lines 70-82 of [semSharedMemPlayer.c] (71-82 of the goalie):
    [n = (unsigned int) strtol (argv[1], &tinp, 0)] with [int n], then the
    test that [tinp] is not at the end of the string or [n >= NUMPLAYERS]
    ([NUMGOALIES] in the goalie).  [population] is the
    constant of the role, [errfile] the name given to the first [freopen]
    and [msg] the message of the second check. *)
Definition validate (population : Z) (errfile msg : string) (c : cmdline) : outcome :=
  if negb (argc c =? 4) then
    exits EXIT_FAILURE (file errfile) "Number of parameters is incorrect!"
  else
    let n := CInt.to_int (CInt.to_uint (strtol_value c)) in
    if negb (String.eqb (strtol_rest c) EmptyString) || (population <=? n) then
      exits EXIT_FAILURE inherited_stderr msg
    else proceeds n.

Definition player_main (K : probConst) : cmdline -> outcome :=
  validate (NUMPLAYERS K) "error_PL" "Player process identification is wrong!".

Definition goalie_main (K : probConst) : cmdline -> outcome :=
  validate (NUMGOALIES K) "error_GL" "Goalie process identification is wrong!".

End Args.

(** ** The processes together *)

Inductive actor := Player (id : nat) | Goalie (id : nat) | TheReferee.

#[global] Instance actor_eq_dec : EqDecision actor.
Proof. solve_decision. Defined.

(** The harness starts one process per player id and per goalie id and one
    referee; process [i] of a role runs with id [i]. *)
Record system := {
  shared : world;
  players : list field_proc;
  goalies : list field_proc;
  referee : Referee.referee_pc
}.

Definition procs (r : role) (s : system) : list field_proc :=
  match r with PlayerRole => players s | GoalieRole => goalies s end.

Definition field_actor (r : role) (i : nat) : actor :=
  match r with PlayerRole => Player i | GoalieRole => Goalie i end.

(** One statement of one process. *)
Definition step (K : probConst) (a : actor) (s : system) : option system :=
  match a with
  | Player i =>
      p ← players s !! i;
      '(p', w') ← field_main K PlayerRole (Z.of_nat i) p (shared s);
      Some {| shared := w'; players := <[i := p']> (players s);
              goalies := goalies s; referee := referee s |}
  | Goalie i =>
      p ← goalies s !! i;
      '(p', w') ← field_main K GoalieRole (Z.of_nat i) p (shared s);
      Some {| shared := w'; players := players s;
              goalies := <[i := p']> (goalies s); referee := referee s |}
  | TheReferee =>
      '(q', w') ← Referee.referee_main (referee s) (shared s);
      Some {| shared := w'; players := players s; goalies := goalies s; referee := q' |}
  end.

(** The statement a process is about to execute. *)
Inductive label := at_field (l : field_pc) | at_referee (l : Referee.referee_pc).

Definition next_label (a : actor) (s : system) : option label :=
  match a with
  | Player i => at_field ∘ pc <$> players s !! i
  | Goalie i => at_field ∘ pc <$> goalies s !! i
  | TheReferee => Some (at_referee (referee s))
  end.

(** An event is a statement executed by a process; a trace lists the events
    of a run, the latest first. *)
Definition event : Type := actor * label.

Inductive reach (K : probConst) (s0 : system) : list event -> system -> Prop :=
  | reach_init : reach K s0 [] s0
  | reach_step tr s a l s' :
      reach K s0 tr s -> next_label a s = Some l -> step K a s = Some s' ->
      reach K s0 ((a, l) :: tr) s'.

(** Running a schedule (the processes in the order they take their steps). *)
Fixpoint run (K : probConst) (sched : list actor) (s : system) : option system :=
  match sched with
  | [] => Some s
  | a :: rest => s' ← step K a s; run K rest s'
  end.

Fixpoint trace (K : probConst) (sched : list actor) (s : system) (tr : list event)
  : list event :=
  match sched with
  | [] => tr
  | a :: rest =>
      match next_label a s, step K a s with
      | Some l, Some s' => trace K rest s' ((a, l) :: tr)
      | _, _ => tr
      end
  end.

(** Modelled from the spec: the initial snapshot, which the harness (not
    among the sources) creates before any actor starts (section 3): the
    free counters hold the populations, [nextTeamId] is 1 and every slot is
    in its first state. *)
Definition init_fSt (K : probConst) : FULL_STAT :=
  {| st := {| playerStat := replicate (Z.to_nat (NUMPLAYERS K)) ARRIVING;
              goalieStat := replicate (Z.to_nat (NUMGOALIES K)) ARRIVING;
              refereeStat := ARRIVINGR |};
     playersFree := NUMPLAYERS K;
     goaliesFree := NUMGOALIES K;
     teamId := 1 |}.

(** Modelled from the spec: the initial state of the system (sections 3, 4.4
    and 6): the mutex is free, no signal is pending, the log is empty, and
    the harness has started one process per player and per goalie and the
    referee, each at the beginning of its life cycle. *)
Definition init (K : probConst) : system :=
  {| shared := {| fSt := init_fSt K;
                  sems := {| val_mutex := 1; val_playersWaitReferee := 0;
                             val_playersWaitEnd := 0 |};
                  logfile := [] |};
     players := replicate (Z.to_nat (NUMPLAYERS K)) {| pc := in_arrive arrive_down; team := 0 |};
     goalies := replicate (Z.to_nat (NUMGOALIES K)) {| pc := in_arrive arrive_down; team := 0 |};
     referee := Referee.in_arrive Referee.arrive_down |}.

Definition reachable (K : probConst) (tr : list event) (s : system) : Prop :=
  reach K (init K) tr s.

(** The configurations of section 8 of the spec. *)
Definition exact_fit : probConst :=
  {| NUMPLAYERS := 8; NUMGOALIES := 2; NUMTEAMPLAYERS := 4; NUMTEAMGOALIES := 1 |}.

Definition with_surplus : probConst :=
  {| NUMPLAYERS := 10; NUMGOALIES := 3; NUMTEAMPLAYERS := 4; NUMTEAMGOALIES := 1 |}.

(** Populations that are enough for three teams. *)
Definition three_teams_fit : probConst :=
  {| NUMPLAYERS := 12; NUMGOALIES := 3; NUMTEAMPLAYERS := 4; NUMTEAMGOALIES := 1 |}.

(** Eight players and a single goalie (scenario 3 of section 8). *)
Definition one_goalie : probConst :=
  {| NUMPLAYERS := 8; NUMGOALIES := 1; NUMTEAMPLAYERS := 4; NUMTEAMGOALIES := 1 |}.

(** A process that runs [n] statements in a row. *)
Definition alone (a : actor) (n : nat) : list actor := replicate n a.

(** With [one_goalie], player 0 goes through [arrive] and
    [playerConstituteTeam] and forms team 1; player 1 then goes through
    [arrive] and takes the mutex in [playerConstituteTeam]. *)
Definition one_team_run : list actor := alone (Player 0) 12 ++ alone (Player 1) 5.

(** The shared region at the end of [one_team_run]. *)
Definition one_team_formed : world :=
  from_option shared (shared (init one_goalie))
    (run one_goalie one_team_run (init one_goalie)).

(** ** Calling one function alone *)

(** [call f fuel l s] runs the statements of a function from label [l]
    without any other process in between, until it returns; it gives
    [None] when a statement blocks or is undefined, or when [fuel]
    statements were not enough. *)
Fixpoint call {L S : Type} (f : L -> S -> option (option L * S)) (fuel : nat)
    (l : L) (s : S) : option S :=
  match fuel with
  | O => None
  | Datatypes.S n =>
      '(next, s') ← f l s;
      match next with
      | None => Some s'
      | Some l' => call f n l' s'
      end
  end.

(** [constituteTeam] as a function over the pair of its local variable and
    the world, the shape [call] expects. *)
Definition constituteTeam_body (K : probConst) (r : role) (id : Z)
    (l : constituteTeam_pc) (s : Z * world) : option (option constituteTeam_pc * (Z * world)) :=
  '(next, t, w') ← constituteTeam K r id l s.1 s.2; Some (next, (t, w')).

(** ** Who holds the mutex *)

(** The labels between a [semDown (semgid, sh->mutex)] and the matching
    [semUp], the [semUp] included: the process holds the mutex there. *)
Definition in_cs (l : field_pc) : bool :=
  match l with
  | in_arrive arrive_down => false
  | in_arrive _ => true
  | in_constituteTeam ct_down => false
  | in_constituteTeam _ => true
  | in_waitReferee wr_wait | in_waitReferee wr_down => false
  | in_waitReferee _ => true
  | in_playUntilEnd pe_wait | in_playUntilEnd pe_down => false
  | in_playUntilEnd _ => true
  | exited => false
  end.

Definition referee_in_cs (l : Referee.referee_pc) : bool :=
  match l with
  | Referee.in_arrive Referee.arrive_down => false
  | Referee.in_arrive _ => true
  | Referee.in_waitForTeams Referee.wt_down
  | Referee.in_waitForTeams Referee.wt_poll => false
  | Referee.in_waitForTeams _ => true
  | Referee.in_startGame Referee.sg_down
  | Referee.in_startGame Referee.sg_notify => false
  | Referee.in_startGame _ => true
  | Referee.in_play Referee.pl_down => false
  | Referee.in_play _ => true
  | Referee.in_endGame Referee.eg_down
  | Referee.in_endGame Referee.eg_notify => false
  | Referee.in_endGame _ => true
  | Referee.exited => false
  end.

Definition label_in_cs (l : label) : bool :=
  match l with
  | at_field l => in_cs l
  | at_referee l => referee_in_cs l
  end.

Definition holds_mutex (a : actor) (s : system) : Prop :=
  exists l, next_label a s = Some l /\ label_in_cs l = true.

(** The number of leader branches entered so far: the executions of
    [team = sh->fSt.teamId++] (of [ret = ...] in the goalie). *)
Definition is_leader_label (l : label) : bool :=
  match l with
  | at_field (in_constituteTeam ct_team) => true
  | _ => false
  end.

Definition is_leader_event (e : event) : bool := is_leader_label e.2.

Fixpoint teams_formed (tr : list event) : Z :=
  match tr with
  | [] => 0
  | e :: tr' => (if is_leader_event e then 1 else 0) + teams_formed tr'
  end.

(** ** Invariants of the runs *)

(** Mutual exclusion: the mutex is binary, it is taken whenever a process
    is between its [semDown] and its [semUp], and at most one process is. *)
Definition mutex_inv (s : system) : Prop :=
  (semval mutex (shared s) <= 1)%nat /\
  (forall a, holds_mutex a s -> semval mutex (shared s) = O) /\
  (forall a b, holds_mutex a s -> holds_mutex b s -> a = b) /\
  (semval mutex (shared s) = O -> exists a, holds_mutex a s).

(** How a step moves the process that takes it with respect to the mutex. *)
Inductive mutex_move (w w' : world) : bool -> bool -> Prop :=
  | move_acquire :
      semval mutex w = S (semval mutex w') -> fSt w' = fSt w -> logfile w' = logfile w ->
      mutex_move w w' false true
  | move_inside :
      semval mutex w' = semval mutex w -> mutex_move w w' true true
  | move_release :
      semval mutex w' = S (semval mutex w) -> fSt w' = fSt w -> logfile w' = logfile w ->
      mutex_move w w' true false
  | move_outside :
      semval mutex w' = semval mutex w -> fSt w' = fSt w -> logfile w' = logfile w ->
      mutex_move w w' false false.

(** The constants the programs are compiled with: teams are not empty and
    the populations are [int] values. *)
Record consts_ok (K : probConst) : Prop := {
  team_players_pos : 1 <= NUMTEAMPLAYERS K;
  team_goalies_pos : 1 <= NUMTEAMGOALIES K;
  players_range : 0 <= NUMPLAYERS K < CInt.INT_MAX;
  goalies_range : 0 <= NUMGOALIES K < CInt.INT_MAX
}.

(** The counters between two critical sections, after [L] leader branches. *)
Definition settled (K : probConst) (L : Z) (f : FULL_STAT) : Prop :=
  playersFree f + NUMTEAMPLAYERS K * L = NUMPLAYERS K /\
  goaliesFree f + NUMTEAMGOALIES K * L = NUMGOALIES K /\
  0 <= playersFree f /\ 0 <= goaliesFree f.

(** The counters while the holder of the mutex is at label [l]: inside the
    leader branch the decrements lag behind the increment of [teamId]. *)
Definition counts_at (K : probConst) (L : Z) (l : label) (f : FULL_STAT) : Prop :=
  match l with
  | at_field (in_constituteTeam ct_team) =>
      settled K L f /\
      NUMTEAMPLAYERS K <= playersFree f /\ NUMTEAMGOALIES K <= goaliesFree f
  | at_field (in_constituteTeam ct_playersFree) =>
      playersFree f + NUMTEAMPLAYERS K * L = NUMPLAYERS K + NUMTEAMPLAYERS K /\
      goaliesFree f + NUMTEAMGOALIES K * L = NUMGOALIES K + NUMTEAMGOALIES K /\
      NUMTEAMPLAYERS K <= playersFree f /\ NUMTEAMGOALIES K <= goaliesFree f /\ 1 <= L
  | at_field (in_constituteTeam ct_goaliesFree) =>
      playersFree f + NUMTEAMPLAYERS K * L = NUMPLAYERS K /\
      goaliesFree f + NUMTEAMGOALIES K * L = NUMGOALIES K + NUMTEAMGOALIES K /\
      0 <= playersFree f /\ NUMTEAMGOALIES K <= goaliesFree f /\ 1 <= L
  | _ => settled K L f
  end.

Definition counts_local (K : probConst) (L : Z) (l : label) (w : world) : Prop :=
  teamId (fSt w) = 1 + L /\ 0 <= L /\
  (label_in_cs l = true -> counts_at K L l (fSt w)) /\
  (label_in_cs l = false -> semval mutex w = 1%nat -> settled K L (fSt w)).

Definition counts_inv (K : probConst) (tr : list event) (s : system) : Prop :=
  let L := teams_formed tr in
  teamId (fSt (shared s)) = 1 + L /\ 0 <= L /\
  (semval mutex (shared s) = 1%nat -> settled K L (fSt (shared s))) /\
  (forall a l, next_label a s = Some l -> label_in_cs l = true ->
     counts_at K L l (fSt (shared s))).

(** ** Notions the properties are stated with *)

(** The fields of the snapshot are values of type [int]. *)
Definition int_counters (f : FULL_STAT) : Prop :=
  CInt.in_int (playersFree f) /\ CInt.in_int (goaliesFree f) /\ CInt.in_int (teamId f).

(** [f'] differs from [f] at most in the slot [id] of role [r]. *)
Definition only_own_slot (r : role) (id : Z) (f f' : FULL_STAT) : Prop :=
  playersFree f' = playersFree f /\
  goaliesFree f' = goaliesFree f /\
  teamId f' = teamId f /\
  refereeStat (st f') = refereeStat (st f) /\
  (forall r', r' <> r -> slots r' f' = slots r' f) /\
  length (slots r f') = length (slots r f) /\
  (forall j, j <> Z.to_nat id -> slots r f' !! j = slots r f !! j).

(** A record of the log that shows some player or goalie PLAYING, and one
    that shows the referee STARTING_GAME. *)
Definition record_playing (f : FULL_STAT) : Prop :=
  PLAYING ∈ playerStat (st f) \/ PLAYING ∈ goalieStat (st f).

Definition record_starting (f : FULL_STAT) : Prop :=
  refereeStat (st f) = STARTING_GAME.

(** Every record that shows a teammate PLAYING comes strictly after a
    record that shows the referee STARTING_GAME. *)
Definition start_before_play (log : list FULL_STAT) : Prop :=
  forall i f, log !! i = Some f -> record_playing f ->
    exists j g, (j < i)%nat /\ log !! j = Some g /\ record_starting g.

(** The start of the game is in the log. *)
Definition started (w : world) : Prop :=
  exists g, g ∈ logfile w /\ record_starting g.

Definition start_world (w : world) : Prop :=
  (semval playersWaitReferee w <> O -> started w) /\
  (record_playing (fSt w) -> started w) /\
  start_before_play (logfile w).

(** The field processes that have consumed a start signal and are not yet
    past [playUntilEnd], and the positions of the referee after the record
    of [startGame]. *)
Definition past_start_signal (l : field_pc) : bool :=
  match l with
  | in_waitReferee wr_wait => false
  | in_waitReferee _ => true
  | in_playUntilEnd _ => true
  | _ => false
  end.

Definition referee_logged_start (q : Referee.referee_pc) : bool :=
  match q with
  | Referee.in_startGame Referee.sg_up | Referee.in_startGame Referee.sg_notify => true
  | Referee.in_play _ | Referee.in_endGame _ | Referee.exited => true
  | _ => false
  end.

Definition start_label (l : label) (w : world) : Prop :=
  match l with
  | at_field l => past_start_signal l = true -> started w
  | at_referee q =>
      (referee_logged_start q = true -> started w) /\
      (q = Referee.in_startGame Referee.sg_save -> record_starting (fSt w))
  end.

Definition start_inv (s : system) : Prop :=
  start_world (shared s) /\
  forall a l, next_label a s = Some l -> start_label l (shared s).

(** A run of the exact-fit configuration to its end: the referee arrives
    and waits, players 0 and 1 arrive and go through [playerConstituteTeam],
    then the other players and the goalies do, the referee goes through the
    rest of its life cycle, and player 0 through [waitReferee] and
    [playUntilEnd]. *)
Definition full_run : list actor :=
  alone TheReferee 8 ++ alone (Player 0) 12 ++ alone (Player 1) 12 ++
  concat (map (fun i => alone (Player i) 9) (seq 2 6)) ++
  concat (map (fun i => alone (Goalie i) 9) (seq 0 2)) ++
  alone TheReferee 15 ++ alone (Player 0) 10.

(** The referee waits for the teams while player 0 forms team 1 and player
    1 is in the middle of the leader branch for team 2. *)
Definition poll_run : list actor :=
  alone TheReferee 8 ++ alone (Player 0) 12 ++ alone (Player 1) 7.

(** ** The teams of the processes *)

(** Positions at which [team] is still 0, and positions at which it holds
    the id of a team; after the [semUp] of [constituteTeam] either is
    possible. *)
Definition before_team (l : field_pc) : bool :=
  match l with
  | in_arrive _ => true
  | in_constituteTeam ct_down | in_constituteTeam ct_if | in_constituteTeam ct_team
  | in_constituteTeam ct_late | in_constituteTeam ct_save_late => true
  | _ => false
  end.

Definition after_team (l : field_pc) : bool :=
  match l with
  | in_constituteTeam ct_playersFree | in_constituteTeam ct_goaliesFree
  | in_constituteTeam ct_forming | in_constituteTeam ct_save_forming => true
  | in_waitReferee _ | in_playUntilEnd _ => true
  | _ => false
  end.

(** The process took the branch of the late actors. *)
Definition took_late_branch (p : field_proc) : Prop :=
  match pc p with
  | in_constituteTeam ct_late | in_constituteTeam ct_save_late => True
  | in_constituteTeam ct_up | exited => team p = 0
  | _ => False
  end.

(** ... and has written LATE in its slot. *)
Definition wrote_late (p : field_proc) : Prop :=
  match pc p with
  | in_constituteTeam ct_save_late => True
  | in_constituteTeam ct_up | exited => team p = 0
  | _ => False
  end.

Definition not_enough_free (K : probConst) (f : FULL_STAT) : Prop :=
  playersFree f < NUMTEAMPLAYERS K \/ goaliesFree f < NUMTEAMGOALIES K.

Definition team_ok (K : probConst) (L : Z) (r : role) (i : nat) (p : field_proc)
    (f : FULL_STAT) : Prop :=
  0 <= team p <= L /\
  (before_team (pc p) = true -> team p = 0) /\
  (after_team (pc p) = true -> team p <> 0) /\
  (took_late_branch p -> not_enough_free K f) /\
  (wrote_late p -> slots r f !! i = Some LATE).

Definition teams_inv (K : probConst) (tr : list event) (s : system) : Prop :=
  (forall r i p, procs r s !! i = Some p ->
     team_ok K (teams_formed tr) r i p (fSt (shared s))) /\
  (forall r i p r' j q,
     procs r s !! i = Some p -> procs r' s !! j = Some q -> (r, i) <> (r', j) ->
     team p <> 0 -> team p <> team q) /\
  length (players s) = Z.to_nat (NUMPLAYERS K) /\
  length (goalies s) = Z.to_nat (NUMGOALIES K).

(** The process has returned from [constituteTeam]. *)
Definition left_constituteTeam (l : field_pc) : bool :=
  match l with
  | in_waitReferee _ | in_playUntilEnd _ | exited => true
  | _ => false
  end.

Definition all_left_constituteTeam (s : system) : Prop :=
  forall r i p, procs r s !! i = Some p -> left_constituteTeam (pc p) = true.

(** The process [i] of role [r] has left with nothing but LATE in its slot. *)
Definition late_exited (r : role) (i : nat) (s : system) : Prop :=
  exists p, procs r s !! i = Some p /\ pc p = exited /\ team p = 0 /\
    slots r (fSt (shared s)) !! i = Some LATE.

(** The same order on the trace: the [saveState] of the referee in
    [startGame] comes before the [saveState] of any player or goalie in
    [waitReferee] (a trace lists the latest event first). *)
Definition start_logged (tr : list event) : Prop :=
  (TheReferee, at_referee (Referee.in_startGame Referee.sg_save)) ∈ tr.

Definition saves_ordered (tr : list event) : Prop :=
  forall t1 a t2,
    tr = t1 ++ (a, at_field (in_waitReferee wr_save)) :: t2 -> start_logged t2.

Definition start_needed (l : label) : bool :=
  match l with
  | at_field l => past_start_signal l
  | at_referee q => referee_logged_start q
  end.

Definition start_trace_inv (tr : list event) (s : system) : Prop :=
  (semval playersWaitReferee (shared s) <> O -> start_logged tr) /\
  (forall a l, next_label a s = Some l -> start_needed l = true -> start_logged tr) /\
  saves_ordered tr.

(** ** Further notions: shape, progress, life cycles *)

(** The arrays of the snapshot and the tables of processes have the sizes
    of the populations. *)
Definition shape_inv (K : probConst) (s : system) : Prop :=
  length (playerStat (st (fSt (shared s)))) = Z.to_nat (NUMPLAYERS K) /\
  length (goalieStat (st (fSt (shared s)))) = Z.to_nat (NUMGOALIES K) /\
  length (players s) = Z.to_nat (NUMPLAYERS K) /\
  length (goalies s) = Z.to_nat (NUMGOALIES K).

(** The semaphore a statement waits on, when it is a [semDown]. *)
Definition waits_on (l : label) : option semaphore :=
  match l with
  | at_field (in_arrive arrive_down) | at_field (in_constituteTeam ct_down)
  | at_field (in_waitReferee wr_down) | at_field (in_playUntilEnd pe_down) => Some mutex
  | at_field (in_waitReferee wr_wait) => Some playersWaitReferee
  | at_field (in_playUntilEnd pe_wait) => Some playersWaitEnd
  | at_referee (Referee.in_arrive Referee.arrive_down)
  | at_referee (Referee.in_waitForTeams Referee.wt_down)
  | at_referee (Referee.in_startGame Referee.sg_down)
  | at_referee (Referee.in_play Referee.pl_down)
  | at_referee (Referee.in_endGame Referee.eg_down) => Some mutex
  | _ => None
  end.

Definition is_exited (l : label) : bool :=
  match l with
  | at_field exited | at_referee Referee.exited => true
  | _ => false
  end.

(** A process that cannot take a step: it has exited, or its next statement
    is a [semDown] on a semaphore whose value is 0. *)
Definition stuck (l : label) (w : world) : Prop :=
  match waits_on l with
  | Some sem => semval sem w = O
  | None => is_exited l = true
  end.

(** The state a player or goalie has last written in its slot, given where
    it is in its life cycle (the slot starts as ARRIVING). *)
Definition slot_of (p : field_proc) : stat :=
  match pc p with
  | in_arrive _ => ARRIVING
  | in_constituteTeam ct_save_forming => FORMING_TEAM
  | in_constituteTeam ct_save_late => LATE
  | in_constituteTeam ct_up => if team p =? 0 then LATE else FORMING_TEAM
  | in_constituteTeam _ => ARRIVING
  | in_waitReferee wr_save | in_waitReferee wr_up => PLAYING
  | in_waitReferee _ => FORMING_TEAM
  | in_playUntilEnd pe_save | in_playUntilEnd pe_up => ENDING_GAME
  | in_playUntilEnd _ => PLAYING
  | exited => if team p =? 0 then LATE else ENDING_GAME
  end.

(** The state the referee has last written in [refereeStat]. *)
Definition referee_stat_of (q : Referee.referee_pc) : stat :=
  match q with
  | Referee.in_arrive _ => ARRIVINGR
  | Referee.in_waitForTeams Referee.wt_down
  | Referee.in_waitForTeams Referee.wt_set => ARRIVINGR
  | Referee.in_waitForTeams _ => WAITING_TEAMS
  | Referee.in_startGame Referee.sg_down
  | Referee.in_startGame Referee.sg_set => WAITING_TEAMS
  | Referee.in_startGame _ => STARTING_GAME
  | Referee.in_play Referee.pl_down | Referee.in_play Referee.pl_set => STARTING_GAME
  | Referee.in_play _ => REFEREEING
  | Referee.in_endGame Referee.eg_down | Referee.in_endGame Referee.eg_set => REFEREEING
  | Referee.in_endGame _ => ENDING_GAME
  | Referee.exited => ENDING_GAME
  end.

(** The snapshot shows every process where it is. *)
Definition snapshot_inv (s : system) : Prop :=
  refereeStat (st (fSt (shared s))) = referee_stat_of (referee s) /\
  forall r i p, procs r s !! i = Some p ->
    slots r (fSt (shared s)) !! i = Some (slot_of p).

(** The labels at which the holder of the mutex has logged its change. *)
Definition after_save (l : label) : bool :=
  match l with
  | at_field (in_arrive arrive_up) | at_field (in_constituteTeam ct_up)
  | at_field (in_waitReferee wr_up) | at_field (in_playUntilEnd pe_up) => true
  | at_referee (Referee.in_arrive Referee.arrive_up)
  | at_referee (Referee.in_waitForTeams Referee.wt_up)
  | at_referee (Referee.in_startGame Referee.sg_up)
  | at_referee (Referee.in_play Referee.pl_up)
  | at_referee (Referee.in_endGame Referee.eg_up) => true
  | _ => false
  end.

(** The log is up to date: its last record is the snapshot, or nothing was
    logged and the snapshot is the initial one. *)
Definition log_current (K : probConst) (w : world) : Prop :=
  (logfile w = [] /\ fSt w = init_fSt K) \/ last (logfile w) = Some (fSt w).

Definition log_inv (K : probConst) (s : system) : Prop :=
  (semval mutex (shared s) = 1%nat -> log_current K (shared s)) /\
  (forall a l, next_label a s = Some l -> after_save l = true ->
     log_current K (shared s)).


(** ** The signals of the referee *)

(** The player or goalie has taken a start signal: it is past the first
    [semDown] of [waitReferee]; it has taken an end signal: it is past the
    first [semDown] of [playUntilEnd].  A process that has exited with a team
    has taken both. *)
Definition got_start (p : field_proc) : bool :=
  match pc p with
  | in_waitReferee wr_wait => false
  | in_waitReferee _ | in_playUntilEnd _ => true
  | exited => negb (team p =? 0)
  | _ => false
  end.

Definition got_end (p : field_proc) : bool :=
  match pc p with
  | in_playUntilEnd pe_wait => false
  | in_playUntilEnd _ => true
  | exited => negb (team p =? 0)
  | _ => false
  end.

(** The referee has posted [playersWaitReferee] (it is past [startGame]),
    [playersWaitEnd] (it is past [endGame]). *)
Definition start_notified (q : Referee.referee_pc) : bool :=
  match q with
  | Referee.in_play _ | Referee.in_endGame _ | Referee.exited => true
  | _ => false
  end.

Definition end_notified (q : Referee.referee_pc) : bool :=
  match q with
  | Referee.exited => true
  | _ => false
  end.

(** A semaphore that is posted once: it is 0 until the referee has posted
    it, then 1 until one process has taken it, and nobody else gets it. *)
Definition signal_inv (sem : semaphore) (got : field_proc -> bool)
    (notified : Referee.referee_pc -> bool) (s : system) : Prop :=
  (notified (referee s) = false ->
     semval sem (shared s) = O /\
     forall r i p, procs r s !! i = Some p -> got p = false) /\
  (semval sem (shared s) <= 1)%nat /\
  (semval sem (shared s) = 1%nat ->
     forall r i p, procs r s !! i = Some p -> got p = false) /\
  (forall r i p r' j q,
     procs r s !! i = Some p -> procs r' s !! j = Some q ->
     got p = true -> got q = true -> (r, i) = (r', j)).

(** The referee has left the polling loop of [waitForTeams]. *)
Definition past_poll (q : Referee.referee_pc) : bool :=
  match q with
  | Referee.in_startGame _ | Referee.in_play _ | Referee.in_endGame _
  | Referee.exited => true
  | _ => false
  end.

(** Every team formed so far has its leader among the processes. *)
Definition leaders_inv (tr : list event) (s : system) : Prop :=
  forall t, 1 <= t <= teams_formed tr ->
    exists r i p, procs r s !! i = Some p /\ team p = t.

(** ** The records of the log *)

(** The statements that call [saveState]. *)
Definition is_save_label (l : label) : bool :=
  match l with
  | at_field (in_arrive arrive_save)
  | at_field (in_constituteTeam ct_save_forming)
  | at_field (in_constituteTeam ct_save_late)
  | at_field (in_waitReferee wr_save)
  | at_field (in_playUntilEnd pe_save) => true
  | at_referee (Referee.in_arrive Referee.arrive_save)
  | at_referee (Referee.in_waitForTeams Referee.wt_save)
  | at_referee (Referee.in_startGame Referee.sg_save)
  | at_referee (Referee.in_play Referee.pl_save)
  | at_referee (Referee.in_endGame Referee.eg_save) => true
  | _ => false
  end.

Fixpoint saves (tr : list event) : nat :=
  match tr with
  | [] => O
  | e :: tr' => ((if is_save_label e.2 then 1 else 0) + saves tr')%nat
  end.

(** What a record shows of the phases of the game: a player or goalie is
    PLAYING only once the referee is at STARTING_GAME or later, and at
    ENDING_GAME only once the referee is. *)
Definition game_started (v : stat) : bool :=
  match v with
  | STARTING_GAME | REFEREEING | ENDING_GAME => true
  | _ => false
  end.

Definition phases_agree (f : FULL_STAT) : Prop :=
  (forall r i, slots r f !! i = Some PLAYING ->
     game_started (refereeStat (st f)) = true) /\
  (forall r i, slots r f !! i = Some ENDING_GAME ->
     refereeStat (st f) = ENDING_GAME).

(** The slot shows that its process is in the game. *)
Definition in_game (v : stat) : bool :=
  match v with
  | PLAYING | ENDING_GAME => true
  | _ => false
  end.

(** ** The order of the states in time *)

(** The place of a state in the life cycle of its process. *)
Definition stat_rank (v : stat) : nat :=
  match v with
  | ARRIVING | ARRIVINGR => 0
  | LATE | FORMING_TEAM | WAITING_TEAM | WAITING_TEAMS => 1
  | PLAYING | STARTING_GAME => 2
  | REFEREEING => 3
  | ENDING_GAME => 4
  end.

Definition is_late (v : stat) : bool :=
  match v with LATE => true | _ => false end.

(** [stat_le v v']: a slot that shows [v] may show [v'] later.  LATE is
    final and is entered from the first state only. *)
Definition stat_le (v v' : stat) : bool :=
  if is_late v' then is_late v || (stat_rank v =? 0)%nat
  else if is_late v then false
  else (stat_rank v <=? stat_rank v')%nat.

(** [snapshot_le f g]: the snapshot [g] may come after [f]: no slot has gone
    back, the free counters have not grown and [teamId] has not decreased. *)
Definition snapshot_le (f g : FULL_STAT) : Prop :=
  playersFree g <= playersFree f /\
  goaliesFree g <= goaliesFree f /\
  teamId f <= teamId g /\
  stat_le (refereeStat (st f)) (refereeStat (st g)) = true /\
  forall r,
    length (slots r f) = length (slots r g) /\
    forall i v v', slots r f !! i = Some v -> slots r g !! i = Some v' ->
      stat_le v v' = true.

Definition history_inv (w : world) : Prop :=
  (forall f, f ∈ logfile w -> snapshot_le f (fSt w)) /\
  (forall i j f g, (i <= j)%nat ->
     logfile w !! i = Some f -> logfile w !! j = Some g -> snapshot_le f g).

(** ** The length of the runs *)






(** Some slot of the snapshot shows LATE. *)
Definition shows_late (f : FULL_STAT) : Prop :=
  exists r i, slots r f !! i = Some LATE.

(** ** A state with both signals pending *)

(** With [exact_fit]: the referee arrives and waits, players 0 and 1 form
    the two teams, and the referee goes through the rest of its life cycle:
    both signals are posted, the mutex is free, and the slots of players 0
    and 1 show FORMING_TEAM. *)
Definition signals_run : list actor :=
  alone TheReferee 8 ++ alone (Player 0) 12 ++ alone (Player 1) 12 ++
  alone TheReferee 15.

Definition signals_posted : world :=
  from_option shared (shared (init exact_fit))
    (run exact_fit signals_run (init exact_fit)).
(** * Properties *)

(** ** Arithmetic of C integers *)

Module CIntFacts.
Import CInt.

Lemma to_int_id x : in_int x -> to_int x = x.
Proof.
  unfold in_int, to_int, INT_MIN, INT_MAX. intros Hx.
  destruct (Z_lt_le_dec x 0) as [Hneg|Hpos].
  - assert (H1 : x mod 4294967296 = x + 4294967296).
    { symmetry. apply (Z.mod_unique_pos _ _ (-1)); lia. }
    rewrite H1. destruct (Z.ltb_spec (x + 4294967296) 2147483648); lia.
  - rewrite Z.mod_small by lia.
    destruct (Z.ltb_spec x 2147483648); lia.
Qed.

Lemma to_int_to_uint x : to_int (to_uint x) = to_int x.
Proof. unfold to_int, to_uint. now rewrite Z.mod_mod. Qed.

Lemma add_exact x y : in_int (x + y) -> add x y = x + y.
Proof. apply to_int_id. Qed.

Lemma sub_exact x y : in_int (x - y) -> sub x y = x - y.
Proof. apply to_int_id. Qed.

End CIntFacts.

(** ** Steps of one process and what they leave alone *)

Lemma actor_cases a : (exists r i, a = field_actor r i) \/ a = TheReferee.
Proof.
  destruct a as [i|i|]; [left; by exists PlayerRole, i|left; by exists GoalieRole, i|by right].
Qed.

Lemma field_actor_inj r i r' i' : field_actor r i = field_actor r' i' -> r = r' /\ i = i'.
Proof. destruct r, r'; simpl; intros; by simplify_eq. Qed.

Lemma next_label_field r i s :
  next_label (field_actor r i) s = at_field ∘ pc <$> procs r s !! i.
Proof. by destruct r. Qed.

Lemma step_field K r i s s' :
  step K (field_actor r i) s = Some s' ->
  exists p p',
    procs r s !! i = Some p /\
    field_main K r (Z.of_nat i) p (shared s) = Some (p', shared s') /\
    procs r s' = <[i := p']> (procs r s) /\
    (forall r', r' <> r -> procs r' s' = procs r' s) /\
    referee s' = referee s.
Proof.
  destruct r; simpl; intros H.
  - destruct (players s !! i) as [p|] eqn:Hp; simpl in H; [|done].
    destruct (field_main K PlayerRole (Z.of_nat i) p (shared s)) as [[p' w']|] eqn:Hm;
      simpl in H; [|done].
    simplify_eq. exists p, p'. simpl. repeat split; auto. by intros [].
  - destruct (goalies s !! i) as [p|] eqn:Hp; simpl in H; [|done].
    destruct (field_main K GoalieRole (Z.of_nat i) p (shared s)) as [[p' w']|] eqn:Hm;
      simpl in H; [|done].
    simplify_eq. exists p, p'. simpl. repeat split; auto. by intros [].
Qed.

Lemma step_referee K s s' :
  step K TheReferee s = Some s' ->
  Referee.referee_main (referee s) (shared s) = Some (referee s', shared s') /\
  forall r, procs r s' = procs r s.
Proof.
  simpl. intros H.
  destruct (Referee.referee_main (referee s) (shared s)) as [[q' w']|] eqn:Hm;
    simpl in H; [|done].
  simplify_eq. split; [done|]. by intros [].
Qed.

(** The processes that do not take the step keep their position. *)
Lemma procs_after_field_step K r i s s' r' j q :
  step K (field_actor r i) s = Some s' ->
  procs r' s' !! j = Some q ->
  (r' = r /\ j = i /\ exists p, procs r s !! i = Some p /\
     field_main K r (Z.of_nat i) p (shared s) = Some (q, shared s')) \/
  ((r', j) <> (r, i) /\ procs r' s !! j = Some q).
Proof.
  intros Hs Hq. destruct (step_field _ _ _ _ _ Hs) as (p & p' & Hp & Hm & Hpr & Hoth & _).
  destruct (decide (r' = r)) as [->|Hr].
  - rewrite Hpr in Hq. destruct (decide (j = i)) as [->|Hj].
    + rewrite list_lookup_insert_eq in Hq by (by eapply lookup_lt_Some).
      simplify_eq. left. eauto.
    + rewrite list_lookup_insert_ne in Hq by done. right. split; [congruence|done].
  - rewrite Hoth in Hq by done. right. split; [congruence|done].
Qed.

Lemma next_label_other K a b s s' :
  step K a s = Some s' -> b <> a -> next_label b s' = next_label b s.
Proof.
  intros Hs Hne. destruct (actor_cases a) as [(r & i & ->)| ->].
  - destruct (step_field _ _ _ _ _ Hs) as (p & p' & Hp & Hm & Hpr & Hoth & Hrf).
    destruct (actor_cases b) as [(r' & j & ->)| ->].
    + rewrite !next_label_field. destruct (decide (r' = r)) as [->|Hr].
      * rewrite Hpr, list_lookup_insert_ne; [done|]. congruence.
      * by rewrite Hoth.
    + simpl. by rewrite Hrf.
  - destruct (step_referee _ _ _ Hs) as [Hm Hpr].
    destruct (actor_cases b) as [(r' & j & ->)| ->]; [|done].
    by rewrite !next_label_field, Hpr.
Qed.

Lemma run_reach K sched : forall s0 tr s s',
  reach K s0 tr s -> run K sched s = Some s' ->
  reach K s0 (trace K sched s tr) s'.
Proof.
  induction sched as [|a rest IH]; simpl; intros s0 tr s s' Hr Hrun.
  - by simplify_eq.
  - destruct (step K a s) as [s1|] eqn:Hs; simpl in Hrun; [|done].
    destruct (next_label a s) as [l|] eqn:Hl.
    + eapply IH; [|done]. by eapply reach_step.
    + exfalso. destruct a; simpl in *.
      * destruct (players s !! id); simpl in *; done.
      * destruct (goalies s !! id); simpl in *; done.
      * done.
Qed.

(** ** The mutex is taken and released in pairs *)

(** Case analysis of one statement of a field process or of the referee:
    every label, every blocking or undefined primitive. *)
Ltac step_cases H :=
  match type of H with
  | field_main _ _ _ ?p _ = _ => destruct p as [[[]|[]|[]|[]|] ?]
  | Referee.referee_main ?q _ = _ => destruct q as [[]|[]|[]|[]|[]|]
  end;
  cbn [field_main Referee.referee_main pc team arrive constituteTeam waitReferee
       playUntilEnd Referee.arrive Referee.waitForTeams Referee.startGame
       Referee.play Referee.endGame mbind option_bind from_option] in H;
  repeat match type of H with
  | context [semDown ?s ?w] =>
      let E := fresh "Hdown" in
      destruct (semDown s w) eqn:E; cbn [mbind option_bind] in H
  | context [set_stat ?r ?i ?v ?w] =>
      let E := fresh "Hset" in
      destruct (set_stat r i v w) eqn:E; cbn [mbind option_bind] in H
  | context [enough_free ?K ?f] =>
      let E := fresh "Hfree" in destruct (enough_free K f) eqn:E
  | context [teamId ?f <? 3] =>
      let E := fresh "Hpoll" in destruct (teamId f <? 3) eqn:E
  | context [?t =? 0] =>
      let E := fresh "Hteam" in destruct (t =? 0) eqn:E
  end;
  try discriminate H;
  try (injection H as <- <-).

Lemma semDown_inv s w w' :
  semDown s w = Some w' ->
  semval s w = S (semval s w') /\ fSt w' = fSt w /\ logfile w' = logfile w /\
  forall s', s' <> s -> semval s' w' = semval s' w.
Proof.
  unfold semDown. destruct (semval s w) as [|n] eqn:Hv; [done|].
  intros [= <-]. destruct s; simpl in *; repeat split; try done;
    by intros [] ?.
Qed.

Lemma semUp_inv s w :
  semval s (semUp s w) = S (semval s w) /\ fSt (semUp s w) = fSt w /\
  logfile (semUp s w) = logfile w /\
  forall s', s' <> s -> semval s' (semUp s w) = semval s' w.
Proof. destruct s; simpl; repeat split; try done; by intros [] ?. Qed.

Lemma set_stat_inv r id v w w' :
  set_stat r id v w = Some w' ->
  sems w' = sems w /\ logfile w' = logfile w /\
  playersFree (fSt w') = playersFree (fSt w) /\
  goaliesFree (fSt w') = goaliesFree (fSt w) /\
  teamId (fSt w') = teamId (fSt w) /\
  refereeStat (st (fSt w')) = refereeStat (st (fSt w)) /\
  0 <= id < Z.of_nat (length (slots r (fSt w))) /\
  slots r (fSt w') = <[Z.to_nat id := v]> (slots r (fSt w)) /\
  forall r', r' <> r -> slots r' (fSt w') = slots r' (fSt w).
Proof.
  unfold set_stat, store. destruct r; simpl;
    match goal with |- context [if ?c then _ else _] => destruct c eqn:Hc end;
    simpl; intros [= <-]; simpl; (repeat split; try done; try lia); by intros [] ?.
Qed.

Lemma field_main_mutex K r id p w p' w' :
  field_main K r id p w = Some (p', w') ->
  (in_cs (pc p) = false /\ in_cs (pc p') = true /\
     semval mutex w = S (semval mutex w') /\ fSt w' = fSt w /\ logfile w' = logfile w) \/
  (in_cs (pc p) = true /\ in_cs (pc p') = true /\ semval mutex w' = semval mutex w) \/
  (in_cs (pc p) = true /\ in_cs (pc p') = false /\
     semval mutex w' = S (semval mutex w) /\ fSt w' = fSt w /\ logfile w' = logfile w) \/
  (in_cs (pc p) = false /\ in_cs (pc p') = false /\
     semval mutex w' = semval mutex w /\ fSt w' = fSt w /\ logfile w' = logfile w).
Proof.
  intros H. step_cases H; simpl;
    repeat match goal with
    | H : semDown _ _ = Some _ |- _ => apply semDown_inv in H; destruct H as (? & ? & ? & ?)
    | H : set_stat _ _ _ _ = Some _ |- _ => apply set_stat_inv in H; destruct H as (? & ? & ?)
    end;
    first [ left; by repeat split
          | right; left; repeat split; solve [done | unfold semval; congruence]
          | right; right; left; by repeat split
          | right; right; right; repeat split;
            solve [done | match goal with
                          | H : forall s', s' <> _ -> _ |- _ => by apply (H mutex)
                          end] ].
Qed.

Lemma referee_main_mutex q w q' w' :
  Referee.referee_main q w = Some (q', w') ->
  (referee_in_cs q = false /\ referee_in_cs q' = true /\
     semval mutex w = S (semval mutex w') /\ fSt w' = fSt w /\ logfile w' = logfile w) \/
  (referee_in_cs q = true /\ referee_in_cs q' = true /\ semval mutex w' = semval mutex w) \/
  (referee_in_cs q = true /\ referee_in_cs q' = false /\
     semval mutex w' = S (semval mutex w) /\ fSt w' = fSt w /\ logfile w' = logfile w) \/
  (referee_in_cs q = false /\ referee_in_cs q' = false /\
     semval mutex w' = semval mutex w /\ fSt w' = fSt w /\ logfile w' = logfile w).
Proof.
  intros H. step_cases H; simpl;
    repeat match goal with
    | H : semDown _ _ = Some _ |- _ => apply semDown_inv in H; destruct H as (? & ? & ? & ?)
    end;
    first [ left; by repeat split
          | right; left; repeat split; solve [done | unfold semval; congruence]
          | right; right; left; by repeat split
          | right; right; right; repeat split;
            solve [done | match goal with
                          | H : forall s', s' <> _ -> _ |- _ => by apply (H mutex)
                          end] ].
Qed.

Lemma step_mutex K a s s' :
  step K a s = Some s' ->
  exists l l', next_label a s = Some l /\ next_label a s' = Some l' /\
    mutex_move (shared s) (shared s') (label_in_cs l) (label_in_cs l').
Proof.
  intros Hs. destruct (actor_cases a) as [(r & i & ->)| ->].
  - destruct (step_field _ _ _ _ _ Hs) as (p & p' & Hp & Hm & Hpr & _).
    exists (at_field (pc p)), (at_field (pc p')). rewrite !next_label_field, Hpr, Hp.
    rewrite list_lookup_insert_eq by (by eapply lookup_lt_Some).
    do 2 (split; [done|]). simpl.
    destruct (field_main_mutex _ _ _ _ _ _ _ Hm)
      as [(-> & -> & ?)|[(-> & -> & ?)|[(-> & -> & ?)|(-> & -> & ?)]]];
      constructor; tauto.
  - destruct (step_referee _ _ _ Hs) as [Hm _].
    exists (at_referee (referee s)), (at_referee (referee s')). do 2 (split; [done|]). simpl.
    destruct (referee_main_mutex _ _ _ _ Hm)
      as [(-> & -> & ?)|[(-> & -> & ?)|[(-> & -> & ?)|(-> & -> & ?)]]];
      constructor; tauto.
Qed.


Lemma holds_mutex_after K a b s s' :
  step K a s = Some s' -> b <> a -> holds_mutex b s' <-> holds_mutex b s.
Proof. intros Hs Hne. unfold holds_mutex. by rewrite (next_label_other _ _ _ _ _ Hs Hne). Qed.

Lemma init_label K a l :
  next_label a (init K) = Some l -> label_in_cs l = false.
Proof.
  destruct a as [i|i|]; simpl.
  - destruct (replicate _ _ !! i) as [p|] eqn:Hp; simpl; [|done].
    apply lookup_replicate in Hp as [-> _]. by intros [= <-].
  - destruct (replicate _ _ !! i) as [p|] eqn:Hp; simpl; [|done].
    apply lookup_replicate in Hp as [-> _]. by intros [= <-].
  - by intros [= <-].
Qed.

Lemma mutex_inv_init K : mutex_inv (init K).
Proof.
  split; [simpl; lia|]. split; [|split].
  - intros a (l & Hl & Hcs). apply init_label in Hl. congruence.
  - intros a b (l & Hl & Hcs). apply init_label in Hl. congruence.
  - simpl. lia.
Qed.

Lemma mutex_inv_step K a s s' :
  mutex_inv s -> step K a s = Some s' -> mutex_inv s'.
Proof.
  intros (Hle & Hheld & Huniq & Hsome) Hs.
  destruct (step_mutex _ _ _ _ Hs) as (l & l' & Hl & Hl' & Hmove).
  assert (Hother : forall b, holds_mutex b s' -> b = a \/ holds_mutex b s).
  { intros b Hb. destruct (decide (b = a)) as [->|Hne]; [by left|right].
    by apply (holds_mutex_after _ _ _ _ _ Hs Hne). }
  assert (Ha : label_in_cs l = true -> holds_mutex a s) by (intros; by exists l).
  assert (Ha' : holds_mutex a s' -> label_in_cs l' = true).
  { intros (l2 & Hl2 & Hcs). congruence. }
  inversion Hmove as [Hm Hf Hg Hc Hc'|Hm Hc Hc'|Hm Hf Hg Hc Hc'|Hm Hf Hg Hc Hc'];
    symmetry in Hc, Hc'.
  - (* acquire *)
    assert (Hnone : forall b, ~ holds_mutex b s).
    { intros b Hb. apply Hheld in Hb. lia. }
    split; [lia|]. split; [|split].
    + intros b Hb. lia.
    + intros b c Hb Hc2. destruct (Hother b Hb) as [->|Hb']; [|by destruct (Hnone b)].
      destruct (Hother c Hc2) as [->|Hc3]; [done|by destruct (Hnone c)].
    + intros _. exists a, l'. by split.
  - (* inside *)
    specialize (Ha Hc). split; [lia|]. split; [|split].
    + intros b Hb. rewrite Hm. by apply (Hheld a).
    + intros b c Hb Hc2.
      assert (b = a) as -> by (destruct (Hother b Hb); [done|by apply Huniq]).
      destruct (Hother c Hc2); [done|by apply Huniq].
    + intros _. exists a, l'. by split.
  - (* release *)
    specialize (Ha Hc). pose proof (Hheld a Ha) as H0.
    assert (Hnone : forall b, ~ holds_mutex b s').
    { intros b Hb. destruct (Hother b Hb) as [->|Hb'].
      - apply Ha' in Hb. congruence.
      - assert (b = a) as -> by (by apply Huniq).
        destruct (decide (a = a)) as [_|]; [|done].
        destruct Hb as (l2 & Hl2 & Hcs). congruence. }
    split; [lia|]. split; [|split].
    + intros b Hb. by destruct (Hnone b).
    + intros b c Hb. by destruct (Hnone b).
    + lia.
  - (* outside *)
    assert (Hold : forall b, holds_mutex b s' -> holds_mutex b s).
    { intros b Hb. destruct (Hother b Hb) as [->|]; [|done].
      apply Ha' in Hb. congruence. }
    split; [lia|]. split; [|split].
    + intros b Hb. rewrite Hm. apply (Hheld b). auto.
    + intros b c Hb Hc2. apply Huniq; auto.
    + rewrite Hm. intros H0. destruct (Hsome H0) as (b & Hb). exists b.
      assert (b <> a).
      { intros ->. destruct Hb as (l2 & Hl2 & Hcs). congruence. }
      by apply (holds_mutex_after _ _ _ _ _ Hs).
Qed.

Lemma mutex_inv_reach K tr s : reachable K tr s -> mutex_inv s.
Proof.
  induction 1 as [|tr s a l s' _ IH _ Hs]; [apply mutex_inv_init|].
  by eapply mutex_inv_step.
Qed.

(** ** The counters and the number of teams *)

Lemma enough_free_true K f :
  enough_free K f = true ->
  NUMTEAMPLAYERS K <= playersFree f /\ NUMTEAMGOALIES K <= goaliesFree f.
Proof. unfold enough_free. rewrite andb_true_iff, !Z.leb_le. tauto. Qed.

Lemma enough_free_false K f :
  enough_free K f = false ->
  playersFree f < NUMTEAMPLAYERS K \/ goaliesFree f < NUMTEAMGOALIES K.
Proof. unfold enough_free. rewrite andb_false_iff, !Z.leb_gt. tauto. Qed.

Ltac world_facts :=
  repeat match goal with
  | H : semDown _ _ = Some _ |- _ =>
      apply semDown_inv in H; destruct H as (? & ? & ? & ?)
  | H : set_stat _ _ _ _ = Some _ |- _ =>
      apply set_stat_inv in H; destruct H as (? & ? & ? & ? & ? & ? & ? & ? & ?)
  | H : enough_free _ _ = true |- _ => apply enough_free_true in H; destruct H
  | H : enough_free _ _ = false |- _ => apply enough_free_false in H
  end.

Ltac use_fSt_eq :=
  repeat match goal with
  | H : fSt ?a = fSt ?b |- _ => rewrite H; clear H
  | H : forall s', s' <> ?s -> semval s' _ = semval s' _ |- _ =>
      let H' := fresh in
      try (assert (H' := H mutex ltac:(done)); simpl in H'); clear H
  end.

Lemma field_main_counts K r id p w p' w' L :
  consts_ok K ->
  field_main K r id p w = Some (p', w') ->
  (semval mutex w <= 1)%nat ->
  counts_local K L (at_field (pc p)) w ->
  let L' := (if is_leader_label (at_field (pc p)) then 1 else 0) + L in
  counts_local K L' (at_field (pc p')) w' /\
  (in_cs (pc p) = false -> fSt w' = fSt w /\ L' = L).
Proof.
  intros [HP HG HNP HNG] H Hle (Hid & HL & Hin & Hout).
  unfold counts_local, CInt.INT_MAX in *.
  step_cases H; world_facts; simpl in *;
    try (specialize (Hin eq_refl)); try (specialize (Hout eq_refl));
    unfold counts_at, settled in *.
  all: (split; [split; [|split; [lia|split; [intros Hcs'|intros Hcs' Hmx]]]
               |intros Hcs']); try discriminate.
  all: use_fSt_eq; try (split; [done|]); try first [lia | apply Hout; lia].
  - (* team = teamId++ *)
    rewrite CIntFacts.add_exact; [lia|].
    unfold CInt.in_int, CInt.INT_MIN, CInt.INT_MAX. nia.
  - (* playersFree -= NUMTEAMPLAYERS *)
    rewrite CIntFacts.sub_exact; [lia|].
    unfold CInt.in_int, CInt.INT_MIN, CInt.INT_MAX. nia.
  - (* goaliesFree -= NUMTEAMGOALIES *)
    simpl. rewrite CIntFacts.sub_exact; [lia|].
    unfold CInt.in_int, CInt.INT_MIN, CInt.INT_MAX. nia.
Qed.

Lemma referee_main_counts K q w q' w' L :
  Referee.referee_main q w = Some (q', w') ->
  (semval mutex w <= 1)%nat ->
  counts_local K L (at_referee q) w ->
  counts_local K L (at_referee q') w' /\
  (referee_in_cs q = false -> fSt w' = fSt w).
Proof.
  intros H Hle (Hid & HL & Hin & Hout). unfold counts_local in *.
  step_cases H; world_facts; simpl in *;
    try (specialize (Hin eq_refl)); try (specialize (Hout eq_refl));
    unfold counts_at, settled in *.
  all: (split; [split; [|split; [lia|split; [intros Hcs'|intros Hcs' Hmx]]]
               |intros Hcs']); try discriminate.
  all: use_fSt_eq; try done; try first [lia | apply Hout; lia].
Qed.

Lemma step_counts K a s s' l L :
  consts_ok K ->
  step K a s = Some s' -> next_label a s = Some l ->
  (semval mutex (shared s) <= 1)%nat ->
  counts_local K L l (shared s) ->
  let L' := (if is_leader_label l then 1 else 0) + L in
  exists l', next_label a s' = Some l' /\
    counts_local K L' l' (shared s') /\
    (label_in_cs l = false -> fSt (shared s') = fSt (shared s) /\ L' = L).
Proof.
  intros HK Hs Hl Hle Hloc. destruct (actor_cases a) as [(r & i & ->)| ->].
  - destruct (step_field _ _ _ _ _ Hs) as (p & p' & Hp & Hm & Hpr & _).
    rewrite next_label_field, Hp in Hl. simpl in Hl. injection Hl as <-.
    exists (at_field (pc p')). rewrite next_label_field, Hpr.
    rewrite list_lookup_insert_eq by (by eapply lookup_lt_Some).
    split; [done|]. by apply (field_main_counts K r (Z.of_nat i) p _ p').
  - destruct (step_referee _ _ _ Hs) as [Hm _].
    simpl in Hl. injection Hl as <-.
    exists (at_referee (referee s')). split; [done|].
    destruct (referee_main_counts K _ _ _ _ L Hm Hle Hloc) as [H1 H2].
    simpl. split; [done|]. intros Hcs. split; [auto|lia].
Qed.

Lemma counts_inv_init K : consts_ok K -> counts_inv K [] (init K).
Proof.
  intros [HP HG HNP HNG]. unfold counts_inv, settled. simpl.
  split; [done|]. split; [done|]. split; [lia|].
  intros a l Hl Hcs. apply init_label in Hl. congruence.
Qed.

Lemma counts_inv_step K tr a l s s' :
  consts_ok K -> mutex_inv s -> mutex_inv s' ->
  counts_inv K tr s ->
  next_label a s = Some l -> step K a s = Some s' ->
  counts_inv K ((a, l) :: tr) s'.
Proof.
  intros HK (Hle & Hheld & Huniq & _) (Hle' & Hheld' & Huniq' & _)
    (Hid & HL & Hfree & Hcs) Hl Hs.
  assert (Hloc : counts_local K (teams_formed tr) l (shared s)).
  { split; [done|]. split; [done|]. split; [|by intros _].
    intros Hc. by apply (Hcs a). }
  destruct (step_counts K a s s' l _ HK Hs Hl Hle Hloc)
    as (l' & Hl' & (Hid' & HL' & Hin' & Hout') & Hframe).
  unfold counts_inv.
  change (teams_formed ((a, l) :: tr))
    with ((if is_leader_label l then 1 else 0) + teams_formed tr).
  split; [done|]. split; [done|]. split.
  - intros Hm. destruct (label_in_cs l') eqn:Hc'; [|by apply Hout'].
    assert (semval mutex (shared s') = O) by (apply (Hheld' a); by exists l').
    lia.
  - intros b lb Hb Hcb. destruct (decide (b = a)) as [->|Hne].
    { assert (lb = l') as -> by congruence. by apply Hin'. }
    rewrite (next_label_other _ _ _ _ _ Hs Hne) in Hb.
    assert (Hbh : holds_mutex b s) by (by exists lb).
    destruct (label_in_cs l) eqn:Hc.
    { exfalso. apply Hne. apply Huniq; [done|by exists l]. }
    destruct (Hframe eq_refl) as [Hf HLeq]. rewrite Hf, HLeq. by apply (Hcs b).
Qed.

Lemma counts_inv_reach K tr s :
  consts_ok K -> reachable K tr s -> counts_inv K tr s.
Proof.
  intros HK. induction 1 as [|tr s a l s' Hr IH Hl Hs]; [by apply counts_inv_init|].
  eapply counts_inv_step; eauto.
  - by eapply mutex_inv_reach.
  - eapply mutex_inv_step; [|done]. by eapply mutex_inv_reach.
Qed.

(** Whatever the holder of the mutex is doing, the teams formed so far fit
    in the populations. *)
Lemma teams_fit K tr s :
  consts_ok K -> reachable K tr s ->
  NUMTEAMPLAYERS K * teams_formed tr <= NUMPLAYERS K /\
  NUMTEAMGOALIES K * teams_formed tr <= NUMGOALIES K.
Proof.
  intros HK Hr. pose proof (mutex_inv_reach _ _ _ Hr) as (Hle & _ & _ & Hsome).
  pose proof (counts_inv_reach _ _ _ HK Hr) as (Hid & HL & Hfree & Hcs).
  destruct (semval mutex (shared s)) as [|n] eqn:Hm.
  - destruct (Hsome eq_refl) as (a & l & Hl & Hc).
    specialize (Hcs a l Hl Hc). unfold counts_at, settled in Hcs.
    destruct l as [[|[]| | |]|]; lia.
  - assert (n = O) as -> by lia. specialize (Hfree eq_refl).
    unfold settled in Hfree. lia.
Qed.

(** ** One call of a function *)

Lemma call_ind_rel {L S : Type} (f : L -> S -> option (option L * S)) (R : S -> S -> Prop) :
  (forall s, R s s) ->
  (forall s1 s2 s3, R s1 s2 -> R s2 s3 -> R s1 s3) ->
  (forall l s next s', f l s = Some (next, s') -> R s s') ->
  forall fuel l s s', call f fuel l s = Some s' -> R s s'.
Proof.
  intros Hrefl Htrans Hstep. induction fuel as [|n IH]; intros l s s' H; [done|].
  simpl in H. destruct (f l s) as [[next s1]|] eqn:Hf; simpl in H; [|done].
  destruct next as [l'|].
  - eapply Htrans; [by eapply Hstep|by eapply IH].
  - injection H as <-. by eapply Hstep.
Qed.

Lemma only_own_slot_refl r id f : only_own_slot r id f f.
Proof. by repeat split. Qed.

Lemma only_own_slot_trans r id f1 f2 f3 :
  only_own_slot r id f1 f2 -> only_own_slot r id f2 f3 -> only_own_slot r id f1 f3.
Proof.
  intros (? & ? & ? & ? & Ha & ? & Ha') (? & ? & ? & ? & Hb & ? & Hb').
  repeat split; try congruence.
  - intros r' Hr. by rewrite Hb, Ha.
  - intros j Hj. by rewrite Hb', Ha'.
Qed.

Lemma set_stat_only_own_slot r id v w w' :
  set_stat r id v w = Some w' -> only_own_slot r id (fSt w) (fSt w').
Proof.
  intros H. apply set_stat_inv in H as (_ & _ & ? & ? & ? & ? & ? & Hs & ?).
  repeat split; try done.
  - rewrite Hs. apply length_insert.
  - intros j Hj. rewrite Hs. by apply list_lookup_insert_ne.
Qed.

Ltac own_slot_step H :=
  simpl in H;
  repeat match type of H with
  | context [semDown ?s ?w] =>
      let E := fresh "Hdown" in
      destruct (semDown s w) eqn:E; cbn [mbind option_bind] in H
  | context [set_stat ?r ?i ?v ?w] =>
      let E := fresh "Hset" in
      destruct (set_stat r i v w) eqn:E; cbn [mbind option_bind] in H
  end;
  try discriminate H; injection H as <- <-;
  repeat match goal with
  | H : semDown _ _ = Some _ |- _ => apply semDown_inv in H; destruct H as (? & -> & ? & ?)
  end;
  first [ by eapply set_stat_only_own_slot | apply only_own_slot_refl ].

Lemma arrive_only_own_slot r id l w next w' :
  arrive r id l w = Some (next, w') -> only_own_slot r id (fSt w) (fSt w').
Proof. intros H. destruct l; own_slot_step H. Qed.

Lemma waitReferee_only_own_slot r id l w next w' :
  waitReferee r id l w = Some (next, w') -> only_own_slot r id (fSt w) (fSt w').
Proof. intros H. destruct l; own_slot_step H. Qed.

Lemma playUntilEnd_only_own_slot r id l w next w' :
  playUntilEnd r id l w = Some (next, w') -> only_own_slot r id (fSt w) (fSt w').
Proof. intros H. destruct l; own_slot_step H. Qed.

Lemma set_stat_defined r id v w :
  0 <= id < Z.of_nat (length (slots r (fSt w))) ->
  exists w', set_stat r id v w = Some w' /\
    slots r (fSt w') !! Z.to_nat id = Some v.
Proof.
  intros Hid. destruct (set_stat r id v w) as [w'|] eqn:H.
  - exists w'. split; [done|].
    apply set_stat_inv in H as (_ & _ & _ & _ & _ & _ & _ & -> & _).
    apply list_lookup_insert_eq. lia.
  - exfalso. unfold set_stat, store in H.
    destruct r; simpl in *;
      (destruct (0 <=? id) eqn:H0; [|lia]);
      (destruct (id <? _) eqn:H1; [|lia]); done.
Qed.

(** The leader branch, from the test of the critical section to the return. *)
Lemma leader_branch_call K r id t w :
  enough_free K (fSt w) = true ->
  0 <= id < Z.of_nat (length (slots r (fSt w))) ->
  exists w',
    call (constituteTeam_body K r id) 7 ct_if (t, w) = Some (teamId (fSt w), w') /\
    teamId (fSt w') = CInt.add (teamId (fSt w)) 1 /\
    playersFree (fSt w') = CInt.sub (playersFree (fSt w)) (NUMTEAMPLAYERS K) /\
    goaliesFree (fSt w') = CInt.sub (goaliesFree (fSt w)) (NUMTEAMGOALIES K) /\
    slots r (fSt w') !! Z.to_nat id = Some FORMING_TEAM /\
    semval mutex w' = S (semval mutex w).
Proof.
  intros Hfree Hid.
  set (w3 := set_goaliesFree (CInt.sub (goaliesFree (fSt w)) (NUMTEAMGOALIES K))
               (set_playersFree (CInt.sub (playersFree (fSt w)) (NUMTEAMPLAYERS K))
                  (set_teamId (CInt.add (teamId (fSt w)) 1) w))).
  destruct (set_stat_defined r id FORMING_TEAM w3) as (w4 & Hset & Hslot).
  { by destruct r. }
  exists (semUp mutex (saveState w4)).
  apply set_stat_inv in Hset as Hfacts.
  destruct Hfacts as (Hsems & _ & HpF & HgF & HtI & _).
  split.
  - unfold call, constituteTeam_body. cbn [constituteTeam fst snd mbind option_bind].
    rewrite Hfree. cbn [constituteTeam fst snd mbind option_bind].
    match goal with
    | |- context [set_stat r id FORMING_TEAM ?x] => change x with w3
    end.
    rewrite Hset. done.
  - simpl. rewrite HtI, HpF, HgF, Hsems. by repeat split.
Qed.

(** The other branch: what the code does when the test fails. *)
Lemma late_branch_call K r id t w :
  enough_free K (fSt w) = false ->
  0 <= id < Z.of_nat (length (slots r (fSt w))) ->
  exists w',
    call (constituteTeam_body K r id) 4 ct_if (t, w) = Some (t, w') /\
    only_own_slot r id (fSt w) (fSt w') /\
    slots r (fSt w') !! Z.to_nat id = Some LATE /\
    semval mutex w' = S (semval mutex w) /\
    semval playersWaitReferee w' = semval playersWaitReferee w /\
    semval playersWaitEnd w' = semval playersWaitEnd w.
Proof.
  intros Hfree Hid.
  destruct (set_stat_defined r id LATE w Hid) as (w1 & Hset & Hslot).
  exists (semUp mutex (saveState w1)).
  pose proof (set_stat_only_own_slot _ _ _ _ _ Hset) as Hown.
  apply set_stat_inv in Hset as Hfacts. destruct Hfacts as (Hsems & _).
  split.
  - unfold call, constituteTeam_body. cbn [constituteTeam fst snd mbind option_bind].
    rewrite Hfree. cbn [constituteTeam fst snd mbind option_bind].
    rewrite Hset. done.
  - simpl. rewrite Hsems. auto.
Qed.

Lemma reachable_run K sched s :
  run K sched (init K) = Some s -> reachable K (trace K sched (init K) []) s.
Proof. apply run_reach. constructor. Qed.

Lemma exact_fit_ok : consts_ok exact_fit.
Proof. by split. Qed.

Lemma with_surplus_ok : consts_ok with_surplus.
Proof. by split. Qed.

(** ** The start of the game precedes the play *)

Lemma started_saveState w : started w -> started (saveState w).
Proof. intros (g & Hg & Hs). exists g. split; [|done]. simpl. apply elem_of_app. by left. Qed.

Lemma started_saveState_now w : record_starting (fSt w) -> started (saveState w).
Proof.
  intros Hs. exists (fSt w). split; [|done]. simpl. apply elem_of_app. right.
  by apply list_elem_of_singleton.
Qed.

Lemma started_transfer w w' : logfile w' = logfile w -> started w -> started w'.
Proof. unfold started. by intros ->. Qed.

Lemma start_world_saveState w : start_world w -> start_world (saveState w).
Proof.
  intros (Hsem & Hplay & Hlog). split; [|split].
  - intros H. apply started_saveState. by apply Hsem.
  - intros H. apply started_saveState. by apply Hplay.
  - intros i f Hi Hf. simpl in Hi. apply lookup_snoc_Some in Hi as [[Hlt Hi]|[-> <-]].
    + destruct (Hlog i f Hi Hf) as (j & g & Hj & Hg & Hs).
      exists j, g. split; [done|]. split; [|done]. simpl.
      apply lookup_app_Some. by left.
    + destruct (Hplay Hf) as (g & Hg & Hs).
      apply list_elem_of_lookup_1 in Hg as [j Hj].
      exists j, g. split; [by eapply lookup_lt_Some|]. split; [|done]. simpl.
      apply lookup_app_Some. by left.
Qed.

Lemma start_world_transfer w w' :
  semval playersWaitReferee w' = semval playersWaitReferee w ->
  logfile w' = logfile w ->
  (record_playing (fSt w') -> record_playing (fSt w) \/ started w) ->
  start_world w -> start_world w'.
Proof.
  intros Hv Hl Hp (Hsem & Hplay & Hlog). split; [|split].
  - rewrite Hv. intros H. apply (started_transfer w); auto.
  - intros H. apply (started_transfer w); [done|]. destruct (Hp H); auto.
  - by rewrite Hl.
Qed.

Lemma start_world_started w w' :
  logfile w' = logfile w -> started w -> start_world w -> start_world w'.
Proof.
  intros Hl Hs (_ & _ & Hlog). pose proof (started_transfer w w' Hl Hs).
  split; [done|]. split; [done|]. by rewrite Hl.
Qed.

Lemma elem_of_insert_inv (l : list stat) i v x :
  x ∈ <[i := v]> l -> x = v \/ x ∈ l.
Proof.
  intros H. apply list_elem_of_lookup_1 in H as [j Hj].
  apply list_lookup_insert_Some in Hj as [(_ & -> & _)|[_ Hj]]; [by left|right].
  by eapply list_elem_of_lookup_2.
Qed.

Lemma set_stat_record_playing r id v w w' :
  set_stat r id v w = Some w' -> v <> PLAYING ->
  record_playing (fSt w') -> record_playing (fSt w).
Proof.
  intros H Hv. apply set_stat_inv in H as (_ & _ & _ & _ & _ & _ & _ & Hs & Ho).
  unfold record_playing.
  destruct r; simpl in Hs.
  - pose proof (Ho GoalieRole ltac:(done)) as Hg. simpl in Hg. rewrite Hs, Hg.
    intros [H|H]; [|by right]. apply elem_of_insert_inv in H as [H|H]; [congruence|by left].
  - pose proof (Ho PlayerRole ltac:(done)) as Hg. simpl in Hg. rewrite Hs, Hg.
    intros [H|H]; [by left|]. apply elem_of_insert_inv in H as [H|H]; [congruence|by right].
Qed.

Lemma set_stat_start_world r id v w w' :
  set_stat r id v w = Some w' -> (v = PLAYING -> started w) ->
  start_world w -> start_world w'.
Proof.
  intros H Hv Hw. pose proof (set_stat_inv _ _ _ _ _ H) as (Hsems & Hlog & _).
  destruct (decide (v = PLAYING)) as [->|Hne].
  - apply (start_world_started w); auto.
  - apply (start_world_transfer w); [by unfold semval; rewrite Hsems|done| |done].
    intros Hp. left. by eapply set_stat_record_playing.
Qed.

Lemma semDown_start_world s w w' :
  semDown s w = Some w' -> start_world w -> start_world w'.
Proof.
  intros H Hw. pose proof (semDown_inv _ _ _ H) as (Hv & Hf & Hl & Ho).
  destruct (decide (s = playersWaitReferee)) as [->|Hne].
  - apply (start_world_started w); [done| |done].
    destruct Hw as (Hsem & _). apply Hsem. lia.
  - apply (start_world_transfer w); [by apply Ho|done| |done].
    rewrite Hf. by left.
Qed.

Ltac start_world_step :=
  first
    [ assumption
    | eapply semDown_start_world; eassumption
    | eapply set_stat_start_world;
      [eassumption|intros [=]; auto; fail|assumption]
    | eapply set_stat_start_world; [eassumption|by intros [=]|assumption]
    | apply start_world_saveState; assumption
    | eapply start_world_transfer; [reflexivity|reflexivity|by left|assumption] ].

Ltac started_step :=
  first
    [ assumption
    | match goal with
      | H : semDown _ ?w = Some ?w' |- started ?w' =>
          apply (started_transfer w); [by apply semDown_inv in H as (_ & _ & ? & _)|]
      | H : set_stat _ _ _ ?w = Some ?w' |- started ?w' =>
          apply (started_transfer w); [by apply set_stat_inv in H as (_ & ? & _)|]
      | |- started (saveState _) => apply started_saveState
      | |- started _ => eapply started_transfer; [reflexivity|]
      end; auto ].

Lemma field_main_start K r id p w p' w' :
  field_main K r id p w = Some (p', w') ->
  start_world w -> start_label (at_field (pc p)) w ->
  start_world w' /\ start_label (at_field (pc p')) w' /\
  (started w -> started w') /\
  refereeStat (st (fSt w')) = refereeStat (st (fSt w)).
Proof.
  intros H Hw Hl. step_cases H; simpl in Hl; simpl.
  all: split; [start_world_step|].
  all: split; [first [by intros [=] | intros _; started_step]|];
    try match goal with
    | Hd : semDown playersWaitReferee ?w = Some _, Hw : start_world ?w |- started ?w =>
        destruct Hw as (Hsem & _); apply Hsem;
        apply semDown_inv in Hd as (Hv & _); rewrite Hv; lia
    end.
  all: split; [intros ?; started_step|].
  all: try reflexivity.
  all: try match goal with
       | H : semDown _ _ = Some _ |- _ => by apply semDown_inv in H as (_ & -> & _)
       | H : set_stat _ _ _ _ = Some _ |- _ =>
           by apply set_stat_inv in H as (_ & _ & _ & _ & _ & ? & _)
       end.
Qed.

Lemma referee_main_start q w q' w' :
  Referee.referee_main q w = Some (q', w') ->
  start_world w -> start_label (at_referee q) w ->
  start_world w' /\ start_label (at_referee q') w' /\ (started w -> started w').
Proof.
  intros H Hw [Hl1 Hl2]. step_cases H; simpl in Hl1; simpl.
  all: split;
    [first [ start_world_step
           | apply (start_world_started w); [reflexivity|by apply Hl1|assumption] ]|].
  all: split; [|intros ?; started_step].
  all: split; [first [by intros [=] | intros _]|first [by intros [=] | intros _]].
  all: try reflexivity.
  all: try (started_step; by apply Hl1).
  apply started_saveState_now. by apply Hl2.
Qed.

Lemma start_label_mono l w w' :
  (started w -> started w') ->
  refereeStat (st (fSt w')) = refereeStat (st (fSt w)) ->
  start_label l w -> start_label l w'.
Proof.
  intros Hmono Href. destruct l as [l|q]; simpl.
  - auto.
  - intros [H1 H2]. split; [auto|]. unfold record_starting. rewrite Href. auto.
Qed.

Lemma start_inv_init K : start_inv (init K).
Proof.
  split.
  - split; [done|]. split.
    + intros [H|H]; simpl in H; by apply elem_of_replicate in H as [? _].
    + intros i f Hi. done.
  - intros a l Hl. destruct a as [i|i|]; simpl in Hl.
    + destruct (replicate _ _ !! i) as [p|] eqn:Hp; simpl in Hl; [|done].
      apply lookup_replicate in Hp as [-> _]. injection Hl as <-. by simpl.
    + destruct (replicate _ _ !! i) as [p|] eqn:Hp; simpl in Hl; [|done].
      apply lookup_replicate in Hp as [-> _]. injection Hl as <-. by simpl.
    + injection Hl as <-. by simpl.
Qed.

Lemma start_inv_step K a s s' :
  start_inv s -> step K a s = Some s' -> start_inv s'.
Proof.
  intros [Hw Hlab] Hs. destruct (actor_cases a) as [(r & i & ->)| ->].
  - destruct (step_field _ _ _ _ _ Hs) as (p & p' & Hp & Hm & Hpr & Hoth & Hrf).
    assert (Hl : start_label (at_field (pc p)) (shared s)).
    { apply (Hlab (field_actor r i)). by rewrite next_label_field, Hp. }
    destruct (field_main_start _ _ _ _ _ _ _ Hm Hw Hl) as (Hw' & Hl' & Hmono & Href).
    split; [done|]. intros b lb Hb.
    destruct (decide (b = field_actor r i)) as [->|Hne].
    + rewrite next_label_field, Hpr in Hb.
      rewrite list_lookup_insert_eq in Hb by (by eapply lookup_lt_Some).
      simpl in Hb. by injection Hb as <-.
    + rewrite (next_label_other _ _ _ _ _ Hs Hne) in Hb.
      eapply start_label_mono; eauto.
  - destruct (step_referee _ _ _ Hs) as [Hm Hpr].
    assert (Hl : start_label (at_referee (referee s)) (shared s)) by (by apply (Hlab TheReferee)).
    destruct (referee_main_start _ _ _ _ Hm Hw Hl) as (Hw' & Hl' & Hmono).
    split; [done|]. intros b lb Hb.
    destruct (decide (b = TheReferee)) as [->|Hne].
    + simpl in Hb. by injection Hb as <-.
    + rewrite (next_label_other _ _ _ _ _ Hs Hne) in Hb.
      specialize (Hlab b lb Hb).
      destruct (actor_cases b) as [(r & i & ->)| ->]; [|done].
      rewrite next_label_field in Hb.
      destruct (procs r s !! i) as [p|]; simpl in Hb; [|done].
      injection Hb as <-. simpl in *. auto.
Qed.

Lemma start_inv_reach K tr s : reachable K tr s -> start_inv s.
Proof.
  induction 1 as [|tr s a l s' _ IH _ Hs]; [apply start_inv_init|].
  by eapply start_inv_step.
Qed.

(** ** Accesses to the shared region *)

(** The snapshot and the log are written only by the holder of the mutex. *)
Lemma writes_hold_mutex K a s s' :
  step K a s = Some s' -> ~ holds_mutex a s ->
  fSt (shared s') = fSt (shared s) /\ logfile (shared s') = logfile (shared s).
Proof.
  intros Hs Hn. destruct (step_mutex _ _ _ _ Hs) as (l & l' & Hl & _ & Hmove).
  inversion Hmove as [Hm Hf Hg Hc Hc'|Hm Hc Hc'|Hm Hf Hg Hc Hc'|Hm Hf Hg Hc Hc'];
    try done; exfalso; apply Hn; by exists l.
Qed.

(** ** The teams of the processes *)

Lemma referee_main_frame q w q' w' :
  Referee.referee_main q w = Some (q', w') ->
  playersFree (fSt w') = playersFree (fSt w) /\
  goaliesFree (fSt w') = goaliesFree (fSt w) /\
  teamId (fSt w') = teamId (fSt w) /\
  forall r, slots r (fSt w') = slots r (fSt w).
Proof.
  intros H. step_cases H; world_facts; use_fSt_eq; repeat split; try done; by intros [].
Qed.

(** The free counters never grow, and a field process writes no slot but
    its own. *)
Lemma field_main_frame K r i p w p' w' L :
  consts_ok K ->
  field_main K r (Z.of_nat i) p w = Some (p', w') ->
  counts_local K L (at_field (pc p)) w ->
  playersFree (fSt w') <= playersFree (fSt w) /\
  goaliesFree (fSt w') <= goaliesFree (fSt w) /\
  (forall r' j, (r', j) <> (r, i) -> slots r' (fSt w') !! j = slots r' (fSt w) !! j).
Proof.
  intros [HP HG HNP HNG] H (Hid & HL & Hin & Hout).
  unfold CInt.INT_MAX in *.
  step_cases H; simpl in Hin; try (specialize (Hin eq_refl));
    unfold counts_at, settled in Hin.
  all: repeat match goal with
       | H : semDown _ _ = Some _ |- _ => apply semDown_inv in H as (_ & -> & _)
       end.
  all: try (simpl; split; [lia|split; [lia|by intros [] ?]]).
  all: try (match goal with
            | H : set_stat _ _ _ _ = Some _ |- _ =>
                apply set_stat_inv in H as (_ & _ & -> & -> & _ & _ & _ & Hs & Ho)
            end;
            split; [lia|split; [lia|]]; intros r' j Hne;
            destruct (decide (r' = r)) as [->|Hr]; [|by rewrite Ho];
            rewrite Hs, Nat2Z.id; apply list_lookup_insert_ne; congruence).
  - (* playersFree -= NUMTEAMPLAYERS *)
    simpl. rewrite CIntFacts.sub_exact; [split; [lia|split; [lia|by intros [] ?]]|].
    unfold CInt.in_int, CInt.INT_MIN, CInt.INT_MAX. nia.
  - (* goaliesFree -= NUMTEAMGOALIES *)
    simpl. rewrite CIntFacts.sub_exact; [split; [lia|split; [lia|by intros [] ?]]|].
    unfold CInt.in_int, CInt.INT_MIN, CInt.INT_MAX. nia.
Qed.

Lemma field_main_team_ok K r i p w p' w' L :
  field_main K r (Z.of_nat i) p w = Some (p', w') ->
  teamId (fSt w) = 1 + L -> 0 <= L ->
  playersFree (fSt w') <= playersFree (fSt w) ->
  goaliesFree (fSt w') <= goaliesFree (fSt w) ->
  team_ok K L r i p (fSt w) ->
  let L' := (if is_leader_label (at_field (pc p)) then 1 else 0) + L in
  team_ok K L' r i p' (fSt w') /\
  (team p' = team p \/ (team p' = L' /\ L' = L + 1)).
Proof.
  intros H Hid HL HpF HgF (Hrange & Hbefore & Hafter & Hlate & Hslot).
  unfold team_ok, not_enough_free, took_late_branch, wrote_late in *.
  step_cases H; simpl in *.
  all: try match goal with
       | Ht : (_ =? 0) = true |- _ => apply Z.eqb_eq in Ht
       | Ht : (_ =? 0) = false |- _ => apply Z.eqb_neq in Ht
       end.
  all: try (apply enough_free_false in Hfree; unfold not_enough_free in Hfree).
  all: try (specialize (Hbefore eq_refl)); try (specialize (Hafter eq_refl)).
  all: split; [|first [by left | left; lia | right; lia]].
  all: (split; [lia|]); (split; [first [done | intros _; auto; lia]|]).
  all: (split; [first [done | intros _; auto; lia]|]).
  all: split; [first [done | intros ?; first [lia | assert (Hn := Hlate ltac:(auto)); lia]]|].
  all: first [done | intros ?].
  - apply set_stat_inv in Hset as (_ & _ & _ & _ & _ & _ & Hin & -> & _).
    rewrite Nat2Z.id. apply list_lookup_insert_eq. lia.
  - by apply Hslot.
Qed.

Lemma counts_inv_local K tr a l s :
  counts_inv K tr s -> next_label a s = Some l ->
  counts_local K (teams_formed tr) l (shared s).
Proof.
  intros (Hid & HL & Hfree & Hcs) Hl.
  split; [done|]. split; [done|]. split; [|by intros _].
  intros Hc. by apply (Hcs a).
Qed.

Lemma team_ok_other K L L' r i q f f' :
  L <= L' ->
  playersFree f' <= playersFree f -> goaliesFree f' <= goaliesFree f ->
  slots r f' !! i = slots r f !! i ->
  team_ok K L r i q f -> team_ok K L' r i q f'.
Proof.
  intros HL HpF HgF Hs (Hrange & Hbefore & Hafter & Hlate & Hslot).
  split; [lia|]. split; [done|]. split; [done|]. split.
  - intros H. destruct (Hlate H); [left|right]; lia.
  - intros H. rewrite Hs. auto.
Qed.

Lemma teams_inv_init K : teams_inv K [] (init K).
Proof.
  split; [|split; [|split]].
  - intros r i p Hp.
    assert (p = {| pc := in_arrive arrive_down; team := 0 |}) as ->.
    { destruct r; simpl in Hp; by apply lookup_replicate in Hp as [-> _]. }
    by repeat split.
  - intros r i p r' j q Hp Hq _ Hteam. exfalso. apply Hteam.
    destruct r; simpl in Hp; by apply lookup_replicate in Hp as [-> _].
  - simpl. apply length_replicate.
  - simpl. apply length_replicate.
Qed.

Lemma teams_inv_step K tr a l s s' :
  consts_ok K -> counts_inv K tr s -> teams_inv K tr s ->
  next_label a s = Some l -> step K a s = Some s' ->
  teams_inv K ((a, l) :: tr) s'.
Proof.
  intros HK Hcounts (Hok & Hdist & HlenP & HlenG) Hl Hs.
  pose proof (counts_inv_local _ _ _ _ _ Hcounts Hl) as Hloc.
  pose proof Hloc as (Hid & HL & _).
  unfold teams_inv.
  change (teams_formed ((a, l) :: tr))
    with ((if is_leader_label l then 1 else 0) + teams_formed tr).
  set (L := teams_formed tr) in *.
  destruct (actor_cases a) as [(r0 & i0 & ->)| ->].
  - destruct (step_field _ _ _ _ _ Hs) as (p & p' & Hp & Hm & Hpr & Hoth & _).
    rewrite next_label_field, Hp in Hl. simpl in Hl. injection Hl as <-.
    destruct (field_main_frame K r0 i0 p _ p' _ L HK Hm Hloc) as (HpF & HgF & Hslots).
    destruct (field_main_team_ok K r0 i0 p _ p' _ L Hm Hid HL HpF HgF (Hok _ _ _ Hp))
      as [Hown Hteam].
    set (L' := (if is_leader_label (at_field (pc p)) then 1 else 0) + L) in *.
    assert (HLL : L <= L') by (unfold L'; destruct (is_leader_label _); lia).
    assert (Hrest : forall r i q, procs r s' !! i = Some q -> (r, i) <> (r0, i0) ->
              procs r s !! i = Some q).
    { intros r i q Hq Hne.
      destruct (procs_after_field_step _ _ _ _ _ _ _ _ Hs Hq) as [(-> & -> & _)|[_ H]];
        done. }
    assert (Hself : procs r0 s' !! i0 = Some p').
    { rewrite Hpr. apply list_lookup_insert_eq. by eapply lookup_lt_Some. }
    split; [|split; [|split]].
    + intros r i q Hq. destruct (decide ((r, i) = (r0, i0))) as [[= -> ->]|Hne].
      * assert (q = p') as -> by congruence. done.
      * eapply team_ok_other; eauto.
    + intros r i p1 r' j q1 Hp1 Hq1 Hne Hnz.
      destruct (decide ((r, i) = (r0, i0))) as [[= -> ->]|Hne1];
        destruct (decide ((r', j) = (r0, i0))) as [[= -> ->]|Hne2].
      * done.
      * assert (p1 = p') as -> by congruence.
        pose proof (Hrest _ _ _ Hq1 Hne2) as Hq0.
        destruct Hteam as [Ht|[Ht HL']].
        -- rewrite Ht. apply (Hdist r0 i0 p r' j q1); auto. congruence.
        -- destruct (Hok _ _ _ Hq0) as (Hr & _). lia.
      * assert (q1 = p') as -> by congruence.
        pose proof (Hrest _ _ _ Hp1 Hne1) as Hp0.
        destruct Hteam as [Ht|[Ht HL']].
        -- rewrite Ht. apply (Hdist r i p1 r0 i0 p); auto.
        -- destruct (Hok _ _ _ Hp0) as (Hr & _). lia.
      * apply (Hdist r i p1 r' j q1); auto.
    + change (players s') with (procs PlayerRole s'). destruct r0.
      * by rewrite Hpr, length_insert.
      * by rewrite (Hoth PlayerRole).
    + change (goalies s') with (procs GoalieRole s'). destruct r0.
      * by rewrite (Hoth GoalieRole).
      * by rewrite Hpr, length_insert.
  - destruct (step_referee _ _ _ Hs) as [Hm Hpr].
    simpl in Hl. injection Hl as <-.
    destruct (referee_main_frame _ _ _ _ Hm) as (HpF & HgF & _ & Hslots).
    change ((if is_leader_label (at_referee (referee s)) then 1 else 0) + L) with L.
    split; [|split; [|split]].
    + intros r i q Hq. rewrite Hpr in Hq.
      eapply team_ok_other; [| | | |by apply Hok]; try lia. by rewrite Hslots.
    + intros r i p1 r' j q1 Hp1 Hq1. rewrite Hpr in Hp1, Hq1. by apply Hdist.
    + change (players s') with (procs PlayerRole s'). by rewrite Hpr.
    + change (goalies s') with (procs GoalieRole s'). by rewrite Hpr.
Qed.

Lemma teams_inv_reach K tr s :
  consts_ok K -> reachable K tr s -> teams_inv K tr s.
Proof.
  intros HK. induction 1 as [|tr s a l s' Hr IH Hl Hs]; [apply teams_inv_init|].
  eapply teams_inv_step; eauto. by apply counts_inv_reach.
Qed.

Lemma settled_when_all_left K tr s :
  consts_ok K -> reachable K tr s -> all_left_constituteTeam s ->
  settled K (teams_formed tr) (fSt (shared s)).
Proof.
  intros HK Hr Hall. pose proof (mutex_inv_reach _ _ _ Hr) as (Hle & _ & _ & Hsome).
  pose proof (counts_inv_reach _ _ _ HK Hr) as (_ & _ & Hfree & Hcs).
  destruct (semval mutex (shared s)) as [|n] eqn:Hm.
  - destruct (Hsome eq_refl) as (a & l & Hl & Hc). specialize (Hcs a l Hl Hc).
    destruct (actor_cases a) as [(r & i & ->)| ->].
    + rewrite next_label_field in Hl.
      destruct (procs r s !! i) as [p|] eqn:Hp; simpl in Hl; [|done].
      injection Hl as <-. specialize (Hall r i p Hp).
      by destruct (pc p) as [| | | |].
    + simpl in Hl. by injection Hl as <-.
  - apply Hfree. lia.
Qed.

(** A process that has returned from [constituteTeam] without a team has
    exited, and its slot shows LATE. *)
Lemma no_team_late_exited K tr s r i p :
  consts_ok K -> reachable K tr s ->
  procs r s !! i = Some p -> left_constituteTeam (pc p) = true -> team p = 0 ->
  late_exited r i s /\ not_enough_free K (fSt (shared s)).
Proof.
  intros HK Hr Hp Hleft Hteam.
  destruct (teams_inv_reach K tr s HK Hr) as (Hok & _).
  destruct (Hok r i p Hp) as (_ & _ & Hafter & Hlate & Hslot).
  unfold took_late_branch, wrote_late in *.
  destruct (pc p) as [| | | |] eqn:Hpc; try done.
  - by destruct (Hafter eq_refl).
  - by destruct (Hafter eq_refl).
  - split; [|auto]. exists p. auto.
Qed.

(** When two teams fit in the populations and three do not, [teamId] is 3
    once every player and goalie has returned from [constituteTeam]. *)
Lemma teamId_at_end K tr s :
  consts_ok K -> reachable K tr s -> all_left_constituteTeam s ->
  2 * NUMTEAMPLAYERS K <= NUMPLAYERS K -> 2 * NUMTEAMGOALIES K <= NUMGOALIES K ->
  NUMPLAYERS K < 3 * NUMTEAMPLAYERS K \/ NUMGOALIES K < 3 * NUMTEAMGOALIES K ->
  teamId (fSt (shared s)) = 3.
Proof.
  intros HK Hr Hall H2P H2G H3.
  pose proof (counts_inv_reach _ _ _ HK Hr) as (Hid & HL & _).
  pose proof (teams_fit _ _ _ HK Hr) as [HfitP HfitG].
  pose proof (settled_when_all_left _ _ _ HK Hr Hall) as (HeqP & HeqG & _).
  pose proof (teams_inv_reach _ _ _ HK Hr) as (Hok & Hdist & HlenP & _).
  pose proof HK as [HP HG HNP HNG].
  assert (Hle2 : teams_formed tr <= 2) by (destruct H3; nia).
  destruct (Z_le_gt_dec 2 (teams_formed tr)) as [Hge|Hlt]; [lia|exfalso].
  assert (Henough : ~ not_enough_free K (fSt (shared s))).
  { unfold not_enough_free. nia. }
  assert (Hex : forall i, (i < 2)%nat -> exists p, procs PlayerRole s !! i = Some p /\
            1 <= team p <= teams_formed tr).
  { intros i Hi. destruct (lookup_lt_is_Some_2 (procs PlayerRole s) i) as [p Hp];
      [simpl; lia|].
    exists p. split; [done|].
    destruct (Hok PlayerRole i p Hp) as (Hrange & _).
    destruct (decide (team p = 0)) as [H0|H0]; [|lia].
    destruct (no_team_late_exited K tr s PlayerRole i p HK Hr Hp (Hall _ _ _ Hp) H0)
      as [_ Hne]. by destruct Henough. }
  destruct (Hex 0%nat ltac:(lia)) as (p0 & Hp0 & Ht0).
  destruct (Hex 1%nat ltac:(lia)) as (p1 & Hp1 & Ht1).
  assert (team p0 <> team p1).
  { apply (Hdist PlayerRole 0%nat p0 PlayerRole 1%nat p1); [done|done|congruence|lia]. }
  lia.
Qed.

(** When the populations cannot fill three teams, at most two processes ever
    get a team: of any three that have returned from [constituteTeam], one has
    exited LATE. *)
Lemma all_but_two_late K tr s r1 i1 r2 i2 r3 i3 :
  consts_ok K ->
  NUMPLAYERS K < 3 * NUMTEAMPLAYERS K \/ NUMGOALIES K < 3 * NUMTEAMGOALIES K ->
  reachable K tr s -> all_left_constituteTeam s ->
  is_Some (procs r1 s !! i1) -> is_Some (procs r2 s !! i2) -> is_Some (procs r3 s !! i3) ->
  (r1, i1) <> (r2, i2) -> (r1, i1) <> (r3, i3) -> (r2, i2) <> (r3, i3) ->
  late_exited r1 i1 s \/ late_exited r2 i2 s \/ late_exited r3 i3 s.
Proof.
  intros HK H3 Hr Hall [p1 Hp1] [p2 Hp2] [p3 Hp3] H12 H13 H23.
  pose proof (teams_fit _ _ _ HK Hr) as [HfitP HfitG].
  pose proof (teams_inv_reach _ _ _ HK Hr) as (Hok & Hdist & _).
  pose proof HK as [HP HG HNP HNG].
  assert (Hle2 : teams_formed tr <= 2) by (destruct H3; nia).
  assert (Hlate : forall r i p, procs r s !! i = Some p -> team p = 0 -> late_exited r i s).
  { intros r i p Hp H0.
    by destruct (no_team_late_exited K tr s r i p HK Hr Hp (Hall _ _ _ Hp) H0). }
  destruct (decide (team p1 = 0)) as [Hz1|Hz1]; [left; eauto|].
  destruct (decide (team p2 = 0)) as [Hz2|Hz2]; [right; left; eauto|].
  destruct (decide (team p3 = 0)) as [Hz3|Hz3]; [right; right; eauto|].
  exfalso.
  pose proof (Hdist _ _ _ _ _ _ Hp1 Hp2 H12 Hz1).
  pose proof (Hdist _ _ _ _ _ _ Hp1 Hp3 H13 Hz1).
  pose proof (Hdist _ _ _ _ _ _ Hp2 Hp3 H23 Hz2).
  destruct (Hok _ _ _ Hp1) as (? & _).
  destruct (Hok _ _ _ Hp2) as (? & _).
  destruct (Hok _ _ _ Hp3) as (? & _).
  lia.
Qed.

(** The same on the trace of the statements. *)
Ltac wait_referee_facts :=
  repeat match goal with
  | H : forall s', s' <> ?s -> semval s' _ = semval s' _ |- _ =>
      let H' := fresh in
      try (assert (H' := H playersWaitReferee ltac:(done)));
      clear H
  | H : sems _ = sems _ |- _ =>
      let H' := fresh in
      assert (H' := f_equal val_playersWaitReferee H); clear H
  end;
  simpl in *.

Lemma field_main_start_flow K r id p w p' w' :
  field_main K r id p w = Some (p', w') ->
  (past_start_signal (pc p') = true ->
   past_start_signal (pc p) = true \/
   (pc p = in_waitReferee wr_wait /\ semval playersWaitReferee w <> O)) /\
  (semval playersWaitReferee w' <> O -> semval playersWaitReferee w <> O).
Proof.
  intros H. step_cases H; world_facts; wait_referee_facts; split;
    first [tauto | by intros [=] | lia | intros _; right; split; [done|lia]].
Qed.

Lemma referee_main_start_flow q w q' w' :
  Referee.referee_main q w = Some (q', w') ->
  (referee_logged_start q' = true ->
   referee_logged_start q = true \/ q = Referee.in_startGame Referee.sg_save) /\
  (semval playersWaitReferee w' <> O ->
   semval playersWaitReferee w <> O \/ referee_logged_start q = true).
Proof.
  intros H. step_cases H; world_facts; wait_referee_facts; split;
    first [tauto | by intros [=] | lia].
Qed.

Lemma start_trace_inv_init K : start_trace_inv [] (init K).
Proof.
  split; [done|]. split.
  - intros a l Hl Hn. exfalso. destruct a as [i|i|]; simpl in Hl.
    + destruct (replicate _ _ !! i) as [p|] eqn:Hp; simpl in Hl; [|done].
      apply lookup_replicate in Hp as [-> _]. by injection Hl as <-.
    + destruct (replicate _ _ !! i) as [p|] eqn:Hp; simpl in Hl; [|done].
      apply lookup_replicate in Hp as [-> _]. by injection Hl as <-.
    + by injection Hl as <-.
  - intros t1 a t2 H. by destruct t1.
Qed.

Lemma start_trace_inv_step K tr a l s s' :
  start_trace_inv tr s -> next_label a s = Some l -> step K a s = Some s' ->
  start_trace_inv ((a, l) :: tr) s'.
Proof.
  intros (Hsem & Hlab & Hord) Hl Hs.
  assert (Hmono : start_logged tr -> start_logged ((a, l) :: tr)).
  { unfold start_logged. intros H. by apply list_elem_of_further. }
  assert (Hflow : exists l', next_label a s' = Some l' /\
            (start_needed l' = true -> start_logged ((a, l) :: tr)) /\
            (semval playersWaitReferee (shared s') <> O -> start_logged ((a, l) :: tr))).
  { destruct (actor_cases a) as [(r & i & ->)| ->].
    - destruct (step_field _ _ _ _ _ Hs) as (p & p' & Hp & Hm & Hpr & _).
      rewrite next_label_field, Hp in Hl. simpl in Hl. injection Hl as <-.
      exists (at_field (pc p')). rewrite next_label_field, Hpr.
      rewrite list_lookup_insert_eq by (by eapply lookup_lt_Some).
      split; [done|].
      destruct (field_main_start_flow _ _ _ _ _ _ _ Hm) as [H1 H2].
      assert (Hown : start_needed (at_field (pc p)) = true -> start_logged tr).
      { apply (Hlab (field_actor r i)). by rewrite next_label_field, Hp. }
      split; intros H; apply Hmono.
      + destruct (H1 H) as [Hpre|[_ Hpre]]; auto.
      + auto.
    - destruct (step_referee _ _ _ Hs) as [Hm _].
      simpl in Hl. injection Hl as <-.
      exists (at_referee (referee s')). split; [done|].
      destruct (referee_main_start_flow _ _ _ _ Hm) as [H1 H2].
      assert (Hown : start_needed (at_referee (referee s)) = true -> start_logged tr)
        by (by apply (Hlab TheReferee)).
      split; intros H.
      + destruct (H1 H) as [Hpre|Hpre]; [by apply Hmono, Hown|].
        rewrite Hpre. apply list_elem_of_here.
      + apply Hmono. destruct (H2 H); auto. }
  destruct Hflow as (l' & Hl' & Hneed & Hsem').
  split; [done|]. split.
  - intros b lb Hb Hn. destruct (decide (b = a)) as [->|Hne].
    + apply Hneed. congruence.
    + rewrite (next_label_other _ _ _ _ _ Hs Hne) in Hb. by apply Hmono, (Hlab b lb).
  - intros t1 b t2 Heq. destruct t1 as [|e t1]; simpl in Heq.
    + injection Heq as _ Hl2 Ht. rewrite <- Ht. apply (Hlab a l Hl). by rewrite Hl2.
    + injection Heq as _ ->. by apply (Hord t1 b t2).
Qed.

Lemma start_trace_inv_reach K tr s : reachable K tr s -> start_trace_inv tr s.
Proof.
  induction 1 as [|tr s a l s' _ IH Hl Hs]; [apply start_trace_inv_init|].
  by eapply start_trace_inv_step.
Qed.

(** ** Validation of the arguments *)

(** What the validation does reject: another number of arguments, with a
    message in the error file of the role; an id that [strtol] does not read
    to the end or that is, as an [int], at least the population, with a
    message on the [stderr] the process inherited. *)
Lemma validate_rejects population errfile msg c :
  (Args.argc c <> 4 ->
   Args.validate population errfile msg c
   = Args.exits Args.EXIT_FAILURE (Args.file errfile) "Number of parameters is incorrect!") /\
  (Args.argc c = 4 ->
   Args.strtol_rest c <> EmptyString \/
   population <= CInt.to_int (CInt.to_uint (Args.strtol_value c)) ->
   Args.validate population errfile msg c
   = Args.exits Args.EXIT_FAILURE Args.inherited_stderr msg).
Proof.
  unfold Args.validate. split.
  - intros H. by destruct (Z.eqb_spec (Args.argc c) 4).
  - intros -> H. simpl.
    destruct (String.eqb_spec (Args.strtol_rest c) EmptyString) as [Heq|Hne]; simpl.
    + destruct H as [H|H]; [done|]. by destruct (Z.leb_spec population
        (CInt.to_int (CInt.to_uint (Args.strtol_value c)))); [|lia].
    + done.
Qed.

(** ** The situation of the followers *)

(** The state in which player 1 finds too few free goalies while only one
    team is formed is a state of a run. *)
Lemma one_team_formed_reachable :
  exists s,
    reachable one_goalie (trace one_goalie one_team_run (init one_goalie) []) s /\
    shared s = one_team_formed /\
    players s !! 1%nat = Some {| pc := in_constituteTeam ct_if; team := 0 |} /\
    playersFree (fSt (shared s)) = 4 /\ goaliesFree (fSt (shared s)) = 0 /\
    teamId (fSt (shared s)) = 2.
Proof.
  destruct (run one_goalie one_team_run (init one_goalie)) as [s|] eqn:Hrun;
    [|by vm_compute in Hrun].
  exists s. split; [by apply reachable_run|].
  unfold one_team_formed. rewrite Hrun.
  vm_compute in Hrun. injection Hrun as <-. by repeat split.
Qed.

(** * Further properties *)

(** ** Shape of the state and progress *)

Lemma field_main_lengths K r id p w p' w' :
  field_main K r id p w = Some (p', w') ->
  forall r', length (slots r' (fSt w')) = length (slots r' (fSt w)).
Proof.
  intros H r'. step_cases H; world_facts; use_fSt_eq; try done; try (by destruct r').
  all: destruct (decide (r' = r)) as [->|Hne];
    [match goal with Hs : slots _ _ = <[_ := _]> _ |- _ =>
       rewrite Hs; apply length_insert end
    |match goal with Ho : forall r0, r0 <> _ -> _ |- _ => by rewrite Ho end].
Qed.

Lemma shape_inv_init K : shape_inv K (init K).
Proof. unfold shape_inv. simpl. by rewrite !length_replicate. Qed.

Lemma shape_inv_step K a s s' :
  shape_inv K s -> step K a s = Some s' -> shape_inv K s'.
Proof.
  intros (HpS & HgS & HpP & HgP) Hs.
  destruct (actor_cases a) as [(r & i & ->)| ->].
  - destruct (step_field _ _ _ _ _ Hs) as (p & p' & Hp & Hm & Hpr & Hoth & _).
    pose proof (field_main_lengths _ _ _ _ _ _ _ Hm) as Hlen.
    split; [etrans; [apply (Hlen PlayerRole)|done]|].
    split; [etrans; [apply (Hlen GoalieRole)|done]|].
    change (players s') with (procs PlayerRole s').
    change (goalies s') with (procs GoalieRole s').
    destruct r.
    + rewrite Hpr, length_insert, (Hoth GoalieRole) by done. done.
    + rewrite Hpr, length_insert, (Hoth PlayerRole) by done. done.
  - destruct (step_referee _ _ _ Hs) as [Hm Hpr].
    destruct (referee_main_frame _ _ _ _ Hm) as (_ & _ & _ & Hslots).
    split; [etrans; [apply (f_equal length (Hslots PlayerRole))|done]|].
    split; [etrans; [apply (f_equal length (Hslots GoalieRole))|done]|].
    change (players s') with (procs PlayerRole s').
    change (goalies s') with (procs GoalieRole s').
    by rewrite !Hpr.
Qed.

Lemma shape_inv_reach K tr s : reachable K tr s -> shape_inv K s.
Proof.
  induction 1 as [|tr s a l s' _ IH _ Hs]; [apply shape_inv_init|].
  by eapply shape_inv_step.
Qed.

Lemma semDown_None s w : semDown s w = None <-> semval s w = O.
Proof. unfold semDown. destruct (semval s w); split; done. Qed.

Lemma set_stat_in_bounds r i v w :
  (i < length (slots r (fSt w)))%nat -> set_stat r (Z.of_nat i) v w <> None.
Proof.
  intros Hi. destruct (set_stat_defined r (Z.of_nat i) v w) as (w' & -> & _); [lia|done].
Qed.

Ltac stuck_case :=
  first
    [ match goal with
      | |- context [semDown ?s ?w] =>
          rewrite <- (semDown_None s w); destruct (semDown s w);
          cbn [mbind option_bind]; split; done
      end
    | match goal with
      | |- context [set_stat ?r ?i ?v ?w] =>
          let E := fresh in
          destruct (set_stat r i v w) eqn:E; cbn [mbind option_bind];
          [split; done|by destruct (set_stat_in_bounds r _ v w ltac:(eassumption))]
      end
    | match goal with
      | |- context [if ?c then _ else _] => destruct c; split; done
      end
    | split; done ].

Lemma field_main_stuck K r i p w :
  (i < length (slots r (fSt w)))%nat ->
  field_main K r (Z.of_nat i) p w = None <-> stuck (at_field (pc p)) w.
Proof.
  intros Hi. unfold stuck.
  destruct p as [[[]|[]|[]|[]|] t];
    cbn [field_main pc team arrive constituteTeam waitReferee playUntilEnd waits_on
         is_exited mbind option_bind];
    stuck_case.
Qed.

Lemma referee_main_stuck q w :
  Referee.referee_main q w = None <-> stuck (at_referee q) w.
Proof.
  unfold stuck.
  destruct q as [[]|[]|[]|[]|[]|];
    cbn [Referee.referee_main Referee.arrive Referee.waitForTeams Referee.startGame
         Referee.play Referee.endGame waits_on is_exited mbind option_bind];
    stuck_case.
Qed.

(** In a run, a process has no next step exactly when it has exited or waits
    on a semaphore whose value is 0. *)
Lemma step_stuck K tr s a l :
  reachable K tr s -> next_label a s = Some l ->
  step K a s = None <-> stuck l (shared s).
Proof.
  intros Hr Hl. pose proof (shape_inv_reach _ _ _ Hr) as (HpS & HgS & HpP & HgP).
  destruct (actor_cases a) as [(r & i & ->)| ->].
  - rewrite next_label_field in Hl.
    destruct (procs r s !! i) as [p|] eqn:Hp; simpl in Hl; [|done].
    injection Hl as <-.
    assert (Hi : (i < length (slots r (fSt (shared s))))%nat).
    { apply lookup_lt_Some in Hp. destruct r; simpl in *; lia. }
    rewrite <- (field_main_stuck K r i p _ Hi).
    destruct r; simpl in *; rewrite Hp; simpl;
      destruct (field_main K _ (Z.of_nat i) p (shared s)) as [[p' w']|]; by simpl.
  - simpl in Hl. injection Hl as <-.
    rewrite <- referee_main_stuck. simpl.
    destruct (Referee.referee_main (referee s) (shared s)) as [[q' w']|]; by simpl.
Qed.

(** ** The snapshot shows where every process is *)

Lemma field_main_slots_frame K r i p w p' w' :
  field_main K r (Z.of_nat i) p w = Some (p', w') ->
  refereeStat (st (fSt w')) = refereeStat (st (fSt w)) /\
  forall r' j, (r', j) <> (r, i) -> slots r' (fSt w') !! j = slots r' (fSt w) !! j.
Proof.
  intros H. step_cases H.
  all: repeat match goal with
       | H : semDown _ _ = Some _ |- _ => apply semDown_inv in H as (_ & -> & _)
       end.
  all: try (split; [done|by intros [] ?]).
  all: match goal with
       | H : set_stat _ _ _ _ = Some _ |- _ =>
           apply set_stat_inv in H as (_ & _ & _ & _ & _ & ? & _ & Hs & Ho)
       end;
       (split; [done|]); intros r' j Hne;
       destruct (decide (r' = r)) as [->|Hr]; [|by rewrite Ho];
       rewrite Hs, Nat2Z.id; apply list_lookup_insert_ne; congruence.
Qed.

Lemma field_main_slot K r i p w p' w' :
  field_main K r (Z.of_nat i) p w = Some (p', w') ->
  (before_team (pc p) = true -> team p = 0) ->
  (after_team (pc p) = true -> team p <> 0) ->
  slots r (fSt w) !! i = Some (slot_of p) ->
  slots r (fSt w') !! i = Some (slot_of p').
Proof.
  intros H Hbefore Hafter Hslot. unfold slot_of in *.
  step_cases H; simpl in *.
  all: try (specialize (Hbefore eq_refl)); try (specialize (Hafter eq_refl)).
  all: repeat match goal with
       | H : semDown _ _ = Some _ |- _ => apply semDown_inv in H as (_ & -> & _)
       end.
  all: try match goal with
       | H : set_stat _ _ _ _ = Some _ |- _ =>
           apply set_stat_inv in H as (_ & _ & _ & _ & _ & _ & Hin & -> & _);
           rewrite Nat2Z.id; apply list_lookup_insert_eq; lia
       end.
  all: try done.
  all: try (rewrite Hteam in Hslot; done).
  all: try (subst; done).
  all: try (destruct (Z.eqb_spec team0 0); done).
Qed.

Lemma referee_main_stat q w q' w' :
  Referee.referee_main q w = Some (q', w') ->
  refereeStat (st (fSt w)) = referee_stat_of q ->
  refereeStat (st (fSt w')) = referee_stat_of q'.
Proof.
  intros H Hstat. step_cases H; simpl in *; try done.
  all: by apply semDown_inv in Hdown as (_ & -> & _).
Qed.

Lemma snapshot_inv_init K : snapshot_inv (init K).
Proof.
  split; [done|]. intros r i p Hp.
  destruct r; simpl in *; apply lookup_replicate in Hp as [-> Hi];
    by apply lookup_replicate.
Qed.

Lemma snapshot_inv_step K tr a s s' :
  consts_ok K -> reachable K tr s ->
  snapshot_inv s -> step K a s = Some s' -> snapshot_inv s'.
Proof.
  intros HK Hr [Href Hslots] Hs.
  destruct (teams_inv_reach K tr s HK Hr) as (Hok & _).
  destruct (actor_cases a) as [(r0 & i0 & ->)| ->].
  - destruct (step_field _ _ _ _ _ Hs) as (p & p' & Hp & Hm & Hpr & Hoth & Hrf).
    destruct (field_main_slots_frame _ _ _ _ _ _ _ Hm) as [Href' Hframe].
    split; [by rewrite Href', Hrf|].
    intros r i q Hq.
    destruct (procs_after_field_step _ _ _ _ _ _ _ _ Hs Hq)
      as [(-> & -> & p0 & Hp0 & Hm0)|[Hne Hq0]].
    + assert (p0 = p) as -> by congruence.
      destruct (Hok _ _ _ Hp) as (_ & Hb & Ha & _).
      eapply field_main_slot; eauto.
    + rewrite Hframe by done. auto.
  - destruct (step_referee _ _ _ Hs) as [Hm Hpr].
    destruct (referee_main_frame _ _ _ _ Hm) as (_ & _ & _ & Hsl).
    split; [by eapply referee_main_stat|].
    intros r i q Hq. rewrite Hpr in Hq. rewrite Hsl. auto.
Qed.

Lemma snapshot_inv_reach K tr s :
  consts_ok K -> reachable K tr s -> snapshot_inv s.
Proof.
  intros HK. induction 1 as [|tr s a l s' Hr IH _ Hs]; [apply snapshot_inv_init|].
  by eapply snapshot_inv_step.
Qed.

(** ** Every change is logged before the mutex is released *)

Lemma last_snoc_saveState w : last (logfile (saveState w)) = Some (fSt (saveState w)).
Proof. simpl. apply last_snoc. Qed.

Lemma field_main_saved K r id p w p' w' :
  field_main K r id p w = Some (p', w') ->
  (after_save (at_field (pc p')) = true -> last (logfile w') = Some (fSt w')) /\
  (in_cs (pc p) = true -> in_cs (pc p') = false ->
   after_save (at_field (pc p)) = true).
Proof.
  intros H. step_cases H; simpl; split; try done; intros _; apply last_snoc.
Qed.

Lemma referee_main_saved q w q' w' :
  Referee.referee_main q w = Some (q', w') ->
  (after_save (at_referee q') = true -> last (logfile w') = Some (fSt w')) /\
  (referee_in_cs q = true -> referee_in_cs q' = false ->
   after_save (at_referee q) = true).
Proof.
  intros H. step_cases H; simpl; split; try done; intros _; apply last_snoc.
Qed.

Lemma step_saved K a s s' l l' :
  step K a s = Some s' -> next_label a s = Some l -> next_label a s' = Some l' ->
  (after_save l' = true -> last (logfile (shared s')) = Some (fSt (shared s'))) /\
  (label_in_cs l = true -> label_in_cs l' = false -> after_save l = true).
Proof.
  intros Hs Hl Hl'. destruct (actor_cases a) as [(r & i & ->)| ->].
  - destruct (step_field _ _ _ _ _ Hs) as (p & p' & Hp & Hm & Hpr & _).
    rewrite next_label_field, Hp in Hl. simpl in Hl. injection Hl as <-.
    rewrite next_label_field, Hpr in Hl'.
    rewrite list_lookup_insert_eq in Hl' by (by eapply lookup_lt_Some).
    simpl in Hl'. injection Hl' as <-.
    by eapply field_main_saved.
  - destruct (step_referee _ _ _ Hs) as [Hm _].
    simpl in Hl, Hl'. injection Hl as <-. injection Hl' as <-.
    by eapply referee_main_saved.
Qed.

Lemma after_save_in_cs l : after_save l = true -> label_in_cs l = true.
Proof. by destruct l as [[[]|[]|[]|[]|]|[[]|[]|[]|[]|[]|]]. Qed.

Lemma log_inv_init K : log_inv K (init K).
Proof.
  split.
  - intros _. by left.
  - intros a l Hl Hsave. apply init_label in Hl. apply after_save_in_cs in Hsave.
    congruence.
Qed.

Lemma log_inv_step K a s s' :
  mutex_inv s -> mutex_inv s' ->
  log_inv K s -> step K a s = Some s' -> log_inv K s'.
Proof.
  intros (Hle & Hheld & Huniq & _) (Hle' & Hheld' & Huniq' & _) [Hfree Hsaved] Hs.
  destruct (step_mutex _ _ _ _ Hs) as (l & l' & Hl & Hl' & Hmove).
  destruct (step_saved _ _ _ _ _ _ Hs Hl Hl') as [Hnow Hrel].
  assert (Hlater : forall b lb, next_label b s' = Some lb -> after_save lb = true ->
            b <> a -> holds_mutex b s /\ next_label b s = Some lb).
  { intros b lb Hb Hsave Hne. rewrite (next_label_other _ _ _ _ _ Hs Hne) in Hb.
    split; [|done]. exists lb. split; [done|by apply after_save_in_cs]. }
  unfold log_inv, log_current in *.
  inversion Hmove as [Hm Hf Hg Hc Hc'|Hm Hc Hc'|Hm Hf Hg Hc Hc'|Hm Hf Hg Hc Hc'];
    symmetry in Hc, Hc'.
  - (* acquire *)
    split; [intros H1; lia|]. intros b lb Hb Hsave.
    destruct (decide (b = a)) as [->|Hne].
    + assert (lb = l') as -> by congruence. right. auto.
    + destruct (Hlater b lb Hb Hsave Hne) as [Hh _]. apply Hheld in Hh. lia.
  - (* inside *)
    assert (Ha : holds_mutex a s) by (by exists l).
    split; [intros H1; rewrite Hm, (Hheld a Ha) in H1; lia|].
    intros b lb Hb Hsave. destruct (decide (b = a)) as [->|Hne].
    + assert (lb = l') as -> by congruence. right. auto.
    + destruct (Hlater b lb Hb Hsave Hne) as [Hh _]. destruct Hne. by apply Huniq.
  - (* release *)
    assert (Ha : holds_mutex a s) by (by exists l).
    split.
    + intros _. rewrite Hf, Hg. apply (Hsaved a l Hl). auto.
    + intros b lb Hb Hsave. destruct (decide (b = a)) as [->|Hne].
      * assert (lb = l') as -> by congruence. apply after_save_in_cs in Hsave. congruence.
      * destruct (Hlater b lb Hb Hsave Hne) as [Hh _]. destruct Hne. by apply Huniq.
  - (* outside *)
    rewrite Hf, Hg, Hm. split; [done|].
    intros b lb Hb Hsave. destruct (decide (b = a)) as [->|Hne].
    + assert (lb = l') as -> by congruence. apply after_save_in_cs in Hsave. congruence.
    + destruct (Hlater b lb Hb Hsave Hne) as [_ Hb0]. by apply (Hsaved b lb).
Qed.

Lemma log_inv_reach K tr s : reachable K tr s -> log_inv K s.
Proof.
  induction 1 as [|tr s a l s' Hr IH _ Hs]; [apply log_inv_init|].
  eapply log_inv_step; eauto.
  - by eapply mutex_inv_reach.
  - eapply mutex_inv_step; [|done]. by eapply mutex_inv_reach.
Qed.

(** ** The signals of the referee are taken once *)

Section Signal.

Variable sem : semaphore.
Variable got : field_proc -> bool.
Variable notified : Referee.referee_pc -> bool.

Hypothesis field_local : forall K r id p w p' w',
  field_main K r id p w = Some (p', w') ->
  (semval sem w' = semval sem w /\ (got p' = true -> got p = true)) \/
  (semval sem w = S (semval sem w') /\ got p = false).

Hypothesis referee_local : forall q w q' w',
  Referee.referee_main q w = Some (q', w') ->
  (semval sem w' = semval sem w /\ notified q' = notified q) \/
  (semval sem w' = S (semval sem w) /\ notified q = false /\ notified q' = true).

Hypothesis sem_init : forall K, semval sem (shared (init K)) = O.
Hypothesis got_init : got {| pc := in_arrive arrive_down; team := 0 |} = false.

Lemma signal_inv_init K : signal_inv sem got notified (init K).
Proof using sem_init got_init.
  assert (Hnone : forall r i p, procs r (init K) !! i = Some p -> got p = false).
  { intros r i p Hp. destruct r; simpl in Hp;
      apply lookup_replicate in Hp as [-> _]; apply got_init. }
  split; [|split; [|split]].
  - intros _. split; [apply sem_init|done].
  - rewrite sem_init. lia.
  - intros _. done.
  - intros r i p r' j q Hp Hq Hgp. rewrite (Hnone _ _ _ Hp) in Hgp. done.
Qed.

Lemma signal_inv_step K a s s' :
  signal_inv sem got notified s -> step K a s = Some s' ->
  signal_inv sem got notified s'.
Proof using field_local referee_local.
  intros (Hnot & Hle & Hone & Huniq) Hs. unfold signal_inv.
  destruct (actor_cases a) as [(r0 & i0 & ->)| ->].
  - destruct (step_field _ _ _ _ _ Hs) as (p0 & p0' & Hp0 & Hm & Hpr & Hoth & Hrf).
    assert (Hback : forall r i p, procs r s' !! i = Some p ->
              ((r, i) = (r0, i0) /\ p = p0') \/ procs r s !! i = Some p).
    { intros r i p Hp.
      destruct (procs_after_field_step _ _ _ _ _ _ _ _ Hs Hp)
        as [(-> & -> & p1 & Hp1 & Hm1)|[_ Hsame]]; [left|by right].
      split; [done|]. congruence. }
    rewrite Hrf. destruct (field_local _ _ _ _ _ _ _ Hm) as [[Hv Hgot]|[Hv Hgot]].
    + assert (Hold : forall r i p, procs r s' !! i = Some p -> got p = true ->
                exists p1, procs r s !! i = Some p1 /\ got p1 = true).
      { intros r i p Hp Hg. destruct (Hback _ _ _ Hp) as [[Heq ->]|Hsame].
        - injection Heq as -> ->. exists p0. auto.
        - by exists p. }
      assert (Hnone : (forall r i p, procs r s !! i = Some p -> got p = false) ->
                forall r i p, procs r s' !! i = Some p -> got p = false).
      { intros Hall r i p Hp. destruct (got p) eqn:Hg; [|done].
        destruct (Hold _ _ _ Hp Hg) as (p1 & Hp1 & Hg1).
        by rewrite (Hall _ _ _ Hp1) in Hg1. }
      rewrite Hv. split; [|split; [|split]].
      * intros Hn. destruct (Hnot Hn) as [H0 Hall]. split; [done|by apply Hnone].
      * done.
      * intros H1. by apply Hnone, Hone.
      * intros r i p r' j q Hp Hq Hgp Hgq.
        destruct (Hold _ _ _ Hp Hgp) as (p1 & Hp1 & Hg1).
        destruct (Hold _ _ _ Hq Hgq) as (q1 & Hq1 & Hg2).
        by apply (Huniq r i p1 r' j q1).
    + assert (H1 : semval sem (shared s) = 1%nat) by lia.
      assert (H0 : semval sem (shared s') = O) by lia.
      pose proof (Hone H1) as Hall.
      assert (Honly : forall r i p, procs r s' !! i = Some p -> got p = true ->
                (r, i) = (r0, i0)).
      { intros r i p Hp Hg. destruct (Hback _ _ _ Hp) as [[Heq _]|Hsame]; [done|].
        by rewrite (Hall _ _ _ Hsame) in Hg. }
      rewrite H0. split; [|split; [|split]].
      * intros Hn. destruct (Hnot Hn) as [Hz _]. lia.
      * lia.
      * done.
      * intros r i p r' j q Hp Hq Hgp Hgq.
        rewrite (Honly _ _ _ Hp Hgp), (Honly _ _ _ Hq Hgq). done.
  - destruct (step_referee _ _ _ Hs) as [Hm Hpr].
    assert (Hsame : forall r i p, procs r s' !! i = Some p -> procs r s !! i = Some p).
    { intros r i p. by rewrite Hpr. }
    destruct (referee_local _ _ _ _ Hm) as [[Hv Hn]|(Hv & Hn & Hn')].
    + rewrite Hv, Hn. split; [|split; [|split]].
      * intros Hf. destruct (Hnot Hf) as [H0 Hall]. split; [done|].
        intros r i p Hp. by eapply Hall, Hsame.
      * done.
      * intros H1 r i p Hp. by eapply (Hone H1), Hsame.
      * intros r i p r' j q Hp Hq. apply Huniq; by apply Hsame.
    + destruct (Hnot Hn) as [H0 Hall]. rewrite Hv, H0, Hn'.
      split; [done|]. split; [lia|]. split.
      { intros _ r i p Hp. by eapply Hall, Hsame. }
      intros r i p r' j q Hp Hq Hgp. by rewrite (Hall _ _ _ (Hsame _ _ _ Hp)) in Hgp.
Qed.

Lemma signal_inv_reach K tr s :
  reachable K tr s -> signal_inv sem got notified s.
Proof using field_local referee_local sem_init got_init.
  induction 1 as [|tr s a l s' Hr IH Hl Hs]; [apply signal_inv_init|].
  by eapply signal_inv_step.
Qed.

End Signal.

Ltac sem_facts :=
  repeat match goal with
  | H : forall s', s' <> ?s -> semval s' ?w' = semval s' ?w |- _ =>
      let H1 := fresh in let H2 := fresh in let H3 := fresh in
      try (assert (H1 := H mutex ltac:(done)); simpl in H1);
      try (assert (H2 := H playersWaitReferee ltac:(done)); simpl in H2);
      try (assert (H3 := H playersWaitEnd ltac:(done)); simpl in H3);
      clear H
  end.

Lemma field_main_start_signal K r id p w p' w' :
  field_main K r id p w = Some (p', w') ->
  (semval playersWaitReferee w' = semval playersWaitReferee w /\
   (got_start p' = true -> got_start p = true)) \/
  (semval playersWaitReferee w = S (semval playersWaitReferee w') /\ got_start p = false).
Proof.
  intros H. unfold got_start.
  step_cases H; world_facts; sem_facts; simpl in *;
    first [ right; split; [done|done]
          | left; split; [congruence|];
            try rewrite Hteam; simpl; done ].
Qed.

Lemma field_main_end_signal K r id p w p' w' :
  field_main K r id p w = Some (p', w') ->
  (semval playersWaitEnd w' = semval playersWaitEnd w /\
   (got_end p' = true -> got_end p = true)) \/
  (semval playersWaitEnd w = S (semval playersWaitEnd w') /\ got_end p = false).
Proof.
  intros H. unfold got_end.
  step_cases H; world_facts; sem_facts; simpl in *;
    first [ right; split; [done|done]
          | left; split; [congruence|];
            try rewrite Hteam; simpl; done ].
Qed.

Lemma referee_main_start_signal q w q' w' :
  Referee.referee_main q w = Some (q', w') ->
  (semval playersWaitReferee w' = semval playersWaitReferee w /\
   start_notified q' = start_notified q) \/
  (semval playersWaitReferee w' = S (semval playersWaitReferee w) /\
   start_notified q = false /\ start_notified q' = true).
Proof.
  intros H. step_cases H; world_facts; sem_facts; simpl in *;
    first [ right; by repeat split | left; split; [congruence|done] ].
Qed.

Lemma referee_main_end_signal q w q' w' :
  Referee.referee_main q w = Some (q', w') ->
  (semval playersWaitEnd w' = semval playersWaitEnd w /\
   end_notified q' = end_notified q) \/
  (semval playersWaitEnd w' = S (semval playersWaitEnd w) /\
   end_notified q = false /\ end_notified q' = true).
Proof.
  intros H. step_cases H; world_facts; sem_facts; simpl in *;
    first [ right; by repeat split | left; split; [congruence|done] ].
Qed.

Lemma start_signal_reach K tr s :
  reachable K tr s -> signal_inv playersWaitReferee got_start start_notified s.
Proof.
  apply signal_inv_reach; try done.
  - intros. by eapply field_main_start_signal.
  - apply referee_main_start_signal.
Qed.

Lemma end_signal_reach K tr s :
  reachable K tr s -> signal_inv playersWaitEnd got_end end_notified s.
Proof.
  apply signal_inv_reach; try done.
  - intros. by eapply field_main_end_signal.
  - apply referee_main_end_signal.
Qed.

(** ** The referee leaves [waitForTeams] after two leader branches *)

Lemma referee_main_poll q w q' w' :
  Referee.referee_main q w = Some (q', w') ->
  past_poll q' = true -> past_poll q = true \/ 3 <= teamId (fSt w).
Proof.
  intros H Hpast. step_cases H; simpl in *; try done; try (by left).
  right. apply Z.ltb_ge in Hpoll. done.
Qed.

Lemma poll_reach K tr s :
  consts_ok K -> reachable K tr s ->
  past_poll (referee s) = true -> 2 <= teams_formed tr.
Proof.
  intros HK Hr. induction Hr as [|tr s a l s' Hr IH Hl Hs]; [done|].
  intros Hpast.
  assert (Hmono : teams_formed tr <= teams_formed ((a, l) :: tr)).
  { simpl. destruct (is_leader_event (a, l)); lia. }
  destruct (actor_cases a) as [(r0 & i0 & ->)| ->].
  - destruct (step_field _ _ _ _ _ Hs) as (_ & _ & _ & _ & _ & _ & Hrf).
    rewrite Hrf in Hpast. specialize (IH Hpast). lia.
  - destruct (step_referee _ _ _ Hs) as [Hm _].
    destruct (referee_main_poll _ _ _ _ Hm Hpast) as [Hold|Hid].
    + specialize (IH Hold). lia.
    + pose proof (counts_inv_reach _ _ _ HK Hr) as (Heq & _). lia.
Qed.

(** ** The leaders of the teams *)

Lemma field_main_team K r id p w p' w' :
  field_main K r id p w = Some (p', w') ->
  (before_team (pc p) = true -> team p = 0) ->
  team p' = if is_leader_label (at_field (pc p)) then teamId (fSt w) else team p.
Proof.
  intros H Hbefore. step_cases H; simpl in *; try done.
  symmetry. by apply Hbefore.
Qed.

Lemma leaders_reach K tr s :
  consts_ok K -> reachable K tr s -> leaders_inv tr s.
Proof.
  intros HK Hr. induction Hr as [|tr s a l s' Hr IH Hl Hs].
  - intros t Ht. simpl in Ht. lia.
  - intros t Ht.
    pose proof (counts_inv_reach _ _ _ HK Hr) as (Hid & HL & _).
    destruct (teams_inv_reach _ _ _ HK Hr) as (Hok & _).
    destruct (actor_cases a) as [(r0 & i0 & ->)| ->].
    + destruct (step_field _ _ _ _ _ Hs) as (p0 & p0' & Hp0 & Hm & Hpr & Hoth & _).
      destruct (Hok _ _ _ Hp0) as (_ & Hbefore & _).
      pose proof (field_main_team _ _ _ _ _ _ _ Hm Hbefore) as Hteam.
      rewrite next_label_field, Hp0 in Hl. simpl in Hl. injection Hl as <-.
      assert (Hnew : procs r0 s' !! i0 = Some p0').
      { rewrite Hpr. apply list_lookup_insert_eq. by eapply lookup_lt_Some. }
      cbn [teams_formed] in Ht. unfold is_leader_event in Ht. cbn [snd] in Ht.
      destruct (decide (t <= teams_formed tr)) as [Hold|Hlast].
      * destruct (IH t ltac:(lia)) as (r & i & p & Hp & Ht').
        destruct (decide ((r, i) = (r0, i0))) as [Heq|Hne].
        -- injection Heq as -> ->. assert (p = p0) as -> by congruence.
           exists r0, i0, p0'. split; [done|].
           destruct (is_leader_label (at_field (pc p0))) eqn:Hlead; [|congruence].
           assert (Hb : before_team (pc p0) = true).
           { by destruct (pc p0) as [[]|[]|[]|[]|]. }
           specialize (Hbefore Hb). lia.
        -- exists r, i, p. split; [|done].
           destruct (decide (r = r0)) as [->|Hr0].
           ++ rewrite Hpr, list_lookup_insert_ne; [done|congruence].
           ++ by rewrite Hoth.
      * destruct (is_leader_label (at_field (pc p0))) eqn:Hlead; [|lia].
        exists r0, i0, p0'. split; [done|]. lia.
    + destruct (step_referee _ _ _ Hs) as [_ Hpr].
      simpl in Hl. injection Hl as <-.
      assert (Hsame : teams_formed ((TheReferee, at_referee (referee s)) :: tr)
                      = teams_formed tr) by done.
      rewrite Hsame in Ht. destruct (IH t Ht) as (r & i & p & Hp & Ht').
      exists r, i, p. by rewrite Hpr.
Qed.

(** ** One record for every [saveState] *)

Lemma field_main_log K r id p w p' w' :
  field_main K r id p w = Some (p', w') ->
  logfile w' = (if is_save_label (at_field (pc p)) then logfile w ++ [fSt w'] else logfile w).
Proof.
  intros H. step_cases H; world_facts; simpl in *; congruence.
Qed.

Lemma referee_main_log q w q' w' :
  Referee.referee_main q w = Some (q', w') ->
  logfile w' = (if is_save_label (at_referee q) then logfile w ++ [fSt w'] else logfile w).
Proof.
  intros H. step_cases H; world_facts; simpl in *; congruence.
Qed.

Lemma step_log K a s s' l :
  step K a s = Some s' -> next_label a s = Some l ->
  logfile (shared s') =
    (if is_save_label l then logfile (shared s) ++ [fSt (shared s')]
     else logfile (shared s)).
Proof.
  intros Hs Hl. destruct (actor_cases a) as [(r & i & ->)| ->].
  - destruct (step_field _ _ _ _ _ Hs) as (p & p' & Hp & Hm & _).
    rewrite next_label_field, Hp in Hl. simpl in Hl. injection Hl as <-.
    by eapply field_main_log.
  - destruct (step_referee _ _ _ Hs) as [Hm _]. simpl in Hl. injection Hl as <-.
    by eapply referee_main_log.
Qed.

Lemma saves_reach K tr s :
  reachable K tr s -> length (logfile (shared s)) = saves tr.
Proof.
  induction 1 as [|tr s a l s' Hr IH Hl Hs]; [done|].
  rewrite (step_log _ _ _ _ _ Hs Hl). simpl.
  destruct (is_save_label l); [|done].
  rewrite length_app. simpl. lia.
Qed.

(** What holds of the snapshot in every state of the runs holds of every
    record of their logs. *)
Lemma log_records K (P : FULL_STAT -> Prop) :
  (forall tr s, reachable K tr s -> P (fSt (shared s))) ->
  forall tr s f, reachable K tr s -> f ∈ logfile (shared s) -> P f.
Proof.
  intros HP tr s f Hr. induction Hr as [|tr s a l s' Hr IH Hl Hs].
  - simpl. by intros ?%elem_of_nil.
  - rewrite (step_log _ _ _ _ _ Hs Hl). destruct (is_save_label l); [|done].
    intros [Hin|Hlast%list_elem_of_singleton]%elem_of_app; [by apply IH|].
    subst f. apply (HP ((a, l) :: tr)). by econstructor.
Qed.

(** ** The phases of the game in the snapshot *)

Lemma slot_playing p : slot_of p = PLAYING -> got_start p = true.
Proof.
  unfold slot_of, got_start.
  destruct (pc p) as [[]|[]|[]|[]|]; try done; by destruct (team p =? 0).
Qed.

Lemma slot_ending p : slot_of p = ENDING_GAME -> got_end p = true.
Proof.
  unfold slot_of, got_end.
  destruct (pc p) as [[]|[]|[]|[]|]; try done; by destruct (team p =? 0).
Qed.

Lemma slot_in_game p : in_game (slot_of p) = true -> got_start p = true.
Proof.
  unfold slot_of, got_start.
  destruct (pc p) as [[]|[]|[]|[]|]; try done; by destruct (team p =? 0).
Qed.

Lemma slot_has_proc K tr s r i v :
  consts_ok K -> reachable K tr s ->
  slots r (fSt (shared s)) !! i = Some v ->
  exists p, procs r s !! i = Some p /\ v = slot_of p.
Proof.
  intros HK Hr Hv. destruct (shape_inv_reach _ _ _ Hr) as (HpS & HgS & HpP & HgP).
  destruct (snapshot_inv_reach _ _ _ HK Hr) as [_ Hslots].
  destruct (lookup_lt_is_Some_2 (procs r s) i) as [p Hp].
  { apply lookup_lt_Some in Hv. destruct r; simpl in *; lia. }
  exists p. split; [done|]. rewrite (Hslots _ _ _ Hp) in Hv. congruence.
Qed.

Lemma phases_agree_reach K tr s :
  consts_ok K -> reachable K tr s -> phases_agree (fSt (shared s)).
Proof.
  intros HK Hr. destruct (snapshot_inv_reach _ _ _ HK Hr) as [Href _].
  destruct (start_signal_reach _ _ _ Hr) as (Hs1 & _).
  destruct (end_signal_reach _ _ _ Hr) as (He1 & _).
  split; intros r i Hv; destruct (slot_has_proc _ _ _ _ _ _ HK Hr Hv) as (p & Hp & Hslot).
  - symmetry in Hslot. apply slot_playing in Hslot. rewrite Href.
    destruct (start_notified (referee s)) eqn:Hn.
    + by destruct (referee s) as [[]|[]|[]|[]|[]|].
    + destruct (Hs1 eq_refl) as [_ Hall]. rewrite (Hall _ _ _ Hp) in Hslot. done.
  - symmetry in Hslot. apply slot_ending in Hslot. rewrite Href.
    destruct (end_notified (referee s)) eqn:Hn.
    + by destruct (referee s) as [[]|[]|[]|[]|[]|].
    + destruct (He1 eq_refl) as [_ Hall]. rewrite (Hall _ _ _ Hp) in Hslot. done.
Qed.

(** ** The operations called alone *)

Lemma poll_spins w :
  teamId (fSt w) < 3 ->
  forall fuel, call Referee.waitForTeams fuel Referee.wt_poll w = None.
Proof.
  intros Hlt. induction fuel as [|n IH]; [done|].
  simpl. by rewrite (proj2 (Z.ltb_lt _ _) Hlt).
Qed.

Lemma blocked_call {L S : Type} (f : L -> S -> option (option L * S)) l s :
  f l s = None -> forall fuel, call f fuel l s = None.
Proof. intros H [|n]; [done|]. simpl. by rewrite H. Qed.

Lemma critical_section_call r id v w n :
  0 <= id < Z.of_nat (length (slots r (fSt w))) ->
  semval mutex w = S n ->
  exists w1 w2,
    semDown mutex w = Some w1 /\ set_stat r id v w1 = Some w2 /\
    slots r (fSt (semUp mutex (saveState w2))) !! Z.to_nat id = Some v /\
    logfile (semUp mutex (saveState w2))
      = logfile w ++ [fSt (semUp mutex (saveState w2))] /\
    forall sem, semval sem (semUp mutex (saveState w2)) = semval sem w.
Proof.
  intros Hid Hv.
  set (w1 := {| fSt := fSt w; sems := set_semval mutex n (sems w); logfile := logfile w |}).
  destruct (set_stat_defined r id v w1 Hid) as (w2 & Hset & Hslot).
  exists w1, w2. split; [by unfold semDown; rewrite Hv|]. split; [done|].
  apply set_stat_inv in Hset as (Hsems & Hlog & _).
  split; [done|]. split; [by simpl; rewrite Hlog|].
  intros []; simpl; rewrite Hsems; simpl; done.
Qed.

(** ** The snapshot never goes back *)

Lemma stat_le_refl v : stat_le v v = true.
Proof. by destruct v. Qed.

Lemma stat_le_trans a b c : stat_le a b = true -> stat_le b c = true -> stat_le a c = true.
Proof. destruct a, b, c; simpl; done. Qed.

Lemma snapshot_le_refl f : snapshot_le f f.
Proof.
  split; [lia|]. split; [lia|]. split; [lia|]. split; [apply stat_le_refl|].
  intros r. split; [done|]. intros i v v' Hv Hv'.
  assert (v = v') as -> by congruence. apply stat_le_refl.
Qed.

Lemma snapshot_le_trans f g h : snapshot_le f g -> snapshot_le g h -> snapshot_le f h.
Proof.
  intros (Hp1 & Hg1 & Ht1 & Hr1 & Hs1) (Hp2 & Hg2 & Ht2 & Hr2 & Hs2).
  split; [lia|]. split; [lia|]. split; [lia|].
  split; [by eapply stat_le_trans|].
  intros r. destruct (Hs1 r) as [Hl1 Hle1]. destruct (Hs2 r) as [Hl2 Hle2].
  split; [congruence|]. intros i v v'' Hv Hv''.
  destruct (lookup_lt_is_Some_2 (slots r g) i) as [v' Hv'].
  { rewrite <- Hl1. by eapply lookup_lt_Some. }
  eapply stat_le_trans; [by eapply Hle1|by eapply Hle2].
Qed.

Lemma field_main_forward K r id p w p' w' :
  field_main K r id p w = Some (p', w') ->
  (before_team (pc p) = true -> team p = 0) ->
  (after_team (pc p) = true -> team p <> 0) ->
  stat_le (slot_of p) (slot_of p') = true.
Proof.
  intros H Hbefore Hafter. unfold slot_of.
  step_cases H; simpl in *; try done.
  all: try (specialize (Hbefore eq_refl)); try (specialize (Hafter eq_refl)).
  all: try match goal with
       | Ht : (_ =? 0) = true |- _ => apply Z.eqb_eq in Ht
       | Ht : (_ =? 0) = false |- _ => apply Z.eqb_neq in Ht
       end.
  all: try done.
  all: try (subst; done).
  all: match goal with
       | Hne : ?t <> 0 |- _ => apply Z.eqb_neq in Hne; by rewrite Hne
       end.
Qed.

Lemma referee_main_forward q w q' w' :
  Referee.referee_main q w = Some (q', w') ->
  stat_le (referee_stat_of q) (referee_stat_of q') = true.
Proof. intros H. by step_cases H. Qed.

Lemma step_forward K tr a s s' :
  consts_ok K -> reachable K tr s -> step K a s = Some s' ->
  snapshot_le (fSt (shared s)) (fSt (shared s')).
Proof.
  intros HK Hr Hs.
  destruct (step_mutex _ _ _ _ Hs) as (l & _ & Hl & _).
  assert (Hr' : reachable K ((a, l) :: tr) s') by (by econstructor).
  pose proof (counts_inv_reach _ _ _ HK Hr) as Hc.
  pose proof (counts_inv_reach _ _ _ HK Hr') as (Hid' & _).
  pose proof Hc as (Hid & _).
  destruct (snapshot_inv_reach _ _ _ HK Hr) as [Href Hslots].
  destruct (snapshot_inv_reach _ _ _ HK Hr') as [Href' Hslots'].
  destruct (shape_inv_reach _ _ _ Hr) as (HpS & HgS & _).
  destruct (shape_inv_reach _ _ _ Hr') as (HpS' & HgS' & _).
  destruct (teams_inv_reach _ _ _ HK Hr) as (Hok & _).
  assert (Hlen : forall r, length (slots r (fSt (shared s)))
                         = length (slots r (fSt (shared s')))).
  { intros []; simpl; congruence. }
  assert (Hteam : teamId (fSt (shared s)) <= teamId (fSt (shared s'))).
  { rewrite Hid, Hid'. simpl. destruct (is_leader_event (a, l)); lia. }
  destruct (actor_cases a) as [(r0 & i0 & ->)| ->].
  - destruct (step_field _ _ _ _ _ Hs) as (p0 & p0' & Hp0 & Hm & Hpr & Hoth & Hrf).
    pose proof (counts_inv_local _ _ _ _ _ Hc Hl) as Hloc.
    rewrite next_label_field, Hp0 in Hl. simpl in Hl. injection Hl as <-.
    destruct (field_main_frame _ _ _ _ _ _ _ _ HK Hm Hloc) as (HpF & HgF & _).
    split; [done|]. split; [done|]. split; [done|].
    split; [rewrite Href, Href', Hrf; apply stat_le_refl|].
    intros r. split; [done|]. intros i v v' Hv Hv'.
    destruct (slot_has_proc _ _ _ _ _ _ HK Hr Hv) as (p & Hp & ->).
    destruct (slot_has_proc _ _ _ _ _ _ HK Hr' Hv') as (p' & Hp' & ->).
    destruct (procs_after_field_step _ _ _ _ _ _ _ _ Hs Hp')
      as [(-> & -> & p1 & Hp1 & Hm1)|[_ Hsame]].
    + assert (p1 = p) as -> by congruence.
      destruct (Hok _ _ _ Hp) as (_ & Hbefore & Hafter & _).
      by eapply field_main_forward.
    + assert (p' = p) as -> by congruence. apply stat_le_refl.
  - destruct (step_referee _ _ _ Hs) as [Hm Hpr].
    destruct (referee_main_frame _ _ _ _ Hm) as (HpF & HgF & HtI & Hsl).
    split; [lia|]. split; [lia|]. split; [done|].
    split; [rewrite Href, Href'; by eapply referee_main_forward|].
    intros r. split; [done|]. intros i v v' Hv Hv'.
    rewrite Hsl in Hv'. assert (v = v') as -> by congruence. apply stat_le_refl.
Qed.

Lemma history_reach K tr s :
  consts_ok K -> reachable K tr s -> history_inv (shared s).
Proof.
  intros HK Hr. induction Hr as [|tr s a l s' Hr IH Hl Hs].
  - split.
    + simpl. by intros f ?%elem_of_nil.
    + simpl. intros i j f g _ Hf. by rewrite lookup_nil in Hf.
  - destruct IH as [Hcur Hsorted].
    pose proof (step_forward _ _ _ _ _ HK Hr Hs) as Hfw.
    assert (Hcur' : forall f, f ∈ logfile (shared s) ->
              snapshot_le f (fSt (shared s'))).
    { intros f Hf. eapply snapshot_le_trans; [by apply Hcur|done]. }
    unfold history_inv. rewrite (step_log _ _ _ _ _ Hs Hl).
    destruct (is_save_label l); [|by split].
    split.
    + intros f [Hin|Hlast%list_elem_of_singleton]%elem_of_app; [by apply Hcur'|].
      subst f. apply snapshot_le_refl.
    + intros i j f g Hij Hf Hg.
      apply lookup_app_Some in Hf as [Hf|[Hi Hf]];
        apply lookup_app_Some in Hg as [Hg|[Hj Hg]].
      * by eapply Hsorted.
      * apply list_lookup_singleton_Some in Hg as [_ <-].
        apply Hcur'. by eapply list_elem_of_lookup_2.
      * apply lookup_lt_Some in Hg. lia.
      * apply list_lookup_singleton_Some in Hf as [_ <-].
        apply list_lookup_singleton_Some in Hg as [_ <-].
        apply snapshot_le_refl.
Qed.

(** ** How a run can stop *)

Lemma holder_steps K tr s a l :
  reachable K tr s -> next_label a s = Some l -> label_in_cs l = true ->
  is_Some (step K a s).
Proof.
  intros Hr Hl Hcs. pose proof (step_stuck K tr s a l Hr Hl) as Hiff.
  destruct (step K a s) as [s'|] eqn:Hs; [by eexists|exfalso].
  pose proof (proj1 Hiff eq_refl) as Hst. unfold stuck in Hst.
  by destruct l as [[[]|[]|[]|[]|]|[[]|[]|[]|[]|[]|]].
Qed.

(** Of the leaders of the first two teams, one has not got the start
    signal. *)
Lemma leader_left_behind K tr s :
  consts_ok K -> reachable K tr s -> past_poll (referee s) = true ->
  exists r i p, procs r s !! i = Some p /\ team p <> 0 /\ got_start p = false.
Proof.
  intros HK Hr Hpast. pose proof (poll_reach _ _ _ HK Hr Hpast) as H2.
  destruct (leaders_reach _ _ _ HK Hr 1 ltac:(lia)) as (r1 & i1 & p1 & Hp1 & Ht1).
  destruct (leaders_reach _ _ _ HK Hr 2 ltac:(lia)) as (r2 & i2 & p2 & Hp2 & Ht2).
  destruct (start_signal_reach _ _ _ Hr) as (_ & _ & _ & Huniq).
  destruct (got_start p1) eqn:Hg1.
  - destruct (got_start p2) eqn:Hg2.
    + pose proof (Huniq _ _ _ _ _ _ Hp1 Hp2 Hg1 Hg2) as Heq.
      injection Heq as -> ->. assert (p1 = p2) by congruence. subst. lia.
    + exists r2, i2, p2. split; [done|]. split; [lia|done].
  - exists r1, i1, p1. split; [done|]. split; [lia|done].
Qed.

Lemma not_started_not_exited p :
  team p <> 0 -> got_start p = false -> pc p <> exited.
Proof.
  intros Ht Hg Hpc. unfold got_start in Hg. rewrite Hpc in Hg.
  apply Z.eqb_neq in Ht. by rewrite Ht in Hg.
Qed.

(** ** The length of the runs *)







(** ** LATE closes the teams *)

Lemma slot_late p : slot_of p = LATE -> wrote_late p.
Proof.
  unfold slot_of, wrote_late.
  destruct (pc p) as [[]|[]|[]|[]|]; try done;
    destruct (Z.eqb_spec (team p) 0); done.
Qed.

Lemma wrote_late_took p : wrote_late p -> took_late_branch p.
Proof. unfold wrote_late, took_late_branch. by destruct (pc p) as [[]|[]|[]|[]|]. Qed.

Lemma late_closed K tr s :
  consts_ok K -> reachable K tr s ->
  shows_late (fSt (shared s)) -> not_enough_free K (fSt (shared s)).
Proof.
  intros HK Hr (r & i & Hv).
  destruct (slot_has_proc _ _ _ _ _ _ HK Hr Hv) as (p & Hp & Hslot).
  destruct (teams_inv_reach _ _ _ HK Hr) as (Hok & _).
  destruct (Hok _ _ _ Hp) as (_ & _ & _ & Hlate & _).
  apply Hlate, wrote_late_took, slot_late. done.
Qed.

(** ** [constituteTeam] from its entry *)

Lemma leader_branch_from_entry K r id w n :
  semval mutex w = S n ->
  enough_free K (fSt w) = true ->
  0 <= id < Z.of_nat (length (slots r (fSt w))) ->
  exists w',
    call (constituteTeam_body K r id) 8 ct_down (0, w) = Some (teamId (fSt w), w') /\
    teamId (fSt w') = CInt.add (teamId (fSt w)) 1 /\
    playersFree (fSt w') = CInt.sub (playersFree (fSt w)) (NUMTEAMPLAYERS K) /\
    goaliesFree (fSt w') = CInt.sub (goaliesFree (fSt w)) (NUMTEAMGOALIES K) /\
    slots r (fSt w') !! Z.to_nat id = Some FORMING_TEAM /\
    logfile w' = logfile w ++ [fSt w'] /\
    forall sem, semval sem w' = semval sem w.
Proof.
  intros Hv Hfree Hid.
  destruct (semDown mutex w) as [w1|] eqn:Hdown;
    [|by apply semDown_None in Hdown; rewrite Hdown in Hv].
  pose proof Hdown as Hd. apply semDown_inv in Hd as (Hm1 & Hf1 & Hl1 & Ho1).
  assert (Hfree1 : enough_free K (fSt w1) = true) by (by rewrite Hf1).
  set (w3 := set_goaliesFree (CInt.sub (goaliesFree (fSt w1)) (NUMTEAMGOALIES K))
               (set_playersFree (CInt.sub (playersFree (fSt w1)) (NUMTEAMPLAYERS K))
                  (set_teamId (CInt.add (teamId (fSt w1)) 1) w1))).
  destruct (set_stat_defined r id FORMING_TEAM w3) as (w4 & Hset & Hslot).
  { rewrite <- Hf1 in Hid. by destruct r. }
  exists (semUp mutex (saveState w4)).
  apply set_stat_inv in Hset as Hfacts.
  destruct Hfacts as (Hsems & Hlog & HpF & HgF & HtI & _).
  split.
  - unfold call, constituteTeam_body. cbn [constituteTeam fst snd mbind option_bind].
    rewrite Hdown. cbn [constituteTeam fst snd mbind option_bind].
    rewrite Hfree1. cbn [constituteTeam fst snd mbind option_bind].
    match goal with
    | |- context [set_stat r id FORMING_TEAM ?x] => change x with w3
    end.
    rewrite Hset. cbn [mbind option_bind]. by rewrite Hf1.
  - simpl. rewrite HtI, HpF, HgF, Hlog. simpl. rewrite Hf1, Hl1.
    do 5 (split; [done|]).
    intros sem. destruct sem; simpl; rewrite Hsems; simpl.
    + simpl in Hm1. congruence.
    + by apply (Ho1 playersWaitReferee).
    + by apply (Ho1 playersWaitEnd).
Qed.

(** ** The simple operations from their entries *)

Lemma call_only_own_slot r id fuel w w' :
  call (arrive r id) fuel arrive_down w = Some w' \/
  call (waitReferee r id) fuel wr_wait w = Some w' \/
  call (playUntilEnd r id) fuel pe_wait w = Some w' ->
  only_own_slot r id (fSt w) (fSt w').
Proof.
  intros [H|[H|H]];
    refine (call_ind_rel _ (fun w1 w2 => only_own_slot r id (fSt w1) (fSt w2))
              _ _ _ _ _ _ _ H);
    eauto using only_own_slot_refl, only_own_slot_trans, arrive_only_own_slot,
      waitReferee_only_own_slot, playUntilEnd_only_own_slot.
Qed.

Lemma arrive_returns r id w :
  0 <= id < Z.of_nat (length (slots r (fSt w))) -> semval mutex w <> O ->
  exists w', call (arrive r id) 4 arrive_down w = Some w' /\
    slots r (fSt w') !! Z.to_nat id = Some ARRIVING.
Proof.
  intros Hid Hm. destruct (semval mutex w) as [|m] eqn:Hv; [done|].
  destruct (critical_section_call r id ARRIVING w m Hid Hv)
    as (w1 & w2 & Hdown & Hset & Hslot & _).
  eexists. split; [|exact Hslot].
  unfold call, arrive. rewrite Hdown. cbn [mbind option_bind]. by rewrite Hset.
Qed.

Lemma waitReferee_returns r id w :
  0 <= id < Z.of_nat (length (slots r (fSt w))) -> semval mutex w <> O ->
  semval playersWaitReferee w <> O ->
  exists w', call (waitReferee r id) 5 wr_wait w = Some w' /\
    slots r (fSt w') !! Z.to_nat id = Some PLAYING.
Proof.
  intros Hid Hm Hs. destruct (semval mutex w) as [|m] eqn:Hv; [done|].
  destruct (semval playersWaitReferee w) as [|n] eqn:Hn; [done|].
  set (w0 := {| fSt := fSt w; sems := set_semval playersWaitReferee n (sems w);
                logfile := logfile w |}).
  destruct (critical_section_call r id PLAYING w0 m Hid Hv)
    as (w1 & w2 & Hdown & Hset & Hslot & _).
  eexists. split; [|exact Hslot].
  assert (Hd0 : semDown playersWaitReferee w = Some w0) by (unfold semDown; by rewrite Hn).
  unfold call, waitReferee. rewrite Hd0. cbn [mbind option_bind].
  rewrite Hdown. cbn [mbind option_bind]. by rewrite Hset.
Qed.

Lemma playUntilEnd_returns r id w :
  0 <= id < Z.of_nat (length (slots r (fSt w))) -> semval mutex w <> O ->
  semval playersWaitEnd w <> O ->
  exists w', call (playUntilEnd r id) 5 pe_wait w = Some w' /\
    slots r (fSt w') !! Z.to_nat id = Some ENDING_GAME.
Proof.
  intros Hid Hm Hs. destruct (semval mutex w) as [|m] eqn:Hv; [done|].
  destruct (semval playersWaitEnd w) as [|n] eqn:Hn; [done|].
  set (w0 := {| fSt := fSt w; sems := set_semval playersWaitEnd n (sems w);
                logfile := logfile w |}).
  destruct (critical_section_call r id ENDING_GAME w0 m Hid Hv)
    as (w1 & w2 & Hdown & Hset & Hslot & _).
  eexists. split; [|exact Hslot].
  assert (Hd0 : semDown playersWaitEnd w = Some w0) by (unfold semDown; by rewrite Hn).
  unfold call, playUntilEnd. rewrite Hd0. cbn [mbind option_bind].
  rewrite Hdown. cbn [mbind option_bind]. by rewrite Hset.
Qed.

(** A write outside the slot array has no defined result. *)
Lemma set_stat_outside r id v w :
  ~ 0 <= id < Z.of_nat (length (slots r (fSt w))) -> set_stat r id v w = None.
Proof.
  intros Hout. destruct (set_stat r id v w) as [w'|] eqn:H; [exfalso|done].
  apply set_stat_inv in H as (_ & _ & _ & _ & _ & _ & Hin & _). by apply Hout.
Qed.

Lemma calls_outside r id w :
  ~ 0 <= id < Z.of_nat (length (slots r (fSt w))) ->
  forall fuel,
    call (arrive r id) fuel arrive_down w = None /\
    call (waitReferee r id) fuel wr_wait w = None /\
    call (playUntilEnd r id) fuel pe_wait w = None.
Proof.
  intros Hout fuel.
  assert (Hset : forall v w1, fSt w1 = fSt w -> set_stat r id v w1 = None).
  { intros v w1 Hf. apply set_stat_outside. by rewrite Hf. }
  assert (Hcs : forall s w1 w2, semDown s w1 = Some w2 -> fSt w1 = fSt w -> fSt w2 = fSt w).
  { intros s w1 w2 Hd Hf. apply semDown_inv in Hd as (_ & -> & _). done. }
  split; [|split].
  - destruct fuel as [|[|fuel]]; [done| |]; cbn [call arrive mbind option_bind];
      destruct (semDown mutex w) as [w1|] eqn:Hd; cbn [call arrive mbind option_bind];
      try done.
    by rewrite (Hset ARRIVING w1 (Hcs _ _ _ Hd eq_refl)).
  - destruct fuel as [|[|[|fuel]]]; [done| | |]; cbn [call waitReferee mbind option_bind];
      (destruct (semDown playersWaitReferee w) as [w1|] eqn:Hd;
       cbn [call waitReferee mbind option_bind]; try done);
      (destruct (semDown mutex w1) as [w2|] eqn:Hd2;
       cbn [call waitReferee mbind option_bind]; try done).
    by rewrite (Hset PLAYING w2 (Hcs _ _ _ Hd2 (Hcs _ _ _ Hd eq_refl))).
  - destruct fuel as [|[|[|fuel]]]; [done| | |]; cbn [call playUntilEnd mbind option_bind];
      (destruct (semDown playersWaitEnd w) as [w1|] eqn:Hd;
       cbn [call playUntilEnd mbind option_bind]; try done);
      (destruct (semDown mutex w1) as [w2|] eqn:Hd2;
       cbn [call playUntilEnd mbind option_bind]; try done).
    by rewrite (Hset ENDING_GAME w2 (Hcs _ _ _ Hd2 (Hcs _ _ _ Hd eq_refl))).
Qed.

(** * The claims of the specification *)

(** ** Team formation *)

(** C1 (the code departs from the claim): when the test of the critical
    section fails, [playerConstituteTeam] and [goalieConstituteTeam] never
    park the caller: whatever [teamId] is, the call sets the caller's slot to
    LATE, signals nothing but the mutex, and returns 0. *)
Theorem C1_not_enough_free_is_late (K : probConst) (r : role) (id : Z) (w : world) :
  enough_free K (fSt w) = false ->
  0 <= id < Z.of_nat (length (slots r (fSt w))) ->
  exists w',
    call (constituteTeam_body K r id) 4 ct_if (0, w) = Some (0, w') /\
    slots r (fSt w') !! Z.to_nat id = Some LATE /\
    only_own_slot r id (fSt w) (fSt w') /\
    semval playersWaitReferee w' = semval playersWaitReferee w /\
    semval playersWaitEnd w' = semval playersWaitEnd w.
Proof.
  intros Hfree Hid.
  destruct (late_branch_call K r id 0 w Hfree Hid) as (w' & Hcall & Hown & Hslot & _ & H1 & H2).
  exists w'. auto.
Qed.

Lemma C1_not_enough_free_is_late_witness :
  teamId (fSt one_team_formed) = 2 /\
  exists w',
    call (constituteTeam_body one_goalie PlayerRole 1) 4 ct_if (0, one_team_formed)
      = Some (0, w') /\
    slots PlayerRole (fSt w') !! Z.to_nat 1 = Some LATE /\
    only_own_slot PlayerRole 1 (fSt one_team_formed) (fSt w') /\
    semval playersWaitReferee w' = semval playersWaitReferee one_team_formed /\
    semval playersWaitEnd w' = semval playersWaitEnd one_team_formed.
Proof.
  split; [vm_compute; reflexivity|].
  apply (C1_not_enough_free_is_late one_goalie PlayerRole 1 one_team_formed).
  - vm_compute. reflexivity.
  - vm_compute. split; [discriminate|reflexivity].
Defined.

(** C3: a call of [playerConstituteTeam] or [goalieConstituteTeam], from
    its entry with the mutex free, that finds enough free players and
    goalies in its critical section returns the entry value of [teamId],
    increments [teamId] by 1, takes NUMTEAMPLAYERS from [playersFree] and
    NUMTEAMGOALIES from [goaliesFree], sets the caller's slot to
    FORMING_TEAM, logs one record, the new snapshot, and leaves every
    semaphore as it was (the mutex is released).  The counters are [int]
    values and the increment does not overflow. *)
Theorem C3_leader_branch (K : probConst) (r : role) (id : Z) (w : world) :
  semval mutex w <> O ->
  enough_free K (fSt w) = true ->
  0 <= id < Z.of_nat (length (slots r (fSt w))) ->
  int_counters (fSt w) -> teamId (fSt w) < CInt.INT_MAX ->
  0 <= NUMTEAMPLAYERS K -> 0 <= NUMTEAMGOALIES K ->
  exists w',
    call (constituteTeam_body K r id) 8 ct_down (0, w) = Some (teamId (fSt w), w') /\
    teamId (fSt w') = teamId (fSt w) + 1 /\
    playersFree (fSt w') = playersFree (fSt w) - NUMTEAMPLAYERS K /\
    goaliesFree (fSt w') = goaliesFree (fSt w) - NUMTEAMGOALIES K /\
    slots r (fSt w') !! Z.to_nat id = Some FORMING_TEAM /\
    logfile w' = logfile w ++ [fSt w'] /\
    forall sem, semval sem w' = semval sem w.
Proof.
  intros Hm Hfree Hid (HpI & HgI & HtI) Hmax HP HG.
  destruct (semval mutex w) as [|n] eqn:Hv; [done|].
  destruct (leader_branch_from_entry K r id w n Hv Hfree Hid)
    as (w' & Hcall & Ht & Hp & Hg & Hslot & Hlog & Hsems).
  apply enough_free_true in Hfree as [HpF HgF].
  unfold CInt.in_int, CInt.INT_MIN, CInt.INT_MAX in *.
  exists w'. split; [done|].
  rewrite Ht, Hp, Hg.
  rewrite CIntFacts.add_exact, !CIntFacts.sub_exact;
    unfold CInt.in_int, CInt.INT_MIN, CInt.INT_MAX; try lia.
  done.
Qed.

Lemma C3_leader_branch_witness :
  exists w',
    call (constituteTeam_body exact_fit PlayerRole 0) 8 ct_down (0, shared (init exact_fit))
      = Some (1, w') /\
    teamId (fSt w') = 2 /\
    playersFree (fSt w') = 4 /\
    goaliesFree (fSt w') = 1 /\
    slots PlayerRole (fSt w') !! 0%nat = Some FORMING_TEAM /\
    logfile w' = [] ++ [fSt w'] /\
    forall sem, semval sem w' = semval sem (shared (init exact_fit)).
Proof.
  apply (C3_leader_branch exact_fit PlayerRole 0 (shared (init exact_fit))).
  - simpl. lia.
  - reflexivity.
  - simpl. lia.
  - unfold int_counters, CInt.in_int, CInt.INT_MIN, CInt.INT_MAX. simpl. lia.
  - unfold CInt.INT_MAX. simpl. lia.
  - simpl. lia.
  - simpl. lia.
Defined.

(** ** The referee's signals *)

(** C4 (the code departs from the claim): a call of [startGame] posts the
    start semaphore [playersWaitReferee] exactly once, and a call of
    [endGame] posts [playersWaitEnd] exactly once, whatever the size of the
    teams: one waiting teammate is woken, not 2 * (NUMTEAMPLAYERS +
    NUMTEAMGOALIES). *)
Theorem C4_one_signal_per_call (w : world) :
  semval mutex w <> O ->
  (exists w',
     call Referee.startGame 5 Referee.sg_down w = Some w' /\
     semval playersWaitReferee w' = S (semval playersWaitReferee w) /\
     semval playersWaitEnd w' = semval playersWaitEnd w) /\
  (exists w',
     call Referee.endGame 5 Referee.eg_down w = Some w' /\
     semval playersWaitEnd w' = S (semval playersWaitEnd w) /\
     semval playersWaitReferee w' = semval playersWaitReferee w).
Proof.
  intros Hm. unfold call, Referee.startGame, Referee.endGame, semDown.
  destruct (semval mutex w) as [|n] eqn:Hv; [done|].
  cbn [mbind option_bind]. split; eexists; (split; [reflexivity|]); by simpl.
Qed.

Lemma C4_one_signal_per_call_witness :
  (exists w',
     call Referee.startGame 5 Referee.sg_down (shared (init exact_fit)) = Some w' /\
     semval playersWaitReferee w' = 1%nat /\
     semval playersWaitEnd w' = O) /\
  (exists w',
     call Referee.endGame 5 Referee.eg_down (shared (init exact_fit)) = Some w' /\
     semval playersWaitEnd w' = 1%nat /\
     semval playersWaitReferee w' = O).
Proof.
  apply (C4_one_signal_per_call (shared (init exact_fit))). simpl. lia.
Defined.

(** ** Frame of the simple operations *)

(** C10 (the code departs from the claim for the ids outside the slot
    array, which [main] lets through when they are negative): a call of
    [arrive], [waitReferee] or [playUntilEnd] that returns has changed at
    most the caller's own slot, whatever the state; with an id inside the
    slot array and the semaphores available the calls do return and have set
    that slot; with an id outside the array the write of the slot is outside
    [playerStat] or [goalieStat], it has no defined result, and no call
    returns. *)
Theorem C10_only_own_slot (r : role) (id : Z) (w : world) :
  semval mutex w <> O ->
  (forall fuel w',
     call (arrive r id) fuel arrive_down w = Some w' \/
     call (waitReferee r id) fuel wr_wait w = Some w' \/
     call (playUntilEnd r id) fuel pe_wait w = Some w' ->
     only_own_slot r id (fSt w) (fSt w')) /\
  (0 <= id < Z.of_nat (length (slots r (fSt w))) ->
   (exists w',
      call (arrive r id) 4 arrive_down w = Some w' /\
      only_own_slot r id (fSt w) (fSt w') /\
      slots r (fSt w') !! Z.to_nat id = Some ARRIVING) /\
   (semval playersWaitReferee w <> O ->
    exists w',
      call (waitReferee r id) 5 wr_wait w = Some w' /\
      only_own_slot r id (fSt w) (fSt w') /\
      slots r (fSt w') !! Z.to_nat id = Some PLAYING) /\
   (semval playersWaitEnd w <> O ->
    exists w',
      call (playUntilEnd r id) 5 pe_wait w = Some w' /\
      only_own_slot r id (fSt w) (fSt w') /\
      slots r (fSt w') !! Z.to_nat id = Some ENDING_GAME)) /\
  (~ 0 <= id < Z.of_nat (length (slots r (fSt w))) ->
   (forall v, set_stat r id v w = None) /\
   forall fuel,
     call (arrive r id) fuel arrive_down w = None /\
     call (waitReferee r id) fuel wr_wait w = None /\
     call (playUntilEnd r id) fuel pe_wait w = None).
Proof.
  intros Hm. split; [|split].
  - intros fuel w'. apply call_only_own_slot.
  - intros Hid. split; [|split].
    + destruct (arrive_returns r id w Hid Hm) as (w' & Hcall & Hslot).
      exists w'. split; [done|]. split; [|done].
      apply (call_only_own_slot r id 4). by left.
    + intros Hs. destruct (waitReferee_returns r id w Hid Hm Hs) as (w' & Hcall & Hslot).
      exists w'. split; [done|]. split; [|done].
      apply (call_only_own_slot r id 5). right. by left.
    + intros Hs. destruct (playUntilEnd_returns r id w Hid Hm Hs) as (w' & Hcall & Hslot).
      exists w'. split; [done|]. split; [|done].
      apply (call_only_own_slot r id 5). right. by right.
  - intros Hout. split.
    + intros v. by apply set_stat_outside.
    + by apply calls_outside.
Qed.

Lemma C10_only_own_slot_witness :
  let c := {| Args.argc := 4; Args.strtol_value := -1; Args.strtol_rest := EmptyString |} in
  (Args.goalie_main exact_fit c = Args.proceeds (-1) /\
   (forall v, set_stat GoalieRole (-1) v (shared (init exact_fit)) = None) /\
   forall fuel,
     call (arrive GoalieRole (-1)) fuel arrive_down (shared (init exact_fit)) = None /\
     call (waitReferee GoalieRole (-1)) fuel wr_wait (shared (init exact_fit)) = None /\
     call (playUntilEnd GoalieRole (-1)) fuel pe_wait (shared (init exact_fit)) = None) /\
  slots PlayerRole (fSt signals_posted) !! Z.to_nat 1 = Some FORMING_TEAM /\
  (exists w',
     call (arrive PlayerRole 1) 4 arrive_down signals_posted = Some w' /\
     only_own_slot PlayerRole 1 (fSt signals_posted) (fSt w') /\
     slots PlayerRole (fSt w') !! Z.to_nat 1 = Some ARRIVING) /\
  (exists w',
     call (waitReferee PlayerRole 1) 5 wr_wait signals_posted = Some w' /\
     only_own_slot PlayerRole 1 (fSt signals_posted) (fSt w') /\
     slots PlayerRole (fSt w') !! Z.to_nat 1 = Some PLAYING) /\
  (exists w',
     call (playUntilEnd PlayerRole 1) 5 pe_wait signals_posted = Some w' /\
     only_own_slot PlayerRole 1 (fSt signals_posted) (fSt w') /\
     slots PlayerRole (fSt w') !! Z.to_nat 1 = Some ENDING_GAME).
Proof.
  intros c. split.
  - split; [vm_compute; reflexivity|].
    apply (C10_only_own_slot GoalieRole (-1) (shared (init exact_fit))).
    + simpl. lia.
    + simpl. lia.
  - split; [vm_compute; reflexivity|].
    assert (Hm : semval mutex signals_posted <> O) by (vm_compute; discriminate).
    assert (Hid : 0 <= 1 < Z.of_nat (length (slots PlayerRole (fSt signals_posted)))).
    { vm_compute. split; [discriminate|reflexivity]. }
    destruct (C10_only_own_slot PlayerRole 1 signals_posted Hm) as (_ & Hin & _).
    destruct (Hin Hid) as (Ha & Hw & He).
    split; [exact Ha|]. split.
    + apply Hw. vm_compute. discriminate.
    + apply He. vm_compute. discriminate.
Defined.

(** ** Validation of the arguments *)

(** C9 (the code departs from the claim): an id that [strtol] reads entirely
    and that is negative passes the range check of the player and of the
    goalie: the cast to [unsigned int] is undone by the assignment to
    [int n], and the comparison with the population constant is signed.  The
    process goes on with that id, for which the first write of [arrive] is
    outside the slot array. *)
Theorem C9_negative_id_accepted (K : probConst) (c : Args.cmdline) :
  Args.argc c = 4 ->
  Args.strtol_rest c = EmptyString ->
  CInt.INT_MIN <= Args.strtol_value c < 0 ->
  0 <= NUMPLAYERS K -> 0 <= NUMGOALIES K ->
  Args.player_main K c = Args.proceeds (Args.strtol_value c) /\
  Args.goalie_main K c = Args.proceeds (Args.strtol_value c) /\
  forall r w, set_stat r (Args.strtol_value c) ARRIVING w = None.
Proof.
  intros Hargc Hrest Hv HP HG.
  unfold Args.player_main, Args.goalie_main, Args.validate.
  rewrite Hargc, Hrest, CIntFacts.to_int_to_uint, CIntFacts.to_int_id
    by (unfold CInt.in_int, CInt.INT_MIN, CInt.INT_MAX in *; lia).
  simpl. unfold CInt.INT_MIN in Hv.
  destruct (Z.leb_spec (NUMPLAYERS K) (Args.strtol_value c)); [lia|].
  destruct (Z.leb_spec (NUMGOALIES K) (Args.strtol_value c)); [lia|].
  split; [done|]. split; [done|].
  intros r w. unfold set_stat, store.
  destruct (Z.leb_spec 0 (Args.strtol_value c)); [lia|]. by destruct r.
Qed.

Lemma C9_negative_id_accepted_witness :
  let c := {| Args.argc := 4; Args.strtol_value := -1; Args.strtol_rest := EmptyString |} in
  Args.player_main with_surplus c = Args.proceeds (-1) /\
  Args.goalie_main with_surplus c = Args.proceeds (-1) /\
  forall r w, set_stat r (-1) ARRIVING w = None.
Proof.
  apply (C9_negative_id_accepted with_surplus
           {| Args.argc := 4; Args.strtol_value := -1; Args.strtol_rest := EmptyString |}).
  - reflexivity.
  - reflexivity.
  - unfold CInt.INT_MIN. simpl. lia.
  - simpl. lia.
  - simpl. lia.
Defined.

(** ** The counters over the runs *)

(** C6: in every state of a run in which no process is inside a critical
    section (the mutex is free), [playersFree] plus NUMTEAMPLAYERS times the
    number of leader branches taken so far is NUMPLAYERS, and [goaliesFree]
    plus NUMTEAMGOALIES times that number is NUMGOALIES; the critical
    sections of all the operations lead from such a state to such a state. *)
Theorem C6_counters_balance (K : probConst) (tr : list event) (s : system) :
  consts_ok K -> reachable K tr s ->
  semval mutex (shared s) = 1%nat ->
  playersFree (fSt (shared s)) + NUMTEAMPLAYERS K * teams_formed tr = NUMPLAYERS K /\
  goaliesFree (fSt (shared s)) + NUMTEAMGOALIES K * teams_formed tr = NUMGOALIES K.
Proof.
  intros HK Hr Hm.
  destruct (counts_inv_reach K tr s HK Hr) as (_ & _ & Hfree & _).
  destruct (Hfree Hm) as (HP & HG & _). by split.
Qed.

Lemma C6_counters_balance_witness :
  let sched := alone (Player 0) 12 ++ alone (Goalie 1) 4 in
  exists s,
    run exact_fit sched (init exact_fit) = Some s /\
    teams_formed (trace exact_fit sched (init exact_fit) []) = 1 /\
    playersFree (fSt (shared s))
      + 4 * teams_formed (trace exact_fit sched (init exact_fit) []) = 8 /\
    goaliesFree (fSt (shared s))
      + 1 * teams_formed (trace exact_fit sched (init exact_fit) []) = 2.
Proof.
  eexists. split; [vm_compute; reflexivity|]. split; [vm_compute; reflexivity|].
  apply (C6_counters_balance exact_fit).
  - apply exact_fit_ok.
  - apply reachable_run. vm_compute. reflexivity.
  - reflexivity.
Defined.

(** What the code keeps of the range of [teamId]: in every state of every
    run [teamId] is 1 plus the number of leader branches taken so far, and it
    stays between 1 and 1 plus the number of teams the populations can fill;
    so it is 1, 2 or 3 when the players or the goalies are too few for a
    third team, it is 3 exactly when two leader branches have been taken, and
    with populations for two teams and not for three it is 3 once every
    player and goalie has returned from [constituteTeam]. *)
Lemma teamId_range (K : probConst) (tr : list event) (s : system) :
  consts_ok K -> reachable K tr s ->
  let id := teamId (fSt (shared s)) in
  id = 1 + teams_formed tr /\
  1 <= id <= 1 + Z.min (NUMPLAYERS K / NUMTEAMPLAYERS K) (NUMGOALIES K / NUMTEAMGOALIES K) /\
  (id = 3 <-> teams_formed tr = 2) /\
  (NUMPLAYERS K < 3 * NUMTEAMPLAYERS K \/ NUMGOALIES K < 3 * NUMTEAMGOALIES K ->
   (id = 1 \/ id = 2 \/ id = 3) /\
   (2 * NUMTEAMPLAYERS K <= NUMPLAYERS K -> 2 * NUMTEAMGOALIES K <= NUMGOALIES K ->
    all_left_constituteTeam s -> id = 3)).
Proof.
  intros HK Hr id.
  destruct (counts_inv_reach K tr s HK Hr) as (Hid & HL & _).
  destruct (teams_fit K tr s HK Hr) as [HP HG].
  pose proof HK as [HPpos HGpos _ _]. fold id in Hid.
  assert (H1 : teams_formed tr <= NUMPLAYERS K / NUMTEAMPLAYERS K)
    by (apply Z.div_le_lower_bound; lia).
  assert (H2 : teams_formed tr <= NUMGOALIES K / NUMTEAMGOALIES K)
    by (apply Z.div_le_lower_bound; lia).
  split; [done|]. split; [lia|]. split; [lia|].
  intros Hfew. split.
  - destruct Hfew; nia.
  - intros H2P H2G Hall. by apply (teamId_at_end K tr s).
Qed.

(** C5 (the code departs from the claim): nothing in [constituteTeam]
    looks at [teamId] or at a number of teams.  In every state of every run
    [teamId] is 1 plus the number of leader branches taken so far, so it is
    3 exactly when two have been taken; and as soon as a third one is taken,
    which the populations allow when they hold three teams, [teamId] is 4
    or more and a player or goalie holds team 3. *)
Theorem C5_teamId_unguarded (K : probConst) (tr : list event) (s : system) :
  consts_ok K -> reachable K tr s ->
  let id := teamId (fSt (shared s)) in
  id = 1 + teams_formed tr /\
  1 <= id <= 1 + Z.min (NUMPLAYERS K / NUMTEAMPLAYERS K) (NUMGOALIES K / NUMTEAMGOALIES K) /\
  (id = 3 <-> teams_formed tr = 2) /\
  (3 <= teams_formed tr ->
   4 <= id /\ exists r i p, procs r s !! i = Some p /\ team p = 3).
Proof.
  intros HK Hr id.
  destruct (teamId_range K tr s HK Hr) as (Hid & Hrange & H3 & _). fold id in Hid, Hrange, H3.
  split; [done|]. split; [done|]. split; [done|].
  intros Hthree. split; [lia|].
  apply (leaders_reach K tr s HK Hr). lia.
Qed.

(** The failing input: 12 players and 3 goalies, populations that satisfy
    the constraints of the configuration; players 0 and 1 and goalie 0 go
    through [arrive] and [constituteTeam] one after the other. *)
Lemma C5_teamId_unguarded_witness :
  let K := three_teams_fit in
  let sched := alone (Player 0) 12 ++ alone (Player 1) 12 ++ alone (Goalie 0) 12 in
  2 * NUMTEAMPLAYERS K <= NUMPLAYERS K /\ 2 * NUMTEAMGOALIES K <= NUMGOALIES K /\
  exists s,
    run K sched (init K) = Some s /\
    goalies s !! 0%nat = Some {| pc := in_waitReferee wr_wait; team := 3 |} /\
    teamId (fSt (shared s)) = 4 /\
    4 <= teamId (fSt (shared s)) /\
    exists r i p, procs r s !! i = Some p /\ team p = 3.
Proof.
  intros K sched. split; [simpl; lia|]. split; [simpl; lia|].
  eexists. split; [vm_compute; reflexivity|].
  split; [reflexivity|]. split; [reflexivity|].
  edestruct (C5_teamId_unguarded three_teams_fit
               (trace three_teams_fit
                  (alone (Player 0) 12 ++ alone (Player 1) 12 ++ alone (Goalie 0) 12)
                  (init three_teams_fit) []))
    as (_ & _ & _ & Hthree).
  - by split.
  - apply reachable_run. vm_compute. reflexivity.
  - apply Hthree. vm_compute. discriminate.
Defined.

(** ** The mutex *)

(** C7 (the code departs from the claim): the loop of [waitForTeams] reads
    [sh->fSt.teamId] after the referee has released the mutex.  In the run
    [poll_run] player 1 holds the mutex in the middle of the leader branch
    ([teamId] is already 3, [playersFree] is not yet decremented and nothing
    is logged for the second team); the referee, which does not hold the
    mutex, reads [teamId] there and leaves the loop. *)
Theorem C7_referee_polls_without_mutex :
  exists s s',
    run exact_fit poll_run (init exact_fit) = Some s /\
    reachable exact_fit (trace exact_fit poll_run (init exact_fit) []) s /\
    next_label TheReferee s
      = Some (at_referee (Referee.in_waitForTeams Referee.wt_poll)) /\
    ~ holds_mutex TheReferee s /\
    holds_mutex (Player 1) s /\
    semval mutex (shared s) = O /\
    teamId (fSt (shared s)) = 3 /\ playersFree (fSt (shared s)) = 4 /\
    step exact_fit TheReferee s = Some s' /\
    referee s' = Referee.in_startGame Referee.sg_down.
Proof.
  eexists. eexists. split; [vm_compute; reflexivity|].
  split; [apply reachable_run; vm_compute; reflexivity|].
  split; [reflexivity|]. split.
  { intros (l & Hl & Hcs). simpl in Hl. injection Hl as <-. discriminate Hcs. }
  split.
  { eexists. split; [reflexivity|reflexivity]. }
  split; [reflexivity|]. split; [reflexivity|]. split; [reflexivity|].
  split; [vm_compute; reflexivity|reflexivity].
Qed.

(** ** The order of the log *)

(** C8: in every run, every record of the log that shows a player or a
    goalie PLAYING comes strictly after a record that shows the referee
    STARTING_GAME; and on the trace of the statements, the [saveState] of
    the referee in [startGame] comes before the [saveState] of every player
    and goalie in [waitReferee]: they log PLAYING only after a start signal,
    which the referee posts after its record. *)
Theorem C8_start_before_play (K : probConst) (tr : list event) (s : system) :
  reachable K tr s ->
  (forall i f,
     logfile (shared s) !! i = Some f -> record_playing f ->
     exists j g,
       (j < i)%nat /\ logfile (shared s) !! j = Some g /\ record_starting g) /\
  (forall t1 a t2,
     tr = t1 ++ (a, at_field (in_waitReferee wr_save)) :: t2 ->
     (TheReferee, at_referee (Referee.in_startGame Referee.sg_save)) ∈ t2).
Proof.
  intros Hr. split.
  - destruct (start_inv_reach K tr s Hr) as [(_ & _ & Hlog) _]. apply Hlog.
  - destruct (start_trace_inv_reach K tr s Hr) as (_ & _ & Hord). apply Hord.
Qed.

Lemma C8_start_before_play_witness :
  exists s f,
    run exact_fit full_run (init exact_fit) = Some s /\
    logfile (shared s) !! 25%nat = Some f /\
    record_playing f /\
    exists j g,
      (j < 25)%nat /\ logfile (shared s) !! j = Some g /\ record_starting g.
Proof.
  eexists. eexists. split; [vm_compute; reflexivity|].
  split; [reflexivity|].
  assert (Hp : forall l, PLAYING ∈ PLAYING :: l) by (intros; apply list_elem_of_here).
  split; [left; apply Hp|].
  eapply (C8_start_before_play exact_fit (trace exact_fit full_run (init exact_fit) [])).
  - apply reachable_run. vm_compute. reflexivity.
  - reflexivity.
  - left. apply Hp.
Defined.

(** ** A complete run of the exact-fit configuration *)

(** What [full_run] leads to: no process can take a step any more; players
    0 and 1 formed the two teams alone, the six other players and the two
    goalies are LATE, only player 0 reached ENDING_GAME, and player 1 waits
    for a start signal for ever. *)
Lemma full_run_outcome :
  exists s,
    run exact_fit full_run (init exact_fit) = Some s /\
    (forall a, step exact_fit a s = None) /\
    playerStat (st (fSt (shared s)))
      = [ENDING_GAME; FORMING_TEAM; LATE; LATE; LATE; LATE; LATE; LATE] /\
    goalieStat (st (fSt (shared s))) = [LATE; LATE] /\
    teamId (fSt (shared s)) = 3 /\
    players s !! 1%nat = Some {| pc := in_waitReferee wr_wait; team := 2 |} /\
    semval playersWaitReferee (shared s) = O.
Proof.
  eexists. split; [vm_compute; reflexivity|].
  split; [|repeat split; reflexivity].
  intros [i|i|]; [| |reflexivity].
  - do 8 (destruct i as [|i]; [reflexivity|]). reflexivity.
  - do 2 (destruct i as [|i]; [reflexivity|]). reflexivity.
Qed.

(** C2 (the code departs from the claim): in every run with 8 players, 2
    goalies and teams of 4 players and 1 goalie, at most two processes get a
    team: once all the players and goalies have returned from
    [constituteTeam], of any three of them one has exited with LATE in its
    slot.  So eight of the ten end LATE, where the claim has none. *)
Theorem C2_all_but_two_late (tr : list event) (s : system)
    (r1 r2 r3 : role) (i1 i2 i3 : nat) :
  reachable exact_fit tr s -> all_left_constituteTeam s ->
  is_Some (procs r1 s !! i1) -> is_Some (procs r2 s !! i2) -> is_Some (procs r3 s !! i3) ->
  (r1, i1) <> (r2, i2) -> (r1, i1) <> (r3, i3) -> (r2, i2) <> (r3, i3) ->
  late_exited r1 i1 s \/ late_exited r2 i2 s \/ late_exited r3 i3 s.
Proof.
  intros Hr Hall H1 H2 H3 H12 H13 H23.
  apply (all_but_two_late exact_fit tr); auto using exact_fit_ok.
  left. simpl. lia.
Qed.

Lemma C2_all_but_two_late_witness :
  exists s,
    run exact_fit full_run (init exact_fit) = Some s /\
    (late_exited PlayerRole 0 s \/ late_exited PlayerRole 1 s \/ late_exited GoalieRole 0 s).
Proof.
  eexists. split; [vm_compute; reflexivity|].
  apply (C2_all_but_two_late (trace exact_fit full_run (init exact_fit) [])).
  - apply reachable_run. vm_compute. reflexivity.
  - intros [] i p Hp.
    + do 8 (destruct i as [|i]; [simpl in Hp; injection Hp as <-; reflexivity|]).
      discriminate Hp.
    + do 2 (destruct i as [|i]; [simpl in Hp; injection Hp as <-; reflexivity|]).
      discriminate Hp.
  - simpl. eexists. reflexivity.
  - simpl. eexists. reflexivity.
  - simpl. eexists. reflexivity.
  - intros [=].
  - intros [=].
  - intros [=].
Defined.

(** * Further properties of the three programs *)

(** ** The mutex *)

(** X1: in every run the mutex is binary and at most one process is between
    its [semDown] and its [semUp] on it; the semaphore is 0 exactly when some
    process is. *)
Theorem X1_mutual_exclusion (K : probConst) (tr : list event) (s : system) :
  reachable K tr s ->
  (semval mutex (shared s) <= 1)%nat /\
  (forall a b, holds_mutex a s -> holds_mutex b s -> a = b) /\
  (semval mutex (shared s) = O <-> exists a, holds_mutex a s).
Proof.
  intros Hr. destruct (mutex_inv_reach K tr s Hr) as (Hle & Hheld & Huniq & Hsome).
  split; [done|]. split; [done|]. split; [done|].
  intros [a Ha]. by apply (Hheld a).
Qed.

Lemma X1_mutual_exclusion_witness :
  exists s,
    run exact_fit poll_run (init exact_fit) = Some s /\
    (semval mutex (shared s) <= 1)%nat /\
    (forall a b, holds_mutex a s -> holds_mutex b s -> a = b) /\
    (semval mutex (shared s) = O <-> exists a, holds_mutex a s).
Proof.
  eexists. split; [vm_compute; reflexivity|].
  apply (X1_mutual_exclusion exact_fit (trace exact_fit poll_run (init exact_fit) [])).
  apply reachable_run. vm_compute. reflexivity.
Defined.

(** X2: while a process holds the mutex, no statement of another process
    changes the snapshot or the log: the critical sections are atomic for
    whoever reads the snapshot under the mutex. *)
Theorem X2_critical_sections_atomic (K : probConst) (tr : list event) (s s' : system)
    (a b : actor) :
  reachable K tr s -> holds_mutex b s -> a <> b ->
  step K a s = Some s' ->
  fSt (shared s') = fSt (shared s) /\ logfile (shared s') = logfile (shared s).
Proof.
  intros Hr Hb Hne Hs. apply (writes_hold_mutex K a s s' Hs).
  intros Ha. destruct (mutex_inv_reach K tr s Hr) as (_ & _ & Huniq & _).
  by apply Hne, Huniq.
Qed.

Lemma X2_critical_sections_atomic_witness :
  exists s s',
    run exact_fit poll_run (init exact_fit) = Some s /\
    step exact_fit TheReferee s = Some s' /\
    fSt (shared s') = fSt (shared s) /\ logfile (shared s') = logfile (shared s).
Proof.
  eexists. eexists. split; [vm_compute; reflexivity|].
  split; [vm_compute; reflexivity|].
  apply (X2_critical_sections_atomic exact_fit
           (trace exact_fit poll_run (init exact_fit) []) _ _ TheReferee (Player 1)).
  - apply reachable_run. vm_compute. reflexivity.
  - eexists. split; reflexivity.
  - discriminate.
  - vm_compute. reflexivity.
Defined.

(** X3: no change of the snapshot is left unlogged: whenever the mutex is
    free, the last record of the log is the snapshot itself, or nothing has
    been logged yet and the snapshot is the initial one. *)
Theorem X3_log_is_current (K : probConst) (tr : list event) (s : system) :
  reachable K tr s -> semval mutex (shared s) = 1%nat ->
  (logfile (shared s) = [] /\ fSt (shared s) = init_fSt K) \/
  last (logfile (shared s)) = Some (fSt (shared s)).
Proof.
  intros Hr Hm. destruct (log_inv_reach K tr s Hr) as [Hfree _]. by apply Hfree.
Qed.

Lemma X3_log_is_current_witness :
  exists s,
    run exact_fit full_run (init exact_fit) = Some s /\
    ((logfile (shared s) = [] /\ fSt (shared s) = init_fSt exact_fit) \/
     last (logfile (shared s)) = Some (fSt (shared s))).
Proof.
  eexists. split; [vm_compute; reflexivity|].
  apply (X3_log_is_current exact_fit (trace exact_fit full_run (init exact_fit) [])).
  - apply reachable_run. vm_compute. reflexivity.
  - reflexivity.
Defined.

(** X10: a process of a run has no next step only when it has exited or
    when its next statement is a [semDown] on a semaphore that is 0: no
    write of a slot is ever out of bounds; in particular the holder of the
    mutex can always go on, it never waits inside a critical section. *)
Theorem X10_only_semaphores_block (K : probConst) (tr : list event) (s : system)
    (a : actor) (l : label) :
  reachable K tr s -> next_label a s = Some l ->
  (step K a s = None <-> stuck l (shared s)) /\
  (label_in_cs l = true -> is_Some (step K a s)).
Proof.
  intros Hr Hl. pose proof (step_stuck K tr s a l Hr Hl) as Hiff.
  split; [done|]. intros Hcs.
  destruct (step K a s) as [s'|] eqn:Hs; [by eexists|exfalso].
  pose proof (proj1 Hiff eq_refl) as Hst. unfold stuck in Hst.
  by destruct l as [[[]|[]|[]|[]|]|[[]|[]|[]|[]|[]|]].
Qed.

Lemma X10_only_semaphores_block_witness :
  exists s,
    run exact_fit poll_run (init exact_fit) = Some s /\
    (step exact_fit (Player 2) s = None <->
     stuck (at_field (in_arrive arrive_down)) (shared s)) /\
    (label_in_cs (at_field (in_arrive arrive_down)) = true ->
     is_Some (step exact_fit (Player 2) s)).
Proof.
  eexists. split; [vm_compute; reflexivity|].
  apply (X10_only_semaphores_block exact_fit
           (trace exact_fit poll_run (init exact_fit) [])).
  - apply reachable_run. vm_compute. reflexivity.
  - reflexivity.
Defined.

(** ** The counters and the team ids *)

(** X4: in every state of a run, also inside the critical sections, the
    counters are within the populations and [teamId] is at least 1 and at most
    one more than the number of teams that fit: no increment or decrement of
    the leader branch ever wraps around. *)
Theorem X4_counters_in_range (K : probConst) (tr : list event) (s : system) :
  consts_ok K -> reachable K tr s ->
  0 <= playersFree (fSt (shared s)) <= NUMPLAYERS K /\
  0 <= goaliesFree (fSt (shared s)) <= NUMGOALIES K /\
  1 <= teamId (fSt (shared s)) /\
  NUMTEAMPLAYERS K * (teamId (fSt (shared s)) - 1) <= NUMPLAYERS K /\
  NUMTEAMGOALIES K * (teamId (fSt (shared s)) - 1) <= NUMGOALIES K /\
  int_counters (fSt (shared s)).
Proof.
  intros HK Hr. pose proof (mutex_inv_reach _ _ _ Hr) as (Hle & _ & _ & Hsome).
  pose proof (counts_inv_reach _ _ _ HK Hr) as (Hid & HL & Hfree & Hcs).
  pose proof (teams_fit _ _ _ HK Hr) as [HfitP HfitG].
  pose proof HK as [HP HG HNP HNG].
  unfold int_counters, CInt.in_int, CInt.INT_MIN, CInt.INT_MAX in *.
  assert (Hbounds : 0 <= playersFree (fSt (shared s)) <= NUMPLAYERS K /\
                    0 <= goaliesFree (fSt (shared s)) <= NUMGOALIES K).
  { destruct (semval mutex (shared s)) as [|n] eqn:Hm.
    - destruct (Hsome eq_refl) as (a & l & Hl & Hc).
      specialize (Hcs a l Hl Hc). unfold counts_at, settled in Hcs.
      destruct l as [[|[]| | |]|]; nia.
    - assert (n = O) as -> by lia. specialize (Hfree eq_refl).
      unfold settled in Hfree. nia. }
  rewrite Hid. replace (1 + teams_formed tr - 1) with (teams_formed tr) by lia.
  repeat split; try lia; nia.
Qed.

Lemma X4_counters_in_range_witness :
  exists s,
    run exact_fit poll_run (init exact_fit) = Some s /\
    0 <= playersFree (fSt (shared s)) <= NUMPLAYERS exact_fit /\
    0 <= goaliesFree (fSt (shared s)) <= NUMGOALIES exact_fit /\
    1 <= teamId (fSt (shared s)) /\
    NUMTEAMPLAYERS exact_fit * (teamId (fSt (shared s)) - 1) <= NUMPLAYERS exact_fit /\
    NUMTEAMGOALIES exact_fit * (teamId (fSt (shared s)) - 1) <= NUMGOALIES exact_fit /\
    int_counters (fSt (shared s)).
Proof.
  eexists. split; [vm_compute; reflexivity|].
  apply (X4_counters_in_range exact_fit (trace exact_fit poll_run (init exact_fit) [])).
  - apply exact_fit_ok.
  - apply reachable_run. vm_compute. reflexivity.
Defined.

(** X5: the value [team] of a process is 0 up to the test of
    [constituteTeam] and on the late branch, and the id of a team it formed
    from the leader branch on, below the current [teamId]; no two
    processes hold the same team id: every team has exactly one member that
    knows it, the one that formed it. *)
Theorem X5_team_ids_distinct (K : probConst) (tr : list event) (s : system)
    (r r' : role) (i j : nat) (p q : field_proc) :
  consts_ok K -> reachable K tr s ->
  procs r s !! i = Some p -> procs r' s !! j = Some q ->
  (0 <= team p < teamId (fSt (shared s))) /\
  (before_team (pc p) = true -> team p = 0) /\
  (after_team (pc p) = true -> team p <> 0) /\
  ((r, i) <> (r', j) -> team p <> 0 -> team p <> team q).
Proof.
  intros HK Hr Hp Hq.
  pose proof (counts_inv_reach _ _ _ HK Hr) as (Hid & _).
  destruct (teams_inv_reach _ _ _ HK Hr) as (Hok & Hdist & _).
  destruct (Hok r i p Hp) as (Hrange & Hbefore & Hafter & _).
  split; [lia|]. split; [done|]. split; [done|].
  intros Hne H0. by apply (Hdist r i p r' j q).
Qed.

Lemma X5_team_ids_distinct_witness :
  exists s p q,
    run exact_fit full_run (init exact_fit) = Some s /\
    procs PlayerRole s !! 0%nat = Some p /\ procs PlayerRole s !! 1%nat = Some q /\
    (0 <= team p < teamId (fSt (shared s))) /\
    (before_team (pc p) = true -> team p = 0) /\
    (after_team (pc p) = true -> team p <> 0) /\
    ((PlayerRole, 0%nat) <> (PlayerRole, 1%nat) -> team p <> 0 -> team p <> team q).
Proof.
  eexists. eexists. eexists. split; [vm_compute; reflexivity|].
  split; [vm_compute; reflexivity|]. split; [vm_compute; reflexivity|].
  apply (X5_team_ids_distinct exact_fit (trace exact_fit full_run (init exact_fit) [])).
  - apply exact_fit_ok.
  - apply reachable_run. vm_compute. reflexivity.
  - vm_compute. reflexivity.
  - vm_compute. reflexivity.
Defined.

(** ** The snapshot and the positions of the processes *)

(** X6: the snapshot always tells where every process is: the slot of a
    player or goalie and [refereeStat] are functions of the position of the
    process in its life cycle (and, once [constituteTeam] is over, of whether
    it formed a team).  A process only ever writes its own slot, nobody
    else does, and no process skips a state of its life cycle. *)
Theorem X6_snapshot_tracks_positions (K : probConst) (tr : list event) (s : system) :
  consts_ok K -> reachable K tr s ->
  refereeStat (st (fSt (shared s))) = referee_stat_of (referee s) /\
  (forall r i p, procs r s !! i = Some p ->
     slots r (fSt (shared s)) !! i = Some (slot_of p)) /\
  length (playerStat (st (fSt (shared s)))) = Z.to_nat (NUMPLAYERS K) /\
  length (goalieStat (st (fSt (shared s)))) = Z.to_nat (NUMGOALIES K).
Proof.
  intros HK Hr. destruct (snapshot_inv_reach _ _ _ HK Hr) as [Href Hslots].
  destruct (shape_inv_reach _ _ _ Hr) as (Hp & Hg & _).
  by repeat split.
Qed.

Lemma X6_snapshot_tracks_positions_witness :
  exists s,
    run exact_fit full_run (init exact_fit) = Some s /\
    refereeStat (st (fSt (shared s))) = referee_stat_of (referee s) /\
    (forall r i p, procs r s !! i = Some p ->
       slots r (fSt (shared s)) !! i = Some (slot_of p)) /\
    length (playerStat (st (fSt (shared s)))) = Z.to_nat (NUMPLAYERS exact_fit) /\
    length (goalieStat (st (fSt (shared s)))) = Z.to_nat (NUMGOALIES exact_fit).
Proof.
  eexists. split; [vm_compute; reflexivity|].
  apply (X6_snapshot_tracks_positions exact_fit
           (trace exact_fit full_run (init exact_fit) [])).
  - apply exact_fit_ok.
  - apply reachable_run. vm_compute. reflexivity.
Defined.

(** ** The start and the end of the game *)

(** X7: the referee leaves the polling loop of [waitForTeams] only after
    two leader branches: whenever it is in [startGame] or later, [teamId] is
    at least 3 and the populations hold two whole teams. *)
Theorem X7_referee_starts_after_two_teams (K : probConst) (tr : list event) (s : system) :
  consts_ok K -> reachable K tr s -> past_poll (referee s) = true ->
  3 <= teamId (fSt (shared s)) /\
  2 * NUMTEAMPLAYERS K <= NUMPLAYERS K /\
  2 * NUMTEAMGOALIES K <= NUMGOALIES K.
Proof.
  intros HK Hr Hpast. pose proof (poll_reach _ _ _ HK Hr Hpast) as H2.
  pose proof (counts_inv_reach _ _ _ HK Hr) as (Hid & _).
  pose proof (teams_fit _ _ _ HK Hr) as [HfitP HfitG].
  pose proof HK as [HP HG _ _]. split; [lia|]. split; nia.
Qed.

Lemma X7_referee_starts_after_two_teams_witness :
  exists s,
    run exact_fit full_run (init exact_fit) = Some s /\
    3 <= teamId (fSt (shared s)) /\
    2 * NUMTEAMPLAYERS exact_fit <= NUMPLAYERS exact_fit /\
    2 * NUMTEAMGOALIES exact_fit <= NUMGOALIES exact_fit.
Proof.
  eexists. split; [vm_compute; reflexivity|].
  apply (X7_referee_starts_after_two_teams exact_fit
           (trace exact_fit full_run (init exact_fit) [])).
  - apply exact_fit_ok.
  - apply reachable_run. vm_compute. reflexivity.
  - vm_compute. reflexivity.
Defined.

(** X8: when the populations do not hold two teams, the game never starts:
    the referee stays in [waitForTeams], no start signal is ever posted, no
    record of the log shows the referee at STARTING_GAME or later, and a
    player or goalie that formed a team stays blocked at the first [semDown]
    of [waitReferee]. *)
Theorem X8_no_game_without_two_teams (K : probConst) (tr : list event) (s : system) :
  consts_ok K ->
  NUMPLAYERS K < 2 * NUMTEAMPLAYERS K \/ NUMGOALIES K < 2 * NUMTEAMGOALIES K ->
  reachable K tr s ->
  past_poll (referee s) = false /\
  semval playersWaitReferee (shared s) = O /\
  (forall f, f ∈ logfile (shared s) -> game_started (refereeStat (st f)) = false) /\
  (forall r i p, procs r s !! i = Some p ->
     got_start p = false /\
     (pc p = in_waitReferee wr_wait -> step K (field_actor r i) s = None)).
Proof.
  intros HK Hfew Hr.
  assert (Hnever : forall tr s, reachable K tr s -> past_poll (referee s) = false).
  { intros tr0 s0 Hr0. destruct (past_poll (referee s0)) eqn:Hpast; [exfalso|done].
    pose proof (poll_reach _ _ _ HK Hr0 Hpast) as H2.
    pose proof (teams_fit _ _ _ HK Hr0) as [HfitP HfitG].
    pose proof HK as [HP HG _ _]. destruct Hfew; nia. }
  pose proof (Hnever _ _ Hr) as Hpast.
  destruct (start_signal_reach _ _ _ Hr) as (Hnot & _).
  assert (Hn : start_notified (referee s) = false).
  { by destruct (referee s) as [[]|[]|[]|[]|[]|]. }
  destruct (Hnot Hn) as [H0 Hall].
  split; [done|]. split; [done|]. split.
  - intros f Hf.
    apply (log_records K (fun f => game_started (refereeStat (st f)) = false))
      with (tr := tr) (s := s); [|done|done].
    intros tr0 s0 Hr0. destruct (snapshot_inv_reach _ _ _ HK Hr0) as [-> _].
    pose proof (Hnever _ _ Hr0). by destruct (referee s0) as [[]|[]|[]|[]|[]|].
  - intros r i p Hp. split; [by eapply Hall|]. intros Hpc.
    apply (step_stuck K tr s (field_actor r i) (at_field (pc p)) Hr).
    + by rewrite next_label_field, Hp.
    + rewrite Hpc. done.
Qed.

Lemma X8_no_game_without_two_teams_witness :
  exists s,
    run one_goalie one_team_run (init one_goalie) = Some s /\
    past_poll (referee s) = false /\
    semval playersWaitReferee (shared s) = O /\
    (forall f, f ∈ logfile (shared s) -> game_started (refereeStat (st f)) = false) /\
    (forall r i p, procs r s !! i = Some p ->
       got_start p = false /\
       (pc p = in_waitReferee wr_wait -> step one_goalie (field_actor r i) s = None)).
Proof.
  eexists. split; [vm_compute; reflexivity|].
  apply (X8_no_game_without_two_teams one_goalie
           (trace one_goalie one_team_run (init one_goalie) [])).
  - by split.
  - right. simpl. lia.
  - apply reachable_run. vm_compute. reflexivity.
Defined.

(** X9: each signal of the referee is taken by one process at most: in
    every state of a run at most one player or goalie is past the first
    [semDown] of [waitReferee], and at most one slot of the snapshot shows
    PLAYING or ENDING_GAME, whatever the populations. *)
Theorem X9_one_process_in_game (K : probConst) (tr : list event) (s : system) :
  consts_ok K -> reachable K tr s ->
  (forall r i p r' j q,
     procs r s !! i = Some p -> procs r' s !! j = Some q ->
     got_start p = true -> got_start q = true -> (r, i) = (r', j)) /\
  (forall r i v r' j v',
     slots r (fSt (shared s)) !! i = Some v ->
     slots r' (fSt (shared s)) !! j = Some v' ->
     in_game v = true -> in_game v' = true -> (r, i) = (r', j)).
Proof.
  intros HK Hr. destruct (start_signal_reach _ _ _ Hr) as (_ & _ & _ & Huniq).
  split; [done|]. intros r i v r' j v' Hv Hv' Hg Hg'.
  destruct (slot_has_proc _ _ _ _ _ _ HK Hr Hv) as (p & Hp & ->).
  destruct (slot_has_proc _ _ _ _ _ _ HK Hr Hv') as (q & Hq & ->).
  apply (Huniq r i p r' j q); auto using slot_in_game.
Qed.

Lemma X9_one_process_in_game_witness :
  exists s,
    run exact_fit full_run (init exact_fit) = Some s /\
    (forall r i p r' j q,
       procs r s !! i = Some p -> procs r' s !! j = Some q ->
       got_start p = true -> got_start q = true -> (r, i) = (r', j)) /\
    (forall r i v r' j v',
       slots r (fSt (shared s)) !! i = Some v ->
       slots r' (fSt (shared s)) !! j = Some v' ->
       in_game v = true -> in_game v' = true -> (r, i) = (r', j)).
Proof.
  eexists. split; [vm_compute; reflexivity|].
  apply (X9_one_process_in_game exact_fit (trace exact_fit full_run (init exact_fit) [])).
  - apply exact_fit_ok.
  - apply reachable_run. vm_compute. reflexivity.
Defined.

(** X11: the snapshot and every record of the log agree on the phases of
    the game: where a player or goalie shows PLAYING the referee shows
    STARTING_GAME, REFEREEING or ENDING_GAME, and where a player or goalie
    shows ENDING_GAME the referee shows ENDING_GAME. *)
Theorem X11_phases_agree (K : probConst) (tr : list event) (s : system) :
  consts_ok K -> reachable K tr s ->
  phases_agree (fSt (shared s)) /\
  forall f, f ∈ logfile (shared s) -> phases_agree f.
Proof.
  intros HK Hr. split; [by eapply phases_agree_reach|].
  intros f Hf. apply (log_records K phases_agree) with (tr := tr) (s := s); [|done|done].
  intros tr0 s0 Hr0. by eapply phases_agree_reach.
Qed.

Lemma X11_phases_agree_witness :
  exists s,
    run exact_fit full_run (init exact_fit) = Some s /\
    phases_agree (fSt (shared s)) /\
    forall f, f ∈ logfile (shared s) -> phases_agree f.
Proof.
  eexists. split; [vm_compute; reflexivity|].
  apply (X11_phases_agree exact_fit (trace exact_fit full_run (init exact_fit) [])).
  - apply exact_fit_ok.
  - apply reachable_run. vm_compute. reflexivity.
Defined.

(** X12: the log grows by exactly one record at each [saveState], the
    snapshot of that moment, and by nothing else: its length is the number of
    [saveState] statements executed so far. *)
Theorem X12_one_record_per_saveState (K : probConst) (tr : list event) (s : system) :
  reachable K tr s ->
  length (logfile (shared s)) = saves tr /\
  forall a l s', next_label a s = Some l -> step K a s = Some s' ->
    logfile (shared s') =
      (if is_save_label l then logfile (shared s) ++ [fSt (shared s')]
       else logfile (shared s)).
Proof.
  intros Hr. split; [by eapply saves_reach|].
  intros a l s' Hl Hs. by eapply step_log.
Qed.

Lemma X12_one_record_per_saveState_witness :
  exists s,
    run exact_fit poll_run (init exact_fit) = Some s /\
    length (logfile (shared s)) = saves (trace exact_fit poll_run (init exact_fit) []) /\
    forall a l s', next_label a s = Some l -> step exact_fit a s = Some s' ->
      logfile (shared s') =
        (if is_save_label l then logfile (shared s) ++ [fSt (shared s')]
         else logfile (shared s)).
Proof.
  eexists. split; [vm_compute; reflexivity|].
  apply (X12_one_record_per_saveState exact_fit
           (trace exact_fit poll_run (init exact_fit) [])).
  apply reachable_run. vm_compute. reflexivity.
Defined.

(** X13: no run ends with every process exited: either the referee is
    still before [startGame], or the leader of one of the first two teams
    has not got the start signal and is still inside its life cycle. *)
Theorem X13_some_process_never_exits (K : probConst) (tr : list event) (s : system) :
  consts_ok K -> reachable K tr s ->
  past_poll (referee s) = false \/
  exists r i p, procs r s !! i = Some p /\ team p <> 0 /\
    got_start p = false /\ pc p <> exited.
Proof.
  intros HK Hr. destruct (past_poll (referee s)) eqn:Hpast; [right|by left].
  destruct (leader_left_behind _ _ _ HK Hr Hpast) as (r & i & p & Hp & Ht & Hg).
  exists r, i, p. split; [done|]. split; [done|]. split; [done|].
  by apply not_started_not_exited.
Qed.

Lemma X13_some_process_never_exits_witness :
  exists s,
    run exact_fit full_run (init exact_fit) = Some s /\
    (past_poll (referee s) = false \/
     exists r i p, procs r s !! i = Some p /\ team p <> 0 /\
       got_start p = false /\ pc p <> exited).
Proof.
  eexists. split; [vm_compute; reflexivity|].
  apply (X13_some_process_never_exits exact_fit
           (trace exact_fit full_run (init exact_fit) [])).
  - apply exact_fit_ok.
  - apply reachable_run. vm_compute. reflexivity.
Defined.

(** ** The operations called alone *)

(** X14: called alone, [waitForTeams] returns exactly when [teamId] is
    already 3 or more: it then has set [refereeStat] to WAITING_TEAMS and
    logged one record, and every semaphore is as before.  When [teamId] is
    below 3 the loop after the critical section has nobody to wait for and
    no number of statements ends the call. *)
Theorem X14_waitForTeams_alone (w : world) :
  semval mutex w <> O ->
  (teamId (fSt w) < 3 ->
   forall fuel, call Referee.waitForTeams fuel Referee.wt_down w = None) /\
  (3 <= teamId (fSt w) ->
   exists w',
     call Referee.waitForTeams 5 Referee.wt_down w = Some w' /\
     refereeStat (st (fSt w')) = WAITING_TEAMS /\
     logfile w' = logfile w ++ [fSt w'] /\
     forall sem, semval sem w' = semval sem w).
Proof.
  intros Hm. destruct (semval mutex w) as [|n] eqn:Hv; [done|]. split.
  - intros Hlt fuel.
    destruct fuel as [|[|[|[|fuel]]]];
      cbn [call Referee.waitForTeams mbind option_bind]; try done;
      unfold semDown; rewrite Hv;
      cbn [call Referee.waitForTeams mbind option_bind]; try done.
    by apply poll_spins.
  - intros Hge. eexists. split.
    + cbn [call Referee.waitForTeams mbind option_bind].
      unfold semDown. rewrite Hv.
      cbn [call Referee.waitForTeams mbind option_bind].
      cbn [fSt teamId semUp saveState set_refereeStat with_fSt].
      rewrite (proj2 (Z.ltb_ge _ _) Hge). reflexivity.
    + simpl. split; [done|]. split; [done|]. by intros [].
Qed.

Lemma X14_waitForTeams_alone_witness :
  (teamId (fSt (shared (init exact_fit))) < 3 ->
   forall fuel,
     call Referee.waitForTeams fuel Referee.wt_down (shared (init exact_fit)) = None) /\
  (3 <= teamId (fSt (shared (init exact_fit))) ->
   exists w',
     call Referee.waitForTeams 5 Referee.wt_down (shared (init exact_fit)) = Some w' /\
     refereeStat (st (fSt w')) = WAITING_TEAMS /\
     logfile w' = logfile (shared (init exact_fit)) ++ [fSt w'] /\
     forall sem, semval sem w' = semval sem (shared (init exact_fit))).
Proof.
  apply (X14_waitForTeams_alone (shared (init exact_fit))). simpl. lia.
Defined.

(** X15: called alone with an id inside the slot array and the mutex free,
    [arrive] returns after setting the slot to ARRIVING and logging one
    record, the new snapshot, with every semaphore as before;
    [waitReferee] and [playUntilEnd] do the same with PLAYING and
    ENDING_GAME after taking one unit of [playersWaitReferee] and of
    [playersWaitEnd], and never return when that semaphore is 0. *)
Theorem X15_field_calls_alone (r : role) (id : Z) (w : world) :
  0 <= id < Z.of_nat (length (slots r (fSt w))) ->
  semval mutex w <> O ->
  (exists w',
     call (arrive r id) 4 arrive_down w = Some w' /\
     slots r (fSt w') !! Z.to_nat id = Some ARRIVING /\
     logfile w' = logfile w ++ [fSt w'] /\
     forall sem, semval sem w' = semval sem w) /\
  (forall n, semval playersWaitReferee w = S n ->
   exists w',
     call (waitReferee r id) 5 wr_wait w = Some w' /\
     slots r (fSt w') !! Z.to_nat id = Some PLAYING /\
     logfile w' = logfile w ++ [fSt w'] /\
     semval playersWaitReferee w' = n /\
     semval mutex w' = semval mutex w /\
     semval playersWaitEnd w' = semval playersWaitEnd w) /\
  (forall n, semval playersWaitEnd w = S n ->
   exists w',
     call (playUntilEnd r id) 5 pe_wait w = Some w' /\
     slots r (fSt w') !! Z.to_nat id = Some ENDING_GAME /\
     logfile w' = logfile w ++ [fSt w'] /\
     semval playersWaitEnd w' = n /\
     semval mutex w' = semval mutex w /\
     semval playersWaitReferee w' = semval playersWaitReferee w) /\
  (semval playersWaitReferee w = O ->
   forall fuel, call (waitReferee r id) fuel wr_wait w = None) /\
  (semval playersWaitEnd w = O ->
   forall fuel, call (playUntilEnd r id) fuel pe_wait w = None).
Proof.
  intros Hid Hm. destruct (semval mutex w) as [|m] eqn:Hv; [done|].
  split; [|split; [|split; [|split]]].
  - destruct (critical_section_call r id ARRIVING w m Hid Hv)
      as (w1 & w2 & Hdown & Hset & Hslot & Hlog & Hsems).
    eexists. split; [|split; [exact Hslot|split; [exact Hlog|exact Hsems]]].
    unfold call, arrive. rewrite Hdown. cbn [mbind option_bind]. by rewrite Hset.
  - intros n Hn.
    set (w0 := {| fSt := fSt w; sems := set_semval playersWaitReferee n (sems w);
                  logfile := logfile w |}).
    destruct (critical_section_call r id PLAYING w0 m Hid Hv)
      as (w1 & w2 & Hdown & Hset & Hslot & Hlog & Hsems).
    eexists. split; [|split; [exact Hslot|split; [exact Hlog|]]].
    + assert (Hd0 : semDown playersWaitReferee w = Some w0) by (unfold semDown; by rewrite Hn).
      unfold call, waitReferee. rewrite Hd0. cbn [mbind option_bind].
      rewrite Hdown. cbn [mbind option_bind]. by rewrite Hset.
    + rewrite !Hsems. simpl. done.
  - intros n Hn.
    set (w0 := {| fSt := fSt w; sems := set_semval playersWaitEnd n (sems w);
                  logfile := logfile w |}).
    destruct (critical_section_call r id ENDING_GAME w0 m Hid Hv)
      as (w1 & w2 & Hdown & Hset & Hslot & Hlog & Hsems).
    eexists. split; [|split; [exact Hslot|split; [exact Hlog|]]].
    + assert (Hd0 : semDown playersWaitEnd w = Some w0) by (unfold semDown; by rewrite Hn).
      unfold call, playUntilEnd. rewrite Hd0. cbn [mbind option_bind].
      rewrite Hdown. cbn [mbind option_bind]. by rewrite Hset.
    + rewrite !Hsems. simpl. done.
  - intros H0. apply blocked_call. simpl. unfold semDown. by rewrite H0.
  - intros H0. apply blocked_call. simpl. unfold semDown. by rewrite H0.
Qed.

Lemma X15_field_calls_alone_witness :
  let w := shared (init exact_fit) in
  (exists w',
     call (arrive GoalieRole 1) 4 arrive_down w = Some w' /\
     slots GoalieRole (fSt w') !! Z.to_nat 1 = Some ARRIVING /\
     logfile w' = logfile w ++ [fSt w'] /\
     forall sem, semval sem w' = semval sem w) /\
  (forall n, semval playersWaitReferee w = S n ->
   exists w',
     call (waitReferee GoalieRole 1) 5 wr_wait w = Some w' /\
     slots GoalieRole (fSt w') !! Z.to_nat 1 = Some PLAYING /\
     logfile w' = logfile w ++ [fSt w'] /\
     semval playersWaitReferee w' = n /\
     semval mutex w' = semval mutex w /\
     semval playersWaitEnd w' = semval playersWaitEnd w) /\
  (forall n, semval playersWaitEnd w = S n ->
   exists w',
     call (playUntilEnd GoalieRole 1) 5 pe_wait w = Some w' /\
     slots GoalieRole (fSt w') !! Z.to_nat 1 = Some ENDING_GAME /\
     logfile w' = logfile w ++ [fSt w'] /\
     semval playersWaitEnd w' = n /\
     semval mutex w' = semval mutex w /\
     semval playersWaitReferee w' = semval playersWaitReferee w) /\
  (semval playersWaitReferee w = O ->
   forall fuel, call (waitReferee GoalieRole 1) fuel wr_wait w = None) /\
  (semval playersWaitEnd w = O ->
   forall fuel, call (playUntilEnd GoalieRole 1) fuel pe_wait w = None).
Proof.
  apply (X15_field_calls_alone GoalieRole 1 (shared (init exact_fit))).
  - simpl. lia.
  - simpl. lia.
Defined.

(** ** Who writes what *)

(** X16: over the whole life cycles, a statement of the referee changes no
    counter and no slot of a player or goalie, and a statement of a player or
    goalie, [constituteTeam] included, changes neither [refereeStat] nor
    the slot of anybody else. *)
Theorem X16_who_writes_what (K : probConst) (a : actor) (s s' : system) :
  step K a s = Some s' ->
  (a = TheReferee ->
     playersFree (fSt (shared s')) = playersFree (fSt (shared s)) /\
     goaliesFree (fSt (shared s')) = goaliesFree (fSt (shared s)) /\
     teamId (fSt (shared s')) = teamId (fSt (shared s)) /\
     forall r, slots r (fSt (shared s')) = slots r (fSt (shared s))) /\
  (forall r i, a = field_actor r i ->
     refereeStat (st (fSt (shared s'))) = refereeStat (st (fSt (shared s))) /\
     forall r' j, (r', j) <> (r, i) ->
       slots r' (fSt (shared s')) !! j = slots r' (fSt (shared s)) !! j).
Proof.
  intros Hs. split.
  - intros ->. destruct (step_referee _ _ _ Hs) as [Hm _].
    by eapply referee_main_frame.
  - intros r i ->. destruct (step_field _ _ _ _ _ Hs) as (p & p' & _ & Hm & _).
    by eapply field_main_slots_frame.
Qed.

Lemma X16_who_writes_what_witness :
  exists s s',
    run exact_fit poll_run (init exact_fit) = Some s /\
    step exact_fit (Player 1) s = Some s' /\
    (Player 1 = TheReferee ->
       playersFree (fSt (shared s')) = playersFree (fSt (shared s)) /\
       goaliesFree (fSt (shared s')) = goaliesFree (fSt (shared s)) /\
       teamId (fSt (shared s')) = teamId (fSt (shared s)) /\
       forall r, slots r (fSt (shared s')) = slots r (fSt (shared s))) /\
    (forall r i, Player 1 = field_actor r i ->
       refereeStat (st (fSt (shared s'))) = refereeStat (st (fSt (shared s))) /\
       forall r' j, (r', j) <> (r, i) ->
         slots r' (fSt (shared s')) !! j = slots r' (fSt (shared s)) !! j).
Proof.
  eexists. eexists. split; [vm_compute; reflexivity|].
  split; [vm_compute; reflexivity|].
  apply (X16_who_writes_what exact_fit (Player 1)). vm_compute. reflexivity.
Defined.

(** ** The log as a history *)

(** X19: nothing goes back in time.  Every statement of a run leaves a
    snapshot in which no slot has returned to an earlier state of its life
    cycle (LATE is final), the free counters have not grown and [teamId] has
    not decreased; hence the records of the log are in that order, and
    the snapshot is at or after every one of them. *)
Theorem X19_log_is_a_history (K : probConst) (tr : list event) (s : system) :
  consts_ok K -> reachable K tr s ->
  (forall a s', step K a s = Some s' ->
     snapshot_le (fSt (shared s)) (fSt (shared s'))) /\
  (forall f, f ∈ logfile (shared s) -> snapshot_le f (fSt (shared s))) /\
  (forall i j f g, (i <= j)%nat ->
     logfile (shared s) !! i = Some f -> logfile (shared s) !! j = Some g ->
     snapshot_le f g).
Proof.
  intros HK Hr. destruct (history_reach _ _ _ HK Hr) as [Hcur Hsorted].
  split; [|by split]. intros a s' Hs. by eapply step_forward.
Qed.

Lemma X19_log_is_a_history_witness :
  exists s,
    run exact_fit full_run (init exact_fit) = Some s /\
    (forall a s', step exact_fit a s = Some s' ->
       snapshot_le (fSt (shared s)) (fSt (shared s'))) /\
    (forall f, f ∈ logfile (shared s) -> snapshot_le f (fSt (shared s))) /\
    (forall i j f g, (i <= j)%nat ->
       logfile (shared s) !! i = Some f -> logfile (shared s) !! j = Some g ->
       snapshot_le f g).
Proof.
  eexists. split; [vm_compute; reflexivity|].
  apply (X19_log_is_a_history exact_fit (trace exact_fit full_run (init exact_fit) [])).
  - apply exact_fit_ok.
  - apply reachable_run. vm_compute. reflexivity.
Defined.

(** ** Validation of the arguments, continued *)

(** X18: an id that passes the validation was read entirely from an
    argument list of the right size, is an [int] below the population of
    its role, and, when it is not negative, indexes a slot: every write
    [playerStat[n] = v] or [goalieStat[n] = v] of the life cycle is inside
    an array of that population. *)
Theorem X18_accepted_id (population : Z) (errfile msg : string) (c : Args.cmdline)
    (n : Z) :
  Args.validate population errfile msg c = Args.proceeds n ->
  Args.argc c = 4 /\ Args.strtol_rest c = EmptyString /\
  n = CInt.to_int (Args.strtol_value c) /\
  CInt.in_int n /\ n < population /\
  (0 <= n -> forall r v w,
     length (slots r (fSt w)) = Z.to_nat population ->
     exists w', set_stat r n v w = Some w' /\
       slots r (fSt w') !! Z.to_nat n = Some v).
Proof.
  unfold Args.validate. intros H.
  destruct (Z.eqb_spec (Args.argc c) 4) as [Hargc|]; simpl in H; [|done].
  destruct (String.eqb_spec (Args.strtol_rest c) EmptyString) as [Hrest|]; simpl in H;
    [|done].
  destruct (Z.leb_spec population (CInt.to_int (CInt.to_uint (Args.strtol_value c))))
    as [|Hlt]; [done|].
  injection H as <-. rewrite CIntFacts.to_int_to_uint in *.
  split; [done|]. split; [done|]. split; [done|]. split.
  - unfold CInt.in_int, CInt.to_int, CInt.INT_MIN, CInt.INT_MAX.
    pose proof (Z.mod_pos_bound (Args.strtol_value c) 4294967296 ltac:(lia)).
    destruct (Z.ltb_spec (Args.strtol_value c mod 4294967296) 2147483648); lia.
  - split; [done|]. intros Hn r v w Hlen. apply set_stat_defined. lia.
Qed.

Lemma X18_accepted_id_witness :
  let c := {| Args.argc := 4; Args.strtol_value := 4294967299;
              Args.strtol_rest := EmptyString |} in
  Args.argc c = 4 /\ Args.strtol_rest c = EmptyString /\
  3 = CInt.to_int (Args.strtol_value c) /\
  CInt.in_int 3 /\ 3 < NUMPLAYERS exact_fit /\
  (0 <= 3 -> forall r v w,
     length (slots r (fSt w)) = Z.to_nat (NUMPLAYERS exact_fit) ->
     exists w', set_stat r 3 v w = Some w' /\
       slots r (fSt w') !! Z.to_nat 3 = Some v).
Proof.
  apply (X18_accepted_id (NUMPLAYERS exact_fit) "error_PL"
           "Player process identification is wrong!"
           {| Args.argc := 4; Args.strtol_value := 4294967299;
              Args.strtol_rest := EmptyString |} 3).
  vm_compute. reflexivity.
Defined.

(** ** How a run can stop *)

(** X20: a run never stops on the mutex.  In a state of a run in which no
    process has a next step the mutex is free and the referee has exited;
    every player and goalie has exited or is blocked at the first [semDown]
    of [waitReferee] or of [playUntilEnd]; and the leader of one of the first
    two teams is among those blocked in [waitReferee], for ever. *)
Theorem X20_runs_stop_in_waitReferee (K : probConst) (tr : list event) (s : system) :
  consts_ok K -> reachable K tr s ->
  (forall a, step K a s = None) ->
  semval mutex (shared s) = 1%nat /\
  referee s = Referee.exited /\
  (forall r i p, procs r s !! i = Some p ->
     pc p = exited \/
     (pc p = in_waitReferee wr_wait /\ semval playersWaitReferee (shared s) = O) \/
     (pc p = in_playUntilEnd pe_wait /\ semval playersWaitEnd (shared s) = O)) /\
  (exists r i p, procs r s !! i = Some p /\ team p <> 0 /\
     pc p = in_waitReferee wr_wait).
Proof.
  intros HK Hr Hstop.
  destruct (mutex_inv_reach K tr s Hr) as (Hle & _ & _ & Hsome).
  assert (Hm : semval mutex (shared s) = 1%nat).
  { destruct (semval mutex (shared s)) as [|n] eqn:Hv; [exfalso|lia].
    destruct (Hsome eq_refl) as (a & l & Hl & Hcs).
    destruct (holder_steps K tr s a l Hr Hl Hcs) as [s' Hs].
    by rewrite Hstop in Hs. }
  assert (Hfield : forall r i p, procs r s !! i = Some p ->
            pc p = exited \/
            (pc p = in_waitReferee wr_wait /\ semval playersWaitReferee (shared s) = O) \/
            (pc p = in_playUntilEnd pe_wait /\ semval playersWaitEnd (shared s) = O)).
  { intros r i p Hp.
    assert (Hl : next_label (field_actor r i) s = Some (at_field (pc p))).
    { by rewrite next_label_field, Hp. }
    pose proof (proj1 (step_stuck K tr s _ _ Hr Hl) (Hstop _)) as Hst.
    unfold stuck in Hst. simpl in Hm.
    destruct (pc p) as [[]|[]|[]|[]|]; simpl in Hst; try congruence;
      first [by left | right; left; by split | right; right; by split]. }
  assert (Href : referee s = Referee.exited).
  { pose proof (proj1 (step_stuck K tr s TheReferee _ Hr eq_refl) (Hstop _)) as Hst.
    unfold stuck in Hst. simpl in Hm.
    destruct (referee s) as [[]|[]|[]|[]|[]|]; simpl in Hst; congruence. }
  split; [done|]. split; [done|]. split; [done|].
  destruct (leader_left_behind _ _ _ HK Hr) as (r & i & p & Hp & Ht & Hg).
  { by rewrite Href. }
  exists r, i, p. split; [done|]. split; [done|].
  pose proof (not_started_not_exited p Ht Hg) as Hne.
  destruct (Hfield _ _ _ Hp) as [Hpc|[[Hpc _]|[Hpc _]]]; [done|done|].
  unfold got_start in Hg. by rewrite Hpc in Hg.
Qed.

Lemma X20_runs_stop_in_waitReferee_witness :
  exists s,
    run exact_fit full_run (init exact_fit) = Some s /\
    semval mutex (shared s) = 1%nat /\
    referee s = Referee.exited /\
    (forall r i p, procs r s !! i = Some p ->
       pc p = exited \/
       (pc p = in_waitReferee wr_wait /\ semval playersWaitReferee (shared s) = O) \/
       (pc p = in_playUntilEnd pe_wait /\ semval playersWaitEnd (shared s) = O)) /\
    (exists r i p, procs r s !! i = Some p /\ team p <> 0 /\
       pc p = in_waitReferee wr_wait).
Proof.
  eexists. split; [vm_compute; reflexivity|].
  apply (X20_runs_stop_in_waitReferee exact_fit
           (trace exact_fit full_run (init exact_fit) [])).
  - apply exact_fit_ok.
  - apply reachable_run. vm_compute. reflexivity.
  - intros [i|i|].
    + do 8 (destruct i as [|i]; [vm_compute; reflexivity|]). reflexivity.
    + do 2 (destruct i as [|i]; [vm_compute; reflexivity|]). reflexivity.
    + vm_compute. reflexivity.
Defined.

(** ** The length of the runs *)



(** ** The late actors *)

(** X22: LATE closes the teams: whenever a slot of the snapshot, or of a
    record of the log, shows LATE, the free players or the free goalies of
    that snapshot are too few for a team, so the test of [constituteTeam]
    fails for everybody from then on. *)
Theorem X22_late_closes_the_teams (K : probConst) (tr : list event) (s : system) :
  consts_ok K -> reachable K tr s ->
  (shows_late (fSt (shared s)) -> not_enough_free K (fSt (shared s))) /\
  (forall f, f ∈ logfile (shared s) -> shows_late f -> not_enough_free K f).
Proof.
  intros HK Hr. split; [by eapply late_closed|].
  intros f Hf.
  apply (log_records K (fun f => shows_late f -> not_enough_free K f))
    with (tr := tr) (s := s); [|done|done].
  intros tr0 s0 Hr0. by eapply late_closed.
Qed.

Lemma X22_late_closes_the_teams_witness :
  exists s,
    run exact_fit full_run (init exact_fit) = Some s /\
    (shows_late (fSt (shared s)) -> not_enough_free exact_fit (fSt (shared s))) /\
    (forall f, f ∈ logfile (shared s) -> shows_late f -> not_enough_free exact_fit f).
Proof.
  eexists. split; [vm_compute; reflexivity|].
  apply (X22_late_closes_the_teams exact_fit
           (trace exact_fit full_run (init exact_fit) [])).
  - apply exact_fit_ok.
  - apply reachable_run. vm_compute. reflexivity.
Defined.
